(** * Euler tour iterators and the Eulerian predicate of [lemon/euler.h]

    A shallow embedding of [DiEulerIt], [EulerIt] and the two overloads of
    [eulerian], followed by the properties proved about them. *)

From stdpp Require Import base option list gmap.

(** ** Results of operations that C++ leaves partially defined *)

(** [Undefined] stands for a use the C++ code does not guard: [front()] or
    [pop_front()] of an empty [std::list], or reading the cursor of a node
    for which the node map holds no initialised entry.  [OutOfFuel] is the
    model's own artefact: the loops of the source are embedded with a step
    budget. *)
Inductive result (A : Type) : Type :=
| Ok (a : A)
| Undefined
| OutOfFuel.
Arguments Ok {A} a.
Arguments Undefined {A}.
Arguments OutOfFuel {A}.

#[global] Instance result_ret : MRet result := λ A a, Ok a.
#[global] Instance result_bind : MBind result := λ A B f r,
  match r with
  | Ok a => f a
  | Undefined => Undefined
  | OutOfFuel => OutOfFuel
  end.

(** Member functions of an iterator object: a state monad over [result]. *)
Definition M (S A : Type) : Type := S → result (A * S).

#[global] Instance M_ret {S} : MRet (M S) := λ A a s, Ok (a, s).
#[global] Instance M_bind {S} : MBind (M S) := λ A B f m s,
  match m s with
  | Ok (a, s') => f a s'
  | Undefined => Undefined
  | OutOfFuel => OutOfFuel
  end.

(** [k] consecutive calls of the same member function, results collected. *)
Fixpoint repeatM {S A} (k : nat) (m : M S A) : M S (list A) :=
  match k with
  | 0 => mret []
  | S k' => x ← m; xs ← repeatM k' m; mret (x :: xs)
  end.

(** ** The graph concepts the templates are instantiated with *)

(** Nodes, arcs and edges are identified by their ids. *)
Abbreviation Node := nat (only parsing).
Abbreviation Arc := nat (only parsing).
Abbreviation Edge := nat (only parsing).

(** An [OutArcIt] is the list of out-arcs it still has to enumerate; the
    exhausted iterator, which compares equal to [INVALID], is [[]].
    Dereferencing gives the head, [++] drops it. *)
Abbreviation OutArcIt := (list nat) (only parsing).

(** What the iterators use of [GR]: [NodeIt] (as the list it enumerates),
    [OutArcIt(g,n)], [g.source] and [g.target]. *)
Class Digraph (GR : Type) := {
  nodes : GR → list Node;
  outArcs : GR → Node → OutArcIt;
  source : GR → Arc → Node;
  target : GR → Arc → Node;
}.

(** An undirected graph is a digraph in which every arc converts to the
    edge it runs along. *)
Class Graph (GR : Type) `{Digraph GR} := {
  edge : GR → Arc → Edge;
}.

(** [ArcIt]: the out-arcs of every node in turn. *)
Definition arcs `{Digraph GR} (gr : GR) : list Arc :=
  nodes gr ≫= outArcs gr.

(** [InArcIt(g,n)]. *)
Definition inArcs `{Digraph GR} (gr : GR) (n : Node) : list Arc :=
  filter (λ a, target gr a = n) (arcs gr).

(** The contract of the digraph concept: nodes and arcs are enumerated once,
    [OutArcIt(g,n)] enumerates arcs whose source is [n], and arcs end at
    nodes of the graph. *)
Definition wf `{Digraph GR} (gr : GR) : Prop :=
  NoDup (nodes gr) ∧ NoDup (arcs gr) ∧
  Forall (λ n, Forall (λ a, source gr a = n ∧ target gr a ∈ nodes gr)
                      (outArcs gr n)) (nodes gr).

(** The part of the contract the undirected iterator relies on. *)
Definition closed `{Digraph GR} (gr : GR) : Prop :=
  Forall (λ n, Forall (λ a, target gr a ∈ nodes gr) (outArcs gr n)) (nodes gr).

(** The start node passed to a constructor: [None] is [INVALID] (the default
    argument), [Some s] must be a node of the graph. *)
Definition valid_start `{Digraph GR} (gr : GR) (start : option Node) : Prop :=
  match start with
  | None => True
  | Some s => s ∈ nodes gr
  end.

(** Number of arcs the cursors of a node map still hold. *)
Definition cursor_total (nedge : gmap Node OutArcIt) : nat :=
  map_fold (λ _ c acc, length c + acc) 0 nedge.

(** [NodeIt n(g); while (n!=INVALID && OutArcIt(g,n)==INVALID) ++n;] *)
Fixpoint first_with_out_arc `{Digraph GR} (gr : GR) (ns : list Node)
  : option Node :=
  match ns with
  | [] => None
  | n :: ns' =>
      match outArcs gr n with
      | [] => first_with_out_arc gr ns'
      | _ :: _ => Some n
      end
  end.

(** [for (NodeIt n(g); n!=INVALID; ++n) nedge[n]=OutArcIt(g,n);] *)
Definition init_nedge `{Digraph GR} (gr : GR) : gmap Node OutArcIt :=
  foldl (λ m n, <[n := outArcs gr n]> m) ∅ (nodes gr).

(** ** [DiEulerIt] *)

Module DiEulerIt.

Record t (GR : Type) : Type := Build {
  g : GR;
  nedge : gmap Node OutArcIt;
  euler : list Arc;
}.
Arguments Build {GR} g nedge euler.
Arguments g {GR} _.
Arguments nedge {GR} _.
Arguments euler {GR} _.

Section ops.
Context {GR : Type} `{!Digraph GR}.

(** The [while (nedge[start]!=INVALID)] loop of the constructor. *)
Fixpoint ctor_walk (fuel : nat) (gr : GR) (nedge : gmap Node OutArcIt)
    (euler : list Arc) (start : Node)
  : result (gmap Node OutArcIt * list Arc) :=
  match nedge !! start with
  | None => Undefined
  | Some [] => Ok (nedge, euler)
  | Some (a :: c) =>
      match fuel with
      | 0 => OutOfFuel
      | S fuel' =>
          (* euler.push_back(nedge[start]); next=g.target(nedge[start]);
             ++nedge[start]; start=next; *)
          ctor_walk fuel' gr (<[start := c]> nedge) (euler ++ [a])
                    (target gr a)
      end
  end.

(** [DiEulerIt(const GR &gr, typename GR::Node start = INVALID)] *)
Definition ctor (gr : GR) (start : option Node) : result (t GR) :=
  let start :=
    match start with
    | None => first_with_out_arc gr (nodes gr)
    | Some s => Some s
    end in
  match start with
  | None => Ok (Build gr ∅ [])
  | Some s =>
      let nedge := init_nedge gr in
      '(nedge', euler') ← ctor_walk (cursor_total nedge) gr nedge [] s;
      Ok (Build gr nedge' euler')
  end.

(** [operator Arc()]: [euler.empty()?INVALID:euler.front()]. *)
Definition toArc : M (t GR) (option Arc) :=
  λ it, Ok (head (euler it), it).

(** [operator==(Invalid)] and [operator!=(Invalid)]. *)
Definition eqInvalid : M (t GR) bool :=
  λ it, Ok (bool_decide (euler it = []), it).
Definition neInvalid : M (t GR) bool :=
  λ it, Ok (negb (bool_decide (euler it = [])), it).

(** The [while(nedge[s]!=INVALID)] loop of [operator++].  The trail is
    [before ++ from_next], where [next] points at the head of
    [from_next]; [euler.insert(next,x)] appends [x] to [before]. *)
Fixpoint incr_walk (fuel : nat) (gr : GR) (nedge : gmap Node OutArcIt)
    (before from_next : list Arc) (s : Node)
  : result (gmap Node OutArcIt * list Arc) :=
  match nedge !! s with
  | None => Undefined
  | Some [] => Ok (nedge, before ++ from_next)
  | Some (a :: c) =>
      match fuel with
      | 0 => OutOfFuel
      | S fuel' =>
          incr_walk fuel' gr (<[s := c]> nedge) (before ++ [a]) from_next
                    (target gr a)
      end
  end.

(** [DiEulerIt &operator++()] *)
Definition incr : M (t GR) unit :=
  λ it,
    match euler it with
    | [] => Undefined
    | front :: rest =>
        let s := target (g it) front in
        '(nedge', euler') ←
          incr_walk (cursor_total (nedge it)) (g it) (nedge it) [] rest s;
        Ok (tt, Build (g it) nedge' euler')
    end.

(** [Arc operator++(int)]: [Arc e=*this; ++*this; return e;] *)
Definition postIncr : M (t GR) (option Arc) :=
  e ← toArc; _ ← incr; mret e.

(** The loop of the class documentation,
    [for(DiEulerIt<GR> e(g); e!=INVALID; ++e) et.push_back(e);],
    from an iterator already constructed. *)
Fixpoint collect (fuel : nat) (et : list Arc) (it : t GR)
  : result (list Arc) :=
  match euler it with
  | [] => Ok et
  | a :: _ =>
      match fuel with
      | 0 => OutOfFuel
      | S fuel' =>
          '(_, it') ← incr it; collect fuel' (et ++ [a]) it'
      end
  end.

(** The sequence the iterator produces for [gr] from [start]. *)
Definition tour (gr : GR) (start : option Node) : result (list Arc) :=
  it ← ctor gr start;
  collect (length (euler it) + cursor_total (nedge it)) [] it.

End ops.

(** States an iterator over [gr] can be in. *)
Inductive reachable `{Digraph GR} (gr : GR) : t GR → Prop :=
| reach_ctor start it :
    valid_start gr start → ctor gr start = Ok it → reachable gr it
| reach_incr it it' :
    reachable gr it → incr it = Ok (tt, it') → reachable gr it'.

End DiEulerIt.

(** ** [EulerIt] *)

Module EulerIt.

Record t (GR : Type) : Type := Build {
  g : GR;
  nedge : gmap Node OutArcIt;
  visited : gset Edge;
  euler : list Arc;
}.
Arguments Build {GR} g nedge visited euler.
Arguments g {GR} _.
Arguments nedge {GR} _.
Arguments visited {GR} _.
Arguments euler {GR} _.

Section ops.
Context {GR : Type} `{Graph GR}.

(** [while(nedge[s]!=INVALID && visited[nedge[s]]) ++nedge[s];] as it
    acts on the cursor of [s]. *)
Fixpoint skip_visited (gr : GR) (visited : gset Edge) (c : OutArcIt)
  : OutArcIt :=
  match c with
  | [] => []
  | a :: c' =>
      if decide (edge gr a ∈ visited) then skip_visited gr visited c'
      else c
  end.

(** The [while(nedge[start]!=INVALID)] loop of the constructor. *)
Fixpoint ctor_walk (fuel : nat) (gr : GR) (nedge : gmap Node OutArcIt)
    (visited : gset Edge) (euler : list Arc) (start : Node)
  : result (gmap Node OutArcIt * gset Edge * list Arc) :=
  match nedge !! start with
  | None => Undefined
  | Some [] => Ok (nedge, visited, euler)
  | Some (a :: c) =>
      match fuel with
      | 0 => OutOfFuel
      | S fuel' =>
          (* euler.push_back(nedge[start]); visited[nedge[start]]=true;
             next=g.target(nedge[start]); ++nedge[start]; start=next; *)
          let visited := {[edge gr a]} ∪ visited in
          let next := target gr a in
          let nedge := <[start := c]> nedge in
          (* while(nedge[start]!=INVALID && visited[nedge[start]])
               ++nedge[start]; *)
          match nedge !! next with
          | None => Undefined
          | Some c' =>
              ctor_walk fuel' gr
                        (<[next := skip_visited gr visited c']> nedge)
                        visited (euler ++ [a]) next
          end
      end
  end.

(** [EulerIt(const GR &gr, typename GR::Node start = INVALID)] *)
Definition ctor (gr : GR) (start : option Node) : result (t GR) :=
  let start :=
    match start with
    | None => first_with_out_arc gr (nodes gr)
    | Some s => Some s
    end in
  match start with
  | None => Ok (Build gr ∅ ∅ [])
  | Some s =>
      let nedge := init_nedge gr in
      '(nedge', visited', euler') ←
        ctor_walk (cursor_total nedge) gr nedge ∅ [] s;
      Ok (Build gr nedge' visited' euler')
  end.

(** [operator Arc() const] *)
Definition toArc : M (t GR) (option Arc) :=
  λ it, Ok (head (euler it), it).

(** [operator Edge() const]: the same arc, converted to its edge. *)
Definition toEdge : M (t GR) (option Edge) :=
  λ it, Ok (edge (g it) <$> head (euler it), it).

(** [operator==(Invalid) const] and [operator!=(Invalid) const]. *)
Definition eqInvalid : M (t GR) bool :=
  λ it, Ok (bool_decide (euler it = []), it).
Definition neInvalid : M (t GR) bool :=
  λ it, Ok (negb (bool_decide (euler it = [])), it).

(** The [while(nedge[s]!=INVALID)] loop of [operator++]; the trail is
    [before ++ from_next] with [next] at the head of [from_next]. *)
Fixpoint incr_walk (fuel : nat) (gr : GR) (nedge : gmap Node OutArcIt)
    (visited : gset Edge) (before from_next : list Arc) (s : Node)
  : result (gmap Node OutArcIt * gset Edge * list Arc) :=
  match nedge !! s with
  | None => Undefined
  | Some [] => Ok (nedge, visited, before ++ from_next)
  | Some (b :: c) =>
      (* while(nedge[s]!=INVALID && visited[nedge[s]]) ++nedge[s]; *)
      match skip_visited gr visited (b :: c) with
      | [] =>
          (* if(nedge[s]==INVALID) break; *)
          Ok (<[s := []]> nedge, visited, before ++ from_next)
      | a :: c' =>
          match fuel with
          | 0 => OutOfFuel
          | S fuel' =>
              (* euler.insert(next,nedge[s]); visited[nedge[s]]=true;
                 n=g.target(nedge[s]); ++nedge[s]; s=n; *)
              incr_walk fuel' gr (<[s := c']> nedge)
                        ({[edge gr a]} ∪ visited) (before ++ [a])
                        from_next (target gr a)
          end
      end
  end.

(** [EulerIt &operator++()] *)
Definition incr : M (t GR) unit :=
  λ it,
    match euler it with
    | [] => Undefined
    | front :: rest =>
        let s := target (g it) front in
        '(nedge', visited', euler') ←
          incr_walk (cursor_total (nedge it)) (g it) (nedge it)
                    (visited it) [] rest s;
        Ok (tt, Build (g it) nedge' visited' euler')
    end.

(** [Arc operator++(int)]: [Arc e=*this; ++*this; return e;] *)
Definition postIncr : M (t GR) (option Arc) :=
  e ← toArc; _ ← incr; mret e.

(** The loop of the class documentation,
    [for(EulerIt<GR> e(g); e!=INVALID; ++e) ...], collecting the arcs. *)
Fixpoint collect (fuel : nat) (et : list Arc) (it : t GR)
  : result (list Arc) :=
  match euler it with
  | [] => Ok et
  | a :: _ =>
      match fuel with
      | 0 => OutOfFuel
      | S fuel' =>
          '(_, it') ← incr it; collect fuel' (et ++ [a]) it'
      end
  end.

(** The sequence the iterator produces for [gr] from [start]. *)
Definition tour (gr : GR) (start : option Node) : result (list Arc) :=
  it ← ctor gr start;
  collect (length (euler it) + cursor_total (nedge it)) [] it.

End ops.

(** States an iterator over [gr] can be in. *)
Inductive reachable `{Graph GR} (gr : GR) : t GR → Prop :=
| reach_ctor start it :
    valid_start gr start → ctor gr start = Ok it → reachable gr it
| reach_incr it it' :
    reachable gr it → incr it = Ok (tt, it') → reachable gr it'.

End EulerIt.

(** ** The collaborators of [eulerian] *)

(** Modelled from the spec: [countOutArcs], [countInArcs] and
    [countIncEdges] are functions of [lemon/core.h], which is not part of
    the sources at hand.  The spec (section 6) has them return the out-arc
    count, the in-arc count and the incident-edge count of a node; an edge
    is incident to [n] once for every arc that leaves [n] along it. *)
Definition countOutArcs `{Digraph GR} (gr : GR) (n : Node) : nat :=
  length (outArcs gr n).
Definition countInArcs `{Digraph GR} (gr : GR) (n : Node) : nat :=
  length (inArcs gr n).
Definition countIncEdges `{Graph GR} (gr : GR) (n : Node) : nat :=
  length (outArcs gr n).

(** Modelled from the spec: [Undirector] is the adaptor of
    [lemon/adaptors.h], not part of the sources at hand; the spec calls it
    the graph with arc direction ignored (symmetrized).  Every arc [a] of the
    digraph is an edge [a], with the two arcs [2a+1] (along [a]) and [2a]
    (against [a]). *)
Record Undirector (GR : Type) : Type := undirector { digraph : GR }.
Arguments undirector {GR} _.
Arguments digraph {GR} _.

#[global] Instance Undirector_Digraph `{Digraph GR} : Digraph (Undirector GR) := {|
  nodes u := nodes (digraph u);
  outArcs u n :=
    ((λ a, 2 * a + 1) <$> outArcs (digraph u) n) ++
    ((λ a, 2 * a) <$> inArcs (digraph u) n);
  source u x :=
    if Nat.odd x then source (digraph u) (x / 2)
    else target (digraph u) (x / 2);
  target u x :=
    if Nat.odd x then target (digraph u) (x / 2)
    else source (digraph u) (x / 2);
|}.

#[global] Instance Undirector_Graph `{Digraph GR} : Graph (Undirector GR) := {|
  edge u x := x / 2;
|}.

(** Modelled from the spec: [connected] is a function of
    [lemon/connectivity.h], not part of the sources at hand.  The spec has
    it return whether the graph it is given is connected: every node is
    reached from the first one along arcs (a graph without nodes is
    connected).  [reach] adds the unseen neighbours of the nodes seen so
    far, once per round. *)
Definition neighbours `{Digraph GR} (gr : GR) (n : Node) : list Node :=
  target gr <$> outArcs gr n.

Fixpoint reach `{Digraph GR} (rounds : nat) (gr : GR) (seen : list Node)
  : list Node :=
  match rounds with
  | 0 => seen
  | S rounds' =>
      reach rounds' gr
        (seen ++ remove_dups (filter (λ n, n ∉ seen) (seen ≫= neighbours gr)))
  end.

Definition connected `{Graph GR} (gr : GR) : bool :=
  match nodes gr with
  | [] => true
  | n0 :: _ =>
      forallb (λ n, bool_decide (n ∈ reach (length (nodes gr)) gr [n0]))
              (nodes gr)
  end.

(** ** [eulerian] *)

(** The overload for undirected graphs. *)
Module Undirected.
Section eulerian.
Context {GR : Type} `{Graph GR}.

(** [for(NodeIt n(g);n!=INVALID;++n)
      if(countIncEdges(g,n)%2) return false;
    return connected(g);] from the node [NodeIt] has got to. *)
Fixpoint eulerian_from (gr : GR) (ns : list Node) : bool :=
  match ns with
  | [] => connected gr
  | n :: ns' =>
      if decide (countIncEdges gr n `mod` 2 ≠ 0) then false
      else eulerian_from gr ns'
  end.

Definition eulerian (gr : GR) : bool := eulerian_from gr (nodes gr).
End eulerian.
End Undirected.

(** The overload for directed graphs. *)
Module Directed.
Section eulerian.
Context {GR : Type} `{Digraph GR}.

(** [for(NodeIt n(g);n!=INVALID;++n)
      if(countInArcs(g,n)!=countOutArcs(g,n)) return false;
    return connected(Undirector<const GR>(g));] *)
Fixpoint eulerian_from (gr : GR) (ns : list Node) : bool :=
  match ns with
  | [] => connected (undirector gr)
  | n :: ns' =>
      if decide (countInArcs gr n ≠ countOutArcs gr n) then false
      else eulerian_from gr ns'
  end.

Definition eulerian (gr : GR) : bool := eulerian_from gr (nodes gr).
End eulerian.
End Directed.

(** ** Concrete graphs *)

(** A digraph given by its nodes and its arcs: arc [i] is the [i]-th pair
    (source, target). *)
Record ListDigraph := {
  ld_nodes : list Node;
  ld_arcs : list (Node * Node);
}.

#[global] Instance ListDigraph_Digraph : Digraph ListDigraph := {|
  nodes gr := ld_nodes gr;
  outArcs gr n :=
    omap id (imap (λ i uv, if decide (uv.1 = n) then Some i else None)
                  (ld_arcs gr));
  source gr a := (ld_arcs gr !!! a).1;
  target gr a := (ld_arcs gr !!! a).2;
|}.

(** An undirected graph given by its nodes and its edges: edge [i] is the
    [i]-th pair [(u, v)], with the arcs [2i+1] from [u] to [v] and [2i] from
    [v] to [u]. *)
Record ListGraph := {
  lg_nodes : list Node;
  lg_edges : list (Node * Node);
}.

#[global] Instance ListGraph_Digraph : Digraph ListGraph := {|
  nodes gr := lg_nodes gr;
  outArcs gr n :=
    mjoin (imap (λ i uv,
                   (if decide (uv.1 = n) then [2 * i + 1] else []) ++
                   (if decide (uv.2 = n) then [2 * i] else []))
                (lg_edges gr));
  source gr x :=
    let uv := lg_edges gr !!! (x / 2) in
    if Nat.odd x then uv.1 else uv.2;
  target gr x :=
    let uv := lg_edges gr !!! (x / 2) in
    if Nat.odd x then uv.2 else uv.1;
|}.

#[global] Instance ListGraph_Graph : Graph ListGraph := {|
  edge gr x := x / 2;
|}.

(** The figure eight: the triangles 0 → 1 → 2 → 0 (arcs 0, 1, 2) and
    0 → 3 → 4 → 0 (arcs 3, 4, 5) share node 0. *)
Definition fig8 : ListDigraph :=
  {| ld_nodes := [0; 1; 2; 3; 4];
     ld_arcs := [(0, 1); (1, 2); (2, 0); (0, 3); (3, 4); (4, 0)] |}.

(** Node 0 has no out-arc, node 1 has the arc 1 → 0. *)
Definition sink_first : ListDigraph :=
  {| ld_nodes := [0; 1]; ld_arcs := [(1, 0)] |}.

(** The undirected path 0 - 1 - 2. *)
Definition path3 : ListGraph :=
  {| lg_nodes := [0; 1; 2]; lg_edges := [(0, 1); (1, 2)] |}.

(** The undirected triangle 0 - 1 - 2 - 0. *)
Definition triangle : ListGraph :=
  {| lg_nodes := [0; 1; 2]; lg_edges := [(0, 1); (1, 2); (2, 0)] |}.

(** ** Vocabulary of the proofs *)

Section vocabulary.
Context {GR : Type} `{Digraph GR}.

(** Every arc a cursor still holds ends at a node that has a cursor. *)
Definition cursors_closed (gr : GR) (nedge : gmap Node OutArcIt) : Prop :=
  ∀ n c a, nedge !! n = Some c → a ∈ c → is_Some (nedge !! target gr a).

(** The walk both loops of [DiEulerIt] perform: from the cursors [nedge]
    and the node [s] it takes the arcs [W], and stops at the node [s'],
    whose cursor is exhausted, with the cursors [nedge']. *)
Inductive walked (gr : GR)
  : gmap Node OutArcIt → Node → list Arc → gmap Node OutArcIt → Node → Prop :=
| walked_stop nedge s :
    nedge !! s = Some [] → walked gr nedge s [] nedge s
| walked_step nedge s a c W nedge' s' :
    nedge !! s = Some (a :: c) →
    walked gr (<[s := c]> nedge) (target gr a) W nedge' s' →
    walked gr nedge s (a :: W) nedge' s'.

(** How many arcs of [l] leave [v], and how many enter it. *)
Definition out_count (gr : GR) (v : Node) (l : list Arc) : nat :=
  length (filter (λ a, source gr a = v) l).
Definition in_count (gr : GR) (v : Node) (l : list Arc) : nat :=
  length (filter (λ a, target gr a = v) l).

(** [l] is a trail from [s]: every arc starts where the previous one ended. *)
Fixpoint chained (gr : GR) (s : Node) (l : list Arc) : Prop :=
  match l with
  | [] => True
  | a :: l' => source gr a = s ∧ chained gr (target gr a) l'
  end.

(** The node a trail from [s] along [l] ends at. *)
Fixpoint trail_end (gr : GR) (s : Node) (l : list Arc) : Node :=
  match l with
  | [] => s
  | a :: l' => trail_end gr (target gr a) l'
  end.

(** The tour is closed: its last arc ends where its first arc starts. *)
Definition closed_tour (gr : GR) (l : list Arc) : Prop :=
  match l with
  | [] => True
  | a :: _ => target gr (List.last l a) = source gr a
  end.

(** The cursors [nedge] against the arcs [X] taken so far (emitted or still
    on the trail): the cursor of a node is what is left of its out-arcs,
    and [X] holds the arcs the cursors have passed, each once. *)
Record cursors_inv (gr : GR) (nedge : gmap Node OutArcIt) (X : list Arc)
  : Prop := {
  ci_suffix : ∀ n, n ∈ nodes gr →
    ∃ u c, nedge !! n = Some c ∧ outArcs gr n = u ++ c ∧ ∀ a, a ∈ u → a ∈ X;
  ci_dom : ∀ n, is_Some (nedge !! n) → n ∈ nodes gr;
  ci_fresh : ∀ n c a, nedge !! n = Some c → a ∈ c → a ∉ X;
  ci_arcs : ∀ a, a ∈ X → a ∈ arcs gr;
  ci_nodup : NoDup X;
}.

(** What bounds the steps a directed iterator still takes. *)
Definition di_measure (it : DiEulerIt.t GR) : nat :=
  length (DiEulerIt.euler it) + cursor_total (DiEulerIt.nedge it).

(** The invariant of every directed iterator: the arcs emitted ([et]) and
    those on the trail are the arcs the cursors have passed.  The iterator
    the constructor leaves without cursors has an empty trail. *)
Definition di_inv (gr : GR) (et : list Arc) (it : DiEulerIt.t GR) : Prop :=
  DiEulerIt.g it = gr ∧
  (cursors_inv gr (DiEulerIt.nedge it) (et ++ DiEulerIt.euler it) ∨
   (et = [] ∧ DiEulerIt.euler it = [])).

(** Every node has as many in-arcs as out-arcs. *)
Definition balanced (gr : GR) : Prop :=
  ∀ n, n ∈ nodes gr → countInArcs gr n = countOutArcs gr n.

(** The invariant of a directed iterator over a balanced graph, started
    at [s0]: the arcs emitted and the trail after them form a closed trail
    through [s0], and the cursor of every node the emitted arcs have
    passed is exhausted. *)
Definition eul_inv (gr : GR) (s0 : Node) (et : list Arc)
    (it : DiEulerIt.t GR) : Prop :=
  DiEulerIt.g it = gr ∧ s0 ∈ nodes gr ∧
  cursors_inv gr (DiEulerIt.nedge it) (et ++ DiEulerIt.euler it) ∧
  chained gr s0 (et ++ DiEulerIt.euler it) ∧
  trail_end gr s0 (et ++ DiEulerIt.euler it) = s0 ∧
  DiEulerIt.nedge it !! s0 = Some [] ∧
  ∀ a, a ∈ et → DiEulerIt.nedge it !! target gr a = Some [].

(** The nodes a trail [et] from [s0] passes. *)
Definition on_trail (gr : GR) (s0 : Node) (et : list Arc) (v : Node) : Prop :=
  v = s0 ∨ ∃ a, a ∈ et ∧ target gr a = v.

End vocabulary.

(** Connectivity in the words of graph theory, to compare [connected]
    with: [v] is adjacent to [u] when an arc leaves [u] for [v], and a graph
    is connected when any two of its nodes are joined by a path. *)
Definition adjacent `{Digraph GR} (gr : GR) (u v : Node) : Prop :=
  ∃ a, a ∈ outArcs gr u ∧ target gr a = v.

Definition path_connected `{Digraph GR} (gr : GR) : Prop :=
  ∀ u v, u ∈ nodes gr → v ∈ nodes gr → rtc (adjacent gr) u v.

(** In an undirected graph every arc has an opposite arc. *)
Definition symmetric `{Digraph GR} (gr : GR) : Prop :=
  ∀ u v, u ∈ nodes gr → adjacent gr u v → adjacent gr v u.

Section undirected_vocabulary.
Context {GR : Type} `{Graph GR}.

(** What both loops of [EulerIt] do: from the cursors [nedge], the marks
    [visited] and the node [s] they move cursors forward and take the arcs
    [W], each along an edge not marked before, marking it. *)
Inductive taken (gr : GR)
  : gmap Node OutArcIt → gset Edge → Node → list Arc →
    gmap Node OutArcIt → gset Edge → Prop :=
| taken_stop nedge visited s :
    taken gr nedge visited s [] nedge visited
| taken_skip nedge visited s c c' W nedge' visited' :
    nedge !! s = Some c → c' `suffix_of` c →
    taken gr (<[s := c']> nedge) visited s W nedge' visited' →
    taken gr nedge visited s W nedge' visited'
| taken_arc nedge visited s a c W nedge' visited' :
    nedge !! s = Some (a :: c) → edge gr a ∉ visited →
    taken gr (<[s := c]> nedge) ({[edge gr a]} ∪ visited) (target gr a)
          W nedge' visited' →
    taken gr nedge visited s (a :: W) nedge' visited'.

(** What bounds the steps an undirected iterator still takes. *)
Definition u_measure (it : EulerIt.t GR) : nat :=
  length (EulerIt.euler it) + cursor_total (EulerIt.nedge it).

(** The invariant of every undirected iterator: the arcs emitted ([et])
    and those on the trail run along different edges, all of them marked,
    and the cursors a step may consult exist. *)
Definition u_inv (gr : GR) (et : list Arc) (it : EulerIt.t GR) : Prop :=
  EulerIt.g it = gr ∧
  cursors_closed gr (EulerIt.nedge it) ∧
  (∀ a, a ∈ EulerIt.euler it → is_Some (EulerIt.nedge it !! target gr a)) ∧
  NoDup (edge gr <$> (et ++ EulerIt.euler it)) ∧
  (∀ a, a ∈ et ++ EulerIt.euler it → edge gr a ∈ EulerIt.visited it).

End undirected_vocabulary.

(** The contracts can be checked by computation. *)
#[global] Instance wf_dec `{Digraph GR} (gr : GR) : Decision (wf gr).
Proof. unfold wf. apply _. Defined.

#[global] Instance closed_dec `{Digraph GR} (gr : GR) : Decision (closed gr).
Proof. unfold closed. apply _. Defined.

#[global] Instance valid_start_dec `{Digraph GR} (gr : GR) start :
  Decision (valid_start gr start).
Proof. destruct start; simpl; apply _. Defined.

(** How often a sequence of arcs passes from the arcs in [P] to the others
    or back.  A sequence that interleaves the two kinds, the arcs of one
    kind lying between arcs of the other, changes at least twice. *)
Fixpoint changes (P : Arc → bool) (l : list Arc) : nat :=
  match l with
  | [] => 0
  | a :: l' =>
      match l' with
      | [] => 0
      | b :: _ => (if bool_decide (P a = P b) then 0 else 1) + changes P l'
      end
  end.

Definition interleaved (P : Arc → bool) (l : list Arc) : Prop :=
  2 ≤ changes P l.

(** The arcs 0, 1, 2 of [fig8]: the triangle 0 → 1 → 2 → 0. *)
Definition first_triangle (a : Arc) : bool := bool_decide (a < 3).

(** The trail of an iterator after [k] advances. *)
Definition trail_after `{Digraph GR} (k : nat) (it : result (DiEulerIt.t GR))
  : result (list Arc) :=
  it ← it;
  '(_, it') ← repeatM k DiEulerIt.incr it;
  Ok (DiEulerIt.euler it').

(** Graphs without arcs. *)
Definition no_nodes_digraph : ListDigraph := {| ld_nodes := []; ld_arcs := [] |}.
Definition one_node_digraph : ListDigraph := {| ld_nodes := [0]; ld_arcs := [] |}.
Definition no_nodes_graph : ListGraph := {| lg_nodes := []; lg_edges := [] |}.
Definition one_node_graph : ListGraph := {| lg_nodes := [0]; lg_edges := [] |}.

(** The undirected graph with the isolated node 0 and the edge 1 - 2. *)
Definition isolated_first : ListGraph :=
  {| lg_nodes := [0; 1; 2]; lg_edges := [(1, 2)] |}.

(** The iterators a constructor call returns, for calls that succeed. *)
Definition di_ctor_it `{Digraph GR} (gr : GR) (start : option Node)
  : DiEulerIt.t GR :=
  match DiEulerIt.ctor gr start with
  | Ok it => it
  | _ => DiEulerIt.Build gr ∅ []
  end.

Definition u_ctor_it `{Graph GR} (gr : GR) (start : option Node)
  : EulerIt.t GR :=
  match EulerIt.ctor gr start with
  | Ok it => it
  | _ => EulerIt.Build gr ∅ ∅ []
  end.

(** ** Vocabulary of the further properties *)

(** The contract of the graph concept for undirected graphs: besides the
    contract of digraphs, every arc has exactly one other arc along its
    edge, and that arc runs the other way. *)
Definition uwf `{Graph GR} (gr : GR) : Prop :=
  wf gr ∧
  Forall (λ a,
    Exists (λ b,
      b ≠ a ∧ edge gr b = edge gr a ∧
      source gr b = target gr a ∧ target gr b = source gr a ∧
      Forall (λ c, edge gr c = edge gr a → c = a ∨ c = b) (arcs gr))
      (arcs gr))
    (arcs gr).

#[global] Instance uwf_dec `{Graph GR} (gr : GR) : Decision (uwf gr).
Proof. unfold uwf. apply _. Defined.

(** [g.oppositeArc(a)] of the graph concept, found among the arcs: the
    other arc along the edge of [a]. *)
Definition oppositeArc `{Graph GR} (gr : GR) (a : Arc) : Arc :=
  default a
    (head (filter (λ b, b ≠ a ∧ edge gr b = edge gr a) (arcs gr))).

(** Every node has an even number of incident edges. *)
Definition even_degrees `{Graph GR} (gr : GR) : Prop :=
  ∀ n, n ∈ nodes gr → Nat.Even (countIncEdges gr n).

Section further_vocabulary.
Context {GR : Type} `{Graph GR}.

(** The walk both loops of [EulerIt] perform, cursor step by cursor step:
    at the node [s] the cursor passes an arc whose edge is marked, or the
    walk takes an arc whose edge is not, marking it; the walk stops at the
    node [s'] when the cursor of [s'] is exhausted. *)
Inductive uwalked (gr : GR)
  : gmap Node OutArcIt → gset Edge → Node → list Arc →
    gmap Node OutArcIt → gset Edge → Node → Prop :=
| uwalked_stop nedge visited s :
    nedge !! s = Some [] → uwalked gr nedge visited s [] nedge visited s
| uwalked_skip nedge visited s a c W nedge' visited' s' :
    nedge !! s = Some (a :: c) → edge gr a ∈ visited →
    uwalked gr (<[s := c]> nedge) visited s W nedge' visited' s' →
    uwalked gr nedge visited s W nedge' visited' s'
| uwalked_take nedge visited s a c W nedge' visited' s' :
    nedge !! s = Some (a :: c) → edge gr a ∉ visited →
    uwalked gr (<[s := c]> nedge) ({[edge gr a]} ∪ visited) (target gr a)
            W nedge' visited' s' →
    uwalked gr nedge visited s (a :: W) nedge' visited' s'.

(** The cursors [nedge] and the marks [visited] against the arcs [X] taken
    so far: the cursor of a node is what is left of its out-arcs, the arcs
    it has passed run along marked edges, and the marked edges are the
    edges of the arcs taken, which differ from arc to arc. *)
Record ucursors_inv (gr : GR) (nedge : gmap Node OutArcIt)
    (visited : gset Edge) (X : list Arc) : Prop := {
  uc_suffix : ∀ n, n ∈ nodes gr →
    ∃ u c, nedge !! n = Some c ∧ outArcs gr n = u ++ c ∧
           ∀ a, a ∈ u → edge gr a ∈ visited;
  uc_dom : ∀ n, is_Some (nedge !! n) → n ∈ nodes gr;
  uc_visited : ∀ e, e ∈ visited ↔ e ∈ edge gr <$> X;
  uc_arcs : ∀ a, a ∈ X → a ∈ arcs gr;
  uc_nodup : NoDup (edge gr <$> X);
}.

(** The invariant of an undirected iterator over a graph with even degrees,
    started at [s0]: the arcs emitted and the trail after them form a closed
    trail through [s0], and the cursor of every node the emitted arcs have
    passed is exhausted. *)
Definition u_eul_inv (gr : GR) (s0 : Node) (et : list Arc)
    (it : EulerIt.t GR) : Prop :=
  EulerIt.g it = gr ∧ s0 ∈ nodes gr ∧
  ucursors_inv gr (EulerIt.nedge it) (EulerIt.visited it)
               (et ++ EulerIt.euler it) ∧
  chained gr s0 (et ++ EulerIt.euler it) ∧
  trail_end gr s0 (et ++ EulerIt.euler it) = s0 ∧
  EulerIt.nedge it !! s0 = Some [] ∧
  ∀ a, a ∈ et → EulerIt.nedge it !! target gr a = Some [].

(** The arcs of [X] at the node [v], each as the arc that leaves [v] along
    its edge. *)
Definition incident (gr : GR) (v : Node) (X : list Arc) : list Arc :=
  filter (λ a, source gr a = v) X ++
  (oppositeArc gr <$> filter (λ a, target gr a = v) X).

End further_vocabulary.

(** The undirected figure eight: the triangles 0 - 1 - 2 - 0 and
    0 - 3 - 4 - 0 share node 0. *)
Definition ufig8 : ListGraph :=
  {| lg_nodes := [0; 1; 2; 3; 4];
     lg_edges := [(0, 1); (1, 2); (2, 0); (0, 3); (3, 4); (4, 0)] |}.

(** The node a constructor starts its walk from: the start node it is
    given, or else the first node with an out-arc, if there is one. *)
Definition origin `{Digraph GR} (gr : GR) (start : option Node)
  : option Node :=
  match start with
  | Some s => Some s
  | None => first_with_out_arc gr (nodes gr)
  end.

(** The invariant of every undirected iterator over a graph that meets the
    contract, as [di_inv] is for the directed one. *)
Definition u_gen_inv `{Graph GR} (gr : GR) (et : list Arc)
    (it : EulerIt.t GR) : Prop :=
  EulerIt.g it = gr ∧
  (ucursors_inv gr (EulerIt.nedge it) (EulerIt.visited it)
                (et ++ EulerIt.euler it) ∨
   (et = [] ∧ EulerIt.euler it = [])).

(** The undirected triangle 1 - 2 - 3 - 1 and the node 0, which no edge
    touches. *)
Definition isolated_triangle : ListGraph :=
  {| lg_nodes := [0; 1; 2; 3]; lg_edges := [(1, 2); (2, 3); (3, 1)] |}.

(** The digraph with the cycle 1 → 2 → 1 and the node 0, which no arc
    touches. *)
Definition cycle_isolated : ListDigraph :=
  {| ld_nodes := [0; 1; 2]; ld_arcs := [(1, 2); (2, 1)] |}.

(** The figure eight with the two out-arcs of the shared node in the other
    order: arc 0 is 0 → 3 and arc 3 is 0 → 1, so that at node 0 the arc into
    the triangle 0 → 3 → 4 → 0 (arcs 0, 4, 5) comes before the arc into the
    triangle 0 → 1 → 2 → 0 (arcs 3, 1, 2). *)
Definition fig8_rev : ListDigraph :=
  {| ld_nodes := [0; 1; 2; 3; 4];
     ld_arcs := [(0, 3); (1, 2); (2, 0); (0, 1); (3, 4); (4, 0)] |}.

(** The arcs 3, 1, 2 of [fig8_rev]: the triangle 0 → 1 → 2 → 0. *)
Definition first_triangle_rev (a : Arc) : bool := bool_decide (a ∈ [3; 1; 2]).

(** * Properties *)

(** ** The result monads *)

Lemma result_bind_Ok {A B} (f : A → result B) (r : result A) (b : B) :
  r ≫= f = Ok b ↔ ∃ a, r = Ok a ∧ f a = Ok b.
Proof.
  destruct r as [a| |]; simpl; split; try (intros [? [? ?]]); try done.
  - intros Hf. by exists a.
  - by simplify_eq.
Qed.

(** ** Cursors *)

Lemma cursor_total_insert (nedge : gmap nat (list nat)) s c c' :
  nedge !! s = Some c →
  cursor_total (<[s := c']> nedge) + length c
  = cursor_total nedge + length c'.
Proof.
  intros Hs. unfold cursor_total.
  rewrite <-(insert_delete_id nedge s c Hs) at 2.
  rewrite <-(insert_delete_eq nedge s c').
  rewrite !map_fold_insert_L; try (by rewrite lookup_delete_eq);
    [lia | intros; lia | intros; lia].
Qed.

Lemma cursor_total_pop (nedge : gmap nat (list nat)) s a c :
  nedge !! s = Some (a :: c) →
  S (cursor_total (<[s := c]> nedge)) = cursor_total nedge.
Proof. intros Hs. pose proof (cursor_total_insert _ _ _ c Hs). simpl in *. lia. Qed.

Lemma cursors_closed_insert `{Digraph GR} (gr : GR) nedge s c c' :
  cursors_closed gr nedge → nedge !! s = Some c → c' ⊆ c →
  cursors_closed gr (<[s := c']> nedge).
Proof.
  intros Hcl Hs Hsub n d a Hn Ha.
  assert (is_Some (nedge !! target gr a)) as [e He].
  { destruct (decide (s = n)) as [->|Hne].
    - rewrite lookup_insert_eq in Hn. simplify_eq. eapply Hcl; eauto.
    - rewrite lookup_insert_ne in Hn by done. eapply Hcl; eauto. }
  destruct (decide (s = target gr a)) as [->|Hne].
  - rewrite lookup_insert_eq. eauto.
  - rewrite lookup_insert_ne by done. eauto.
Qed.

Lemma init_nedge_lookup `{Digraph GR} (gr : GR) n :
  init_nedge gr !! n
  = if decide (n ∈ nodes gr) then Some (outArcs gr n) else None.
Proof.
  unfold init_nedge.
  assert (∀ l (m : gmap nat (list nat)),
    foldl (λ m n, <[n := outArcs gr n]> m) m l !! n
    = if decide (n ∈ l) then Some (outArcs gr n) else m !! n) as Hgen.
  { induction l as [|x l IH]; intros m; cbn [foldl].
    - by rewrite decide_False by apply not_elem_of_nil.
    - rewrite IH. destruct (decide (n = x)) as [->|Hne].
      + rewrite lookup_insert_eq.
        rewrite (decide_True (P := x ∈ x :: l)) by apply list_elem_of_here.
        by case_decide.
      + rewrite lookup_insert_ne by done.
        destruct (decide (n ∈ l)) as [Hin|Hin].
        * by rewrite decide_True by by apply list_elem_of_further.
        * rewrite decide_False; [done|].
          intros [?|?]%elem_of_cons; done. }
  rewrite Hgen. by case_decide.
Qed.

Lemma first_with_out_arc_Some `{Digraph GR} (gr : GR) ns s :
  first_with_out_arc gr ns = Some s → s ∈ ns ∧ outArcs gr s ≠ [].
Proof.
  induction ns as [|n ns IH]; simpl; [done|].
  destruct (outArcs gr n) eqn:Hn.
  - intros [? ?]%IH. split; [by apply list_elem_of_further | done].
  - intros [= <-]. split; [apply list_elem_of_here | by rewrite Hn].
Qed.

Lemma first_with_out_arc_None `{Digraph GR} (gr : GR) ns :
  first_with_out_arc gr ns = None ↔ ∀ n, n ∈ ns → outArcs gr n = [].
Proof.
  induction ns as [|n ns IH]; simpl.
  - split; [|done]. intros _ n Hn. by apply not_elem_of_nil in Hn.
  - destruct (outArcs gr n) eqn:Hn.
    + rewrite IH. split.
      * intros Hall m [->|?]%elem_of_cons; auto.
      * intros Hall m Hm. apply Hall. by apply list_elem_of_further.
    + split; [done|]. intros Hall.
      specialize (Hall n (list_elem_of_here _ _)). congruence.
Qed.

(** ** Consequences of the digraph contract *)

Section contract.
Context {GR : Type} `{Digraph GR} (gr : GR).

Lemma elem_of_arcs a :
  a ∈ arcs gr ↔ ∃ n, n ∈ nodes gr ∧ a ∈ outArcs gr n.
Proof.
  unfold arcs. rewrite list_elem_of_bind.
  split; intros (n & ? & ?); by exists n.
Qed.

Lemma wf_out_source n a :
  wf gr → n ∈ nodes gr → a ∈ outArcs gr n → source gr a = n.
Proof.
  intros (_ & _ & Hall) Hn Ha.
  rewrite Forall_forall in Hall. specialize (Hall n Hn).
  rewrite Forall_forall in Hall. by destruct (Hall a Ha).
Qed.

Lemma wf_out_target n a :
  wf gr → n ∈ nodes gr → a ∈ outArcs gr n → target gr a ∈ nodes gr.
Proof.
  intros (_ & _ & Hall) Hn Ha.
  rewrite Forall_forall in Hall. specialize (Hall n Hn).
  rewrite Forall_forall in Hall. by destruct (Hall a Ha).
Qed.

Lemma NoDup_bind_elem (f : nat → list nat) (l : list nat) x :
  NoDup (l ≫= f) → x ∈ l → NoDup (f x).
Proof.
  induction l as [|y l IH]; csimpl; intros Hnd Hx.
  - by apply not_elem_of_nil in Hx.
  - apply NoDup_app in Hnd as (Hy & _ & Hl).
    apply elem_of_cons in Hx as [->|Hx]; auto.
Qed.

Lemma wf_out_NoDup n : wf gr → n ∈ nodes gr → NoDup (outArcs gr n).
Proof. intros (_ & Hnd & _) Hn. by eapply NoDup_bind_elem. Qed.

Lemma wf_arc_source a :
  wf gr → a ∈ arcs gr → source gr a ∈ nodes gr ∧ a ∈ outArcs gr (source gr a).
Proof.
  intros Hwf (n & Hn & Ha)%elem_of_arcs.
  by rewrite (wf_out_source n a).
Qed.

Lemma wf_arc_target a : wf gr → a ∈ arcs gr → target gr a ∈ nodes gr.
Proof. intros Hwf (n & Hn & Ha)%elem_of_arcs. by eapply wf_out_target. Qed.

Lemma wf_closed : wf gr → closed gr.
Proof.
  intros (_ & _ & Hall). unfold closed.
  eapply Forall_impl; [exact Hall|]. intros n Hn.
  eapply Forall_impl; [exact Hn|]. by intros a [_ ?].
Qed.

Lemma closed_out_target n a :
  closed gr → n ∈ nodes gr → a ∈ outArcs gr n → target gr a ∈ nodes gr.
Proof.
  intros Hall Hn Ha. unfold closed in Hall.
  rewrite Forall_forall in Hall. specialize (Hall n Hn).
  rewrite Forall_forall in Hall. by apply Hall.
Qed.

Lemma init_nedge_closed : closed gr → cursors_closed gr (init_nedge gr).
Proof.
  intros Hcl n c a Hn Ha. rewrite init_nedge_lookup in Hn.
  case_decide as Hin; [|done]. simplify_eq.
  rewrite init_nedge_lookup, decide_True; [eauto|].
  by eapply closed_out_target.
Qed.

Lemma init_nedge_inv : wf gr → cursors_inv gr (init_nedge gr) [].
Proof.
  intros Hwf. split.
  - intros n Hn. exists [], (outArcs gr n).
    rewrite init_nedge_lookup, decide_True by done.
    split_and!; [done..|]. intros a Ha. by apply not_elem_of_nil in Ha.
  - intros n [c Hc]. rewrite init_nedge_lookup in Hc. by case_decide.
  - intros n c a _ _. apply not_elem_of_nil.
  - intros a Ha. by apply not_elem_of_nil in Ha.
  - constructor.
Qed.

End contract.

(** ** The walk of the directed iterator *)

Section walk.
Context {GR : Type} `{Digraph GR} (gr : GR).

Lemma ctor_walk_incr_walk fuel nedge euler s :
  DiEulerIt.ctor_walk fuel gr nedge euler s
  = DiEulerIt.incr_walk fuel gr nedge euler [] s.
Proof.
  revert nedge euler s. induction fuel as [|fuel IH]; intros nedge euler s;
    simpl; destruct (nedge !! s) as [[|a c]|]; rewrite ?app_nil_r; auto.
Qed.

Lemma incr_walk_ok fuel nedge before rest s :
  cursors_closed gr nedge → is_Some (nedge !! s) →
  cursor_total nedge ≤ fuel →
  ∃ nedge' W s',
    DiEulerIt.incr_walk fuel gr nedge before rest s
    = Ok (nedge', before ++ W ++ rest) ∧
    walked gr nedge s W nedge' s'.
Proof.
  revert nedge before s.
  induction fuel as [|fuel IH]; intros nedge before s Hcl [c Hs] Hfuel.
  - destruct c as [|a c].
    + exists nedge, [], s. simpl. rewrite Hs. split; [done|by constructor].
    + pose proof (cursor_total_pop _ _ _ _ Hs). lia.
  - destruct c as [|a c].
    + exists nedge, [], s. simpl. rewrite Hs. split; [done|by constructor].
    + destruct (IH (<[s := c]> nedge) (before ++ [a]) (target gr a))
        as (nedge' & W & s' & Hrun & Hw).
      * eapply cursors_closed_insert; [done..|]. set_solver.
      * destruct (Hcl s (a :: c) a Hs) as [d Hd]; [set_solver|].
        destruct (decide (s = target gr a)) as [<-|Hne].
        -- rewrite lookup_insert_eq. eauto.
        -- rewrite lookup_insert_ne by done. eauto.
      * pose proof (cursor_total_pop _ _ _ _ Hs). lia.
      * exists nedge', (a :: W), s'. simpl. rewrite Hs, Hrun.
        split; [by rewrite <-app_assoc | by econstructor].
Qed.

Lemma walked_end nedge s W nedge' s' :
  walked gr nedge s W nedge' s' → nedge' !! s' = Some [].
Proof. induction 1; auto. Qed.

Lemma walked_total nedge s W nedge' s' :
  walked gr nedge s W nedge' s' →
  cursor_total nedge = cursor_total nedge' + length W.
Proof.
  induction 1 as [|nedge s a c W nedge' s' Hs _ IH]; simpl; [lia|].
  pose proof (cursor_total_pop _ _ _ _ Hs). lia.
Qed.

Lemma walked_closed nedge s W nedge' s' :
  walked gr nedge s W nedge' s' →
  cursors_closed gr nedge → cursors_closed gr nedge'.
Proof.
  induction 1 as [|nedge s a c W nedge' s' Hs _ IH]; [done|].
  intros Hcl. apply IH. eapply cursors_closed_insert; [done..|]. set_solver.
Qed.

Lemma walked_dom nedge s W nedge' s' n :
  walked gr nedge s W nedge' s' →
  is_Some (nedge !! n) → is_Some (nedge' !! n).
Proof.
  induction 1 as [|nedge s a c W nedge' s' Hs _ IH]; [done|].
  intros Hn. apply IH. destruct (decide (s = n)) as [->|Hne].
  - rewrite lookup_insert_eq. eauto.
  - by rewrite lookup_insert_ne.
Qed.

Lemma walked_exhausted nedge s W nedge' s' n :
  walked gr nedge s W nedge' s' →
  nedge !! n = Some [] → nedge' !! n = Some [].
Proof.
  induction 1 as [|nedge s a c W nedge' s' Hs _ IH]; [done|].
  intros Hn. apply IH. rewrite lookup_insert_ne; [done|]. congruence.
Qed.

End walk.

(** ** Trails and the counting of their arcs *)

Section trails.
Context {GR : Type} `{Digraph GR} (gr : GR).

Lemma chained_app s l1 l2 :
  chained gr s (l1 ++ l2)
  ↔ chained gr s l1 ∧ chained gr (trail_end gr s l1) l2.
Proof.
  revert s. induction l1 as [|a l1 IH]; intros s; simpl; [tauto|].
  rewrite IH. tauto.
Qed.

Lemma trail_end_app s l1 l2 :
  trail_end gr s (l1 ++ l2) = trail_end gr (trail_end gr s l1) l2.
Proof. revert s. induction l1 as [|a l1 IH]; intros s; simpl; auto. Qed.

Lemma trail_end_last s l a :
  l ≠ [] → trail_end gr s l = target gr (List.last l a).
Proof.
  revert s. induction l as [|b l IH]; intros s Hne; [done|].
  destruct l as [|c l]; [done|].
  change (trail_end gr (target gr b) (c :: l)
          = target gr (List.last (c :: l) a)).
  by apply IH.
Qed.

Lemma chained_source s l a :
  chained gr s l → a ∈ l →
  source gr a = s ∨ ∃ b, b ∈ l ∧ target gr b = source gr a.
Proof.
  revert s. induction l as [|b l IH]; intros s Hch Ha.
  - by apply not_elem_of_nil in Ha.
  - destruct Hch as [Hb Hch]. apply elem_of_cons in Ha as [->|Ha].
    + by left.
    + right. destruct (IH _ Hch Ha) as [Hs|(b' & Hb' & Ht)].
      * exists b. split; [apply list_elem_of_here | done].
      * exists b'. split; [by apply list_elem_of_further | done].
Qed.

Lemma out_count_app v l1 l2 :
  out_count gr v (l1 ++ l2) = out_count gr v l1 + out_count gr v l2.
Proof. unfold out_count. by rewrite filter_app, length_app. Qed.

Lemma in_count_app v l1 l2 :
  in_count gr v (l1 ++ l2) = in_count gr v l1 + in_count gr v l2.
Proof. unfold in_count. by rewrite filter_app, length_app. Qed.

(** Along a trail every node is left as often as it is entered, but for
    the two ends. *)
Lemma chained_balance s l v :
  chained gr s l →
  out_count gr v l + (if decide (v = trail_end gr s l) then 1 else 0)
  = in_count gr v l + (if decide (v = s) then 1 else 0).
Proof.
  revert s. induction l as [|a l IH]; intros s Hch; simpl; [done|].
  destruct Hch as [Ha Hch]. specialize (IH _ Hch).
  unfold out_count, in_count in *. rewrite !filter_cons.
  repeat case_decide; simpl in *; simplify_eq; lia.
Qed.

(** Arcs without repetition that leave (enter) [v] are no more than the
    arcs of any list that holds them all and leave (enter) [v]. *)
Lemma filter_count_le (P : nat → Prop) `{∀ x, Decision (P x)} (l k : list nat) :
  NoDup l → (∀ a, a ∈ l → a ∈ k) →
  length (filter P l) ≤ length (filter P k).
Proof.
  intros Hnd Hsub. apply submseteq_length, NoDup_submseteq.
  - by apply NoDup_filter.
  - intros a [? ?]%list_elem_of_filter. apply list_elem_of_filter. auto.
Qed.

Lemma filter_count_all (P : nat → Prop) `{∀ x, Decision (P x)} (l k : list nat) a :
  NoDup l → (∀ a, a ∈ l → a ∈ k) →
  length (filter P k) ≤ length (filter P l) →
  a ∈ k → P a → a ∈ l.
Proof.
  intros Hnd Hsub Hlen Ha HP.
  assert (filter P l ⊆+ filter P k) as Hsm.
  { apply NoDup_submseteq; [by apply NoDup_filter|].
    intros b [? ?]%list_elem_of_filter. apply list_elem_of_filter. auto. }
  apply submseteq_length_Permutation in Hsm; [|done].
  assert (a ∈ filter P l) as Hin.
  { rewrite Hsm. by apply list_elem_of_filter. }
  by apply list_elem_of_filter in Hin as [_ ?].
Qed.

End trails.

(** ** The cursors and the arcs taken *)

Section cursors.
Context {GR : Type} `{Digraph GR} (gr : GR).

Lemma cursors_inv_perm nedge X X' :
  X ≡ₚ X' → cursors_inv gr nedge X → cursors_inv gr nedge X'.
Proof.
  intros HX [Hsuf Hdom Hfresh Harcs Hnd]. split.
  - intros n Hn. destruct (Hsuf n Hn) as (u & c & ? & ? & Hu).
    exists u, c. split_and!; [done..|]. intros a Ha. rewrite <-HX. auto.
  - done.
  - intros n c a Hn Ha. rewrite <-HX. eauto.
  - intros a Ha. rewrite <-HX in Ha. auto.
  - by rewrite <-HX.
Qed.

Lemma cursors_inv_cursor nedge X n c a :
  cursors_inv gr nedge X → nedge !! n = Some c → a ∈ c →
  n ∈ nodes gr ∧ a ∈ outArcs gr n.
Proof.
  intros [Hsuf Hdom _ _ _] Hn Ha.
  assert (n ∈ nodes gr) as Hin by (apply Hdom; eauto).
  split; [done|]. destruct (Hsuf n Hin) as (u & c' & Hn' & -> & _).
  simplify_eq. apply elem_of_app. by right.
Qed.

Lemma cursors_inv_closed nedge X :
  wf gr → cursors_inv gr nedge X → cursors_closed gr nedge.
Proof.
  intros Hwf Hinv n c a Hn Ha.
  destruct (cursors_inv_cursor _ _ _ _ _ Hinv Hn Ha) as [Hin Hout].
  pose proof (wf_out_target gr n a Hwf Hin Hout) as Ht.
  destruct (ci_suffix _ _ _ Hinv _ Ht) as (u & d & Hd & _). eauto.
Qed.

Lemma cursors_inv_exhausted nedge X n a :
  cursors_inv gr nedge X → n ∈ nodes gr → nedge !! n = Some [] →
  a ∈ outArcs gr n → a ∈ X.
Proof.
  intros Hinv Hin Hn Ha.
  destruct (ci_suffix _ _ _ Hinv _ Hin) as (u & c & Hc & Hout & Hu).
  simplify_eq. rewrite Hout, app_nil_r in Ha. auto.
Qed.

Lemma cursors_inv_step nedge X s a c :
  wf gr → cursors_inv gr nedge X → nedge !! s = Some (a :: c) →
  cursors_inv gr (<[s := c]> nedge) (a :: X).
Proof.
  intros Hwf Hinv Hs.
  destruct (cursors_inv_cursor _ _ _ _ a Hinv Hs) as [Hin Hout];
    [apply list_elem_of_here|].
  destruct (ci_suffix _ _ _ Hinv _ Hin) as (u & c0 & Hc0 & Hsplit & Hu).
  assert (c0 = a :: c) as -> by congruence.
  pose proof (wf_out_NoDup gr s Hwf Hin) as Hnd. rewrite Hsplit in Hnd.
  split.
  - intros n Hn. destruct (decide (s = n)) as [<-|Hne].
    + exists (u ++ [a]), c. rewrite lookup_insert_eq.
      split_and!; [done|by rewrite <-app_assoc|].
      intros b [Hb| ->%list_elem_of_singleton]%elem_of_app;
        [apply list_elem_of_further; auto | apply list_elem_of_here].
    + destruct (ci_suffix _ _ _ Hinv _ Hn) as (u' & c' & ? & ? & Hu').
      exists u', c'. rewrite lookup_insert_ne by done.
      split_and!; [done..|]. intros b Hb. apply list_elem_of_further. auto.
  - intros n Hn. destruct (decide (s = n)) as [<-|Hne]; [done|].
    rewrite lookup_insert_ne in Hn by done. by apply (ci_dom _ _ _ Hinv).
  - intros n d b Hn Hb. destruct (decide (s = n)) as [<-|Hne].
    + rewrite lookup_insert_eq in Hn. simplify_eq.
      apply not_elem_of_cons. split.
      * intros ->. apply NoDup_app in Hnd as (_ & _ & Hac).
        by apply NoDup_cons in Hac as [? _].
      * eapply (ci_fresh _ _ _ Hinv); [done|]. by apply list_elem_of_further.
    + rewrite lookup_insert_ne in Hn by done.
      apply not_elem_of_cons. split.
      * intros ->.
        destruct (cursors_inv_cursor _ _ _ _ _ Hinv Hn Hb) as [Hin' Hout'].
        apply Hne. rewrite <-(wf_out_source gr s a Hwf Hin Hout).
        by apply wf_out_source.
      * by eapply (ci_fresh _ _ _ Hinv).
  - intros b [->|Hb]%elem_of_cons.
    + apply elem_of_arcs. eauto.
    + by apply (ci_arcs _ _ _ Hinv).
  - apply NoDup_cons. split; [|by apply (ci_nodup _ _ _ Hinv)].
    eapply (ci_fresh _ _ _ Hinv); [done|]. apply list_elem_of_here.
Qed.

Lemma walked_inv nedge s W nedge' s' X :
  wf gr → walked gr nedge s W nedge' s' →
  cursors_inv gr nedge X → cursors_inv gr nedge' (W ++ X).
Proof.
  intros Hwf Hw. revert X.
  induction Hw as [|nedge s a c W nedge' s' Hs _ IH]; intros X Hinv; [done|].
  apply (cursors_inv_perm _ (W ++ a :: X)).
  - by rewrite <-Permutation_middle.
  - apply IH. by apply cursors_inv_step.
Qed.

Lemma walked_chained nedge s W nedge' s' X :
  wf gr → walked gr nedge s W nedge' s' → cursors_inv gr nedge X →
  s ∈ nodes gr →
  chained gr s W ∧ trail_end gr s W = s' ∧ s' ∈ nodes gr.
Proof.
  intros Hwf Hw. revert X.
  induction Hw as [|nedge s a c W nedge' s' Hs _ IH]; intros X Hinv Hin;
    [done|].
  destruct (cursors_inv_cursor _ _ _ _ a Hinv Hs) as [_ Hout];
    [apply list_elem_of_here|].
  destruct (IH (a :: X)) as (? & ? & ?).
  - by apply cursors_inv_step.
  - by eapply wf_out_target.
  - simpl. split_and!; [by eapply wf_out_source|done..].
Qed.

Lemma out_count_ge nedge X v :
  wf gr → cursors_inv gr nedge X → v ∈ nodes gr → nedge !! v = Some [] →
  countOutArcs gr v ≤ out_count gr v X.
Proof.
  intros Hwf Hinv Hin Hv. unfold countOutArcs, out_count.
  apply submseteq_length, NoDup_submseteq; [by apply wf_out_NoDup|].
  intros a Ha. apply list_elem_of_filter. split.
  - by eapply wf_out_source.
  - by eapply cursors_inv_exhausted.
Qed.

Lemma in_count_le nedge X v :
  cursors_inv gr nedge X → in_count gr v X ≤ countInArcs gr v.
Proof.
  intros Hinv. unfold countInArcs, in_count, inArcs.
  apply filter_count_le;
    [by apply (ci_nodup _ _ _ Hinv) | by apply (ci_arcs _ _ _ Hinv)].
Qed.

(** In a graph whose nodes have as many in-arcs as out-arcs, once the arcs
    taken so far enter every node as often as they leave it, a walk can
    only get stuck where it started. *)
Lemma walked_returns nedge s W nedge' s' X :
  wf gr → (∀ n, n ∈ nodes gr → countInArcs gr n = countOutArcs gr n) →
  cursors_inv gr nedge X →
  (∀ v, out_count gr v X = in_count gr v X) →
  s ∈ nodes gr → walked gr nedge s W nedge' s' → s' = s.
Proof.
  intros Hwf Hbal Hinv HX Hin Hw.
  destruct (walked_chained _ _ _ _ _ _ Hwf Hw Hinv Hin) as (Hch & Hend & Hin').
  pose proof (walked_inv _ _ _ _ _ _ Hwf Hw Hinv) as Hinv'.
  pose proof (out_count_ge _ _ _ Hwf Hinv' Hin' (walked_end _ _ _ _ _ _ Hw)).
  pose proof (in_count_le _ _ s' Hinv').
  pose proof (chained_balance gr s W s' Hch) as Hb.
  rewrite out_count_app, in_count_app in *.
  specialize (HX s'). specialize (Hbal s' Hin').
  rewrite Hend in Hb. rewrite decide_True in Hb by done.
  case_decide; [done|lia].
Qed.

End cursors.

(** ** The directed iterator *)

Section di_iterator.
Context {GR : Type} `{Digraph GR} (gr : GR).

Lemma di_incr_walked it a rest :
  DiEulerIt.g it = gr → DiEulerIt.euler it = a :: rest →
  cursors_closed gr (DiEulerIt.nedge it) →
  is_Some (DiEulerIt.nedge it !! target gr a) →
  ∃ nedge' W s',
    DiEulerIt.incr it = Ok (tt, DiEulerIt.Build gr nedge' (W ++ rest)) ∧
    walked gr (DiEulerIt.nedge it) (target gr a) W nedge' s'.
Proof.
  intros Hg He Hcl Hs. unfold DiEulerIt.incr. rewrite He, Hg.
  destruct (incr_walk_ok gr (cursor_total (DiEulerIt.nedge it))
              (DiEulerIt.nedge it) [] rest (target gr a) Hcl Hs)
    as (nedge' & W & s' & Hrun & Hw); [done|].
  exists nedge', W, s'. by rewrite Hrun.
Qed.

Lemma di_ctor_walked s :
  closed gr → s ∈ nodes gr →
  ∃ nedge' W s',
    DiEulerIt.ctor gr (Some s) = Ok (DiEulerIt.Build gr nedge' W) ∧
    walked gr (init_nedge gr) s W nedge' s'.
Proof.
  intros Hcl Hs. unfold DiEulerIt.ctor. rewrite ctor_walk_incr_walk.
  destruct (incr_walk_ok gr (cursor_total (init_nedge gr))
              (init_nedge gr) [] [] s) as (nedge' & W & s' & Hrun & Hw).
  - by apply init_nedge_closed.
  - rewrite init_nedge_lookup, decide_True by done. eauto.
  - done.
  - exists nedge', W, s'. rewrite Hrun. simpl. by rewrite app_nil_r.
Qed.

Lemma di_ctor_default :
  DiEulerIt.ctor gr None
  = match first_with_out_arc gr (nodes gr) with
    | Some s => DiEulerIt.ctor gr (Some s)
    | None => Ok (DiEulerIt.Build gr ∅ [])
    end.
Proof. unfold DiEulerIt.ctor. by destruct (first_with_out_arc _ _). Qed.

Lemma di_collect_inv (J : list nat → DiEulerIt.t GR → Prop) :
  (∀ et it a rest, J et it → DiEulerIt.euler it = a :: rest →
     ∃ it', DiEulerIt.incr it = Ok (tt, it') ∧ J (et ++ [a]) it' ∧
            di_measure it' < di_measure it) →
  ∀ fuel et it, di_measure it ≤ fuel → J et it →
    ∃ et' it', DiEulerIt.collect fuel et it = Ok et' ∧ J et' it' ∧
               DiEulerIt.euler it' = [].
Proof.
  intros Hstep. induction fuel as [|fuel IH]; intros et it Hfuel HJ.
  - destruct (DiEulerIt.euler it) as [|a rest] eqn:He.
    + exists et, it. simpl. by rewrite He.
    + unfold di_measure in Hfuel. rewrite He in Hfuel. simpl in Hfuel. lia.
  - destruct (DiEulerIt.euler it) as [|a rest] eqn:He.
    + exists et, it. simpl. by rewrite He.
    + destruct (Hstep et it a rest HJ He) as (it' & Hincr & HJ' & Hlt).
      destruct (IH (et ++ [a]) it') as (et' & it'' & Hrun & ? & ?);
        [lia|done|].
      exists et', it''. simpl. rewrite He, Hincr. simpl. by rewrite Hrun.
Qed.

Lemma di_incr_inv et it a rest :
  wf gr → di_inv gr et it → DiEulerIt.euler it = a :: rest →
  ∃ it', DiEulerIt.incr it = Ok (tt, it') ∧ di_inv gr (et ++ [a]) it' ∧
         di_measure it' < di_measure it.
Proof.
  intros Hwf [Hg [Hinv|[_ Hnil]]] He; [|congruence].
  rewrite He in Hinv.
  assert (a ∈ arcs gr) as Ha.
  { apply (ci_arcs _ _ _ Hinv). set_solver. }
  destruct (ci_suffix _ _ _ Hinv _ (wf_arc_target gr a Hwf Ha))
    as (u & c & Hc & _).
  destruct (di_incr_walked it a rest Hg He) as (nedge' & W & s' & Hincr & Hw);
    [by eapply cursors_inv_closed | eauto |].
  eexists. split; [exact Hincr|]. split.
  - split; [done|]. left. simpl.
    apply (cursors_inv_perm _ _ (W ++ et ++ a :: rest)).
    + rewrite <-!app_assoc. simpl.
      rewrite (Permutation_app_comm W (et ++ a :: rest)), <-!app_assoc.
      simpl. apply Permutation_app_head, perm_skip, Permutation_app_comm.
    + by eapply walked_inv.
  - pose proof (walked_total _ _ _ _ _ _ Hw). unfold di_measure. rewrite He.
    simpl. rewrite length_app. lia.
Qed.

Lemma di_ctor_inv start it :
  wf gr → valid_start gr start → DiEulerIt.ctor gr start = Ok it →
  di_inv gr [] it.
Proof.
  intros Hwf Hstart Hctor.
  assert (∀ s, s ∈ nodes gr → DiEulerIt.ctor gr (Some s) = Ok it →
               di_inv gr [] it) as Hsome.
  { intros s Hs Hrun.
    destruct (di_ctor_walked s (wf_closed gr Hwf) Hs)
      as (nedge' & W & s' & Hrun' & Hw).
    rewrite Hrun in Hrun'. simplify_eq. split; [done|]. left. simpl.
    rewrite <-(app_nil_r W).
    eapply walked_inv; [done..|]. by apply init_nedge_inv. }
  destruct start as [s|]; [by eapply Hsome|].
  rewrite di_ctor_default in Hctor.
  destruct (first_with_out_arc gr (nodes gr)) as [s|] eqn:Hfirst.
  - apply first_with_out_arc_Some in Hfirst as [Hs _]. by eapply Hsome.
  - simplify_eq. split; [done|]. by right.
Qed.

Lemma di_ctor_ok start :
  closed gr → valid_start gr start → ∃ it, DiEulerIt.ctor gr start = Ok it.
Proof.
  intros Hcl Hstart. destruct start as [s|].
  - destruct (di_ctor_walked s Hcl Hstart) as (? & ? & ? & -> & _). eauto.
  - rewrite di_ctor_default.
    destruct (first_with_out_arc gr (nodes gr)) as [s|] eqn:Hfirst; [|eauto].
    apply first_with_out_arc_Some in Hfirst as [Hs _].
    destruct (di_ctor_walked s Hcl Hs) as (? & ? & ? & -> & _). eauto.
Qed.

Lemma di_tour_inv start :
  wf gr → valid_start gr start →
  ∃ et it, DiEulerIt.tour gr start = Ok et ∧ di_inv gr et it ∧
           DiEulerIt.euler it = [].
Proof.
  intros Hwf Hstart.
  destruct (di_ctor_ok start (wf_closed gr Hwf) Hstart) as [it Hctor].
  unfold DiEulerIt.tour. rewrite Hctor. simpl.
  apply (di_collect_inv (di_inv gr)); [|done|by eapply di_ctor_inv].
  intros et it' a rest. by apply di_incr_inv.
Qed.

End di_iterator.

(** ** Connectivity and the Eulerian predicate *)

Section connectivity.
Context {GR : Type} `{Graph GR} (gr : GR).

(** What [reach] adds lies in every set of nodes that holds the nodes it
    started from and is closed under taking an arc. *)
Lemma reach_closed (Q : nat → Prop) rounds seen :
  (∀ v x, Q v → x ∈ outArcs gr v → Q (target gr x)) →
  (∀ v, v ∈ seen → Q v) → ∀ v, v ∈ reach rounds gr seen → Q v.
Proof.
  intros Hstep. revert seen.
  induction rounds as [|rounds IH]; intros seen Hseen v; simpl; [auto|].
  apply IH. intros w [Hw|Hw]%elem_of_app; [auto|].
  apply elem_of_remove_dups, list_elem_of_filter in Hw as [_ Hw].
  apply list_elem_of_bind in Hw as (u & Hw & Hu).
  apply list_elem_of_fmap in Hw as (x & -> & Hx). eauto.
Qed.

Lemma connected_closed_set (Q : nat → Prop) n0 ns :
  connected gr = true → nodes gr = n0 :: ns →
  (∀ v x, Q v → x ∈ outArcs gr v → Q (target gr x)) →
  Q n0 → ∀ v, v ∈ nodes gr → Q v.
Proof.
  unfold connected. intros Hconn Hnodes Hstep Hn0 v Hv.
  rewrite Hnodes in Hconn. rewrite <-Hnodes in Hconn.
  rewrite forallb_forall in Hconn.
  apply list_elem_of_In, Hconn, bool_decide_eq_true in Hv.
  eapply reach_closed; [done| |done].
  by intros w ->%list_elem_of_singleton.
Qed.

End connectivity.

Lemma Even_mod n : Nat.Even n ↔ n `mod` 2 = 0.
Proof. symmetry. apply Nat.Div0.mod_divides. Qed.

Lemma undirected_eulerian_iff `{Graph GR} (gr : GR) :
  Undirected.eulerian gr = true
  ↔ (∀ n, n ∈ nodes gr → Nat.Even (countIncEdges gr n)) ∧ connected gr = true.
Proof.
  unfold Undirected.eulerian.
  induction (nodes gr) as [|n ns IH]; cbn [Undirected.eulerian_from].
  - split; [|by intros [_ ?]]. intros Hc. split; [|done].
    intros n Hn. by apply not_elem_of_nil in Hn.
  - case_decide as Hodd.
    + split; [done|]. intros [Hall _]. exfalso. apply Hodd.
      specialize (Hall n (list_elem_of_here _ _)).
      by apply Even_mod in Hall.
    + rewrite IH.
      split; intros [Hall Hc]; (split; [|done]).
      * intros m [->|Hm]%elem_of_cons; [|auto].
        by apply Even_mod.
      * intros m Hm. apply Hall. by apply list_elem_of_further.
Qed.

Lemma directed_eulerian_iff `{Digraph GR} (gr : GR) :
  Directed.eulerian gr = true
  ↔ balanced gr ∧ connected (undirector gr) = true.
Proof.
  unfold Directed.eulerian, balanced.
  induction (nodes gr) as [|n ns IH]; cbn [Directed.eulerian_from].
  - split; [|by intros [_ ?]]. intros Hc. split; [|done].
    intros n Hn. by apply not_elem_of_nil in Hn.
  - case_decide as Hne.
    + split; [done|]. intros [Hall _]. exfalso. apply Hne, Hall.
      apply list_elem_of_here.
    + rewrite IH.
      split; intros [Hall Hc]; (split; [|done]).
      * intros m [->|Hm]%elem_of_cons; auto.
      * intros m Hm. apply Hall. by apply list_elem_of_further.
Qed.

(** ** The arcs of [Undirector] *)

Section undirector.
Context {GR : Type} `{Digraph GR} (gr : GR).

Lemma undirector_outArcs n :
  outArcs (undirector gr) n
  = ((λ a, 2 * a + 1) <$> outArcs gr n) ++ ((λ a, 2 * a) <$> inArcs gr n).
Proof. reflexivity. Qed.

Lemma undirector_target_along a :
  target (undirector gr) (2 * a + 1) = target gr a.
Proof.
  change (target (undirector gr) (2 * a + 1))
    with (if Nat.odd (2 * a + 1) then target gr ((2 * a + 1) `div` 2)
          else source gr ((2 * a + 1) `div` 2)).
  rewrite Nat.odd_odd. f_equal.
  symmetry. apply (Nat.div_unique _ 2 a 1); lia.
Qed.

Lemma undirector_target_against a :
  target (undirector gr) (2 * a) = source gr a.
Proof.
  change (target (undirector gr) (2 * a))
    with (if Nat.odd (2 * a) then target gr ((2 * a) `div` 2)
          else source gr ((2 * a) `div` 2)).
  rewrite Nat.odd_even. f_equal.
  symmetry. apply (Nat.div_unique _ 2 a 0); lia.
Qed.

End undirector.

(** ** What [connected] decides *)

Lemma connected_no_nodes `{Graph GR} (gr : GR) :
  nodes gr = [] → connected gr = true.
Proof. intros Hn. unfold connected. by rewrite Hn. Qed.

Lemma connected_one_node `{Graph GR} (gr : GR) n :
  nodes gr = [n] → connected gr = true.
Proof.
  intros Hn. unfold connected. rewrite Hn. simpl.
  rewrite bool_decide_eq_true_2; [done|]. apply list_elem_of_here.
Qed.

Section connected_paths.
Context {GR : Type} `{Graph GR} (gr : GR).

Lemma reach_seen rounds seen v : v ∈ seen → v ∈ reach rounds gr seen.
Proof.
  revert seen. induction rounds as [|rounds IH]; intros seen Hv; [done|].
  simpl. apply IH, elem_of_app. by left.
Qed.

Lemma reach_fixed rounds seen :
  remove_dups (filter (λ n, n ∉ seen) (seen ≫= neighbours gr)) = [] →
  reach rounds gr seen = seen.
Proof.
  intros Hnew. induction rounds as [|rounds IH]; [done|].
  simpl. by rewrite Hnew, app_nil_r.
Qed.

(** After as many rounds as there are nodes, nothing is left to add. *)
Lemma reach_saturated rounds seen v w :
  closed gr → NoDup seen → (∀ n, n ∈ seen → n ∈ nodes gr) →
  length (nodes gr) ≤ rounds + length seen →
  v ∈ reach rounds gr seen → adjacent gr v w → w ∈ reach rounds gr seen.
Proof.
  intros Hcl. revert seen.
  induction rounds as [|rounds IH]; intros seen Hnd Hsub Hlen Hv (a & Ha & Hw).
  - simpl in *.
    assert (seen ≡ₚ nodes gr) as Hperm.
    { apply submseteq_length_Permutation; [by apply NoDup_submseteq | lia]. }
    rewrite Hperm in Hv |- *. rewrite <-Hw. by eapply closed_out_target.
  - simpl in *.
    set (new := remove_dups (filter (λ n, n ∉ seen) (seen ≫= neighbours gr)))
      in *.
    assert (∀ n, n ∈ new → (n ∉ seen) ∧ n ∈ nodes gr) as Hnew.
    { intros n Hn.
      apply elem_of_remove_dups, list_elem_of_filter in Hn as [Hn Hin].
      split; [done|].
      apply list_elem_of_bind in Hin as (u & Hin & Hu).
      apply list_elem_of_fmap in Hin as (x & -> & Hx).
      eapply closed_out_target; eauto. }
    destruct new as [|n new'] eqn:Hnew_eq.
    + rewrite app_nil_r in *.
      rewrite (reach_fixed rounds seen Hnew_eq) in Hv |- *.
      destruct (decide (w ∈ seen)) as [|Hnot]; [done|]. exfalso.
      assert (w ∈ remove_dups
                    (filter (λ n, n ∉ seen) (seen ≫= neighbours gr))) as Hin.
      { apply elem_of_remove_dups, list_elem_of_filter. split; [done|].
        apply list_elem_of_bind. exists v. split; [|done].
        apply list_elem_of_fmap. eauto. }
      fold new in Hin. rewrite Hnew_eq in Hin. by apply not_elem_of_nil in Hin.
    + apply (IH (seen ++ n :: new')); [| | |done|by exists a].
      * apply NoDup_app. split_and!; [done| |].
        -- intros x Hx Hx'. by destruct (Hnew x Hx').
        -- rewrite <-Hnew_eq. apply NoDup_remove_dups.
      * intros x [Hx|Hx]%elem_of_app; [auto|]. by destruct (Hnew x Hx).
      * rewrite length_app. simpl. lia.
Qed.

(** [connected] returns true exactly when every node can be reached from
    the first one. *)
Lemma connected_reachable n0 ns :
  closed gr → nodes gr = n0 :: ns →
  (connected gr = true ↔ ∀ v, v ∈ nodes gr → rtc (adjacent gr) n0 v).
Proof.
  intros Hcl Hnodes.
  assert (n0 ∈ nodes gr) as Hn0 by (rewrite Hnodes; apply list_elem_of_here).
  split.
  - intros Hconn. apply (connected_closed_set gr _ n0 ns Hconn Hnodes); [|done].
    intros v x Hv Hx. eapply rtc_r; [done|]. by exists x.
  - intros Hall. unfold connected. rewrite Hnodes, <-Hnodes.
    apply forallb_forall. intros v Hv%list_elem_of_In.
    apply bool_decide_eq_true. specialize (Hall v Hv). clear Hv.
    revert v Hall.
    refine (rtc_ind_r (λ v, v ∈ reach (length (nodes gr)) gr [n0]) n0 _ _).
    + apply reach_seen, list_elem_of_here.
    + intros u w _ Huw IH.
      eapply reach_saturated; [done|apply NoDup_singleton| |simpl; lia|done..].
      by intros n ->%list_elem_of_singleton.
Qed.

Lemma rtc_adjacent_nodes u v :
  closed gr → u ∈ nodes gr → rtc (adjacent gr) u v → v ∈ nodes gr.
Proof.
  intros Hcl Hu Hrtc. induction Hrtc as [|u w v (a & Ha & <-) _ IH]; [done|].
  apply IH. by eapply closed_out_target.
Qed.

Lemma rtc_adjacent_sym u v :
  closed gr → symmetric gr → u ∈ nodes gr →
  rtc (adjacent gr) u v → rtc (adjacent gr) v u.
Proof.
  intros Hcl Hsym Hu Hrtc.
  induction Hrtc as [|u w v Huw _ IH]; [done|].
  eapply rtc_r; [|by apply Hsym]. apply IH.
  destruct Huw as (a & Ha & <-). by eapply closed_out_target.
Qed.

(** On undirected graphs [connected] decides whether any two nodes are
    joined by a path. *)
Lemma connected_path_connected :
  closed gr → symmetric gr → (connected gr = true ↔ path_connected gr).
Proof.
  intros Hcl Hsym. destruct (nodes gr) as [|n0 ns] eqn:Hnodes.
  - split; [|by intros; apply connected_no_nodes].
    intros _ u v Hu. rewrite Hnodes in Hu. by apply not_elem_of_nil in Hu.
  - assert (n0 ∈ nodes gr) as Hn0 by (rewrite Hnodes; apply list_elem_of_here).
    rewrite (connected_reachable n0 ns Hcl Hnodes). split.
    + intros Hall u v Hu Hv. rewrite Hnodes in Hall.
      etrans; [|by apply Hall; rewrite <-Hnodes].
      apply rtc_adjacent_sym; [done..|]. apply Hall. by rewrite <-Hnodes.
    + intros Hpath v Hv. by apply Hpath.
Qed.

End connected_paths.

(** [Undirector] of a digraph is such an undirected graph. *)
Lemma undirector_closed `{Digraph GR} (gr : GR) :
  wf gr → closed (undirector gr).
Proof.
  intros Hwf. unfold closed. apply Forall_forall. intros n Hn.
  apply Forall_forall. intros x. rewrite undirector_outArcs.
  intros [Hx|Hx]%elem_of_app; apply list_elem_of_fmap in Hx as (a & -> & Ha).
  - rewrite undirector_target_along. change (target gr a ∈ nodes gr).
    by eapply wf_out_target.
  - rewrite undirector_target_against. change (source gr a ∈ nodes gr).
    apply list_elem_of_filter in Ha as [_ Ha]. by apply wf_arc_source.
Qed.

Lemma undirector_symmetric `{Digraph GR} (gr : GR) :
  wf gr → symmetric (undirector gr).
Proof.
  intros Hwf u v Hu (x & Hx & <-). revert Hx. rewrite undirector_outArcs.
  intros [Hx|Hx]%elem_of_app; apply list_elem_of_fmap in Hx as (a & -> & Ha).
  - rewrite undirector_target_along. exists (2 * a).
    rewrite undirector_target_against, undirector_outArcs. split.
    + apply elem_of_app. right. apply list_elem_of_fmap. exists a.
      split; [done|]. apply list_elem_of_filter. split; [done|].
      apply elem_of_arcs. eauto.
    + by eapply wf_out_source.
  - rewrite undirector_target_against. exists (2 * a + 1).
    apply list_elem_of_filter in Ha as [Hta Ha].
    rewrite undirector_target_along, undirector_outArcs. split; [|done].
    apply elem_of_app. left. apply list_elem_of_fmap. exists a.
    split; [done|]. by apply wf_arc_source.
Qed.

Lemma undirector_connected `{Digraph GR} (gr : GR) :
  wf gr →
  (connected (undirector gr) = true ↔ path_connected (undirector gr)).
Proof.
  intros Hwf. apply connected_path_connected;
    [by apply undirector_closed | by apply undirector_symmetric].
Qed.


(** ** The directed iterator over an Eulerian digraph *)

Section eulerian_tour.
Context {GR : Type} `{Digraph GR} (gr : GR).
Hypothesis Hwf : wf gr.
Hypothesis Hbal : balanced gr.

Lemma closed_trail_balance s0 X v :
  chained gr s0 X → trail_end gr s0 X = s0 →
  out_count gr v X = in_count gr v X.
Proof.
  intros Hch Hend. pose proof (chained_balance gr s0 X v Hch) as Hb.
  rewrite Hend in Hb. case_decide; lia.
Qed.

Lemma eul_ctor_inv s it :
  s ∈ nodes gr → DiEulerIt.ctor gr (Some s) = Ok it → eul_inv gr s [] it.
Proof.
  intros Hs Hctor.
  destruct (di_ctor_walked gr s (wf_closed gr Hwf) Hs)
    as (nedge' & W & s' & Hrun & Hw).
  rewrite Hctor in Hrun. simplify_eq.
  pose proof (init_nedge_inv gr Hwf) as Hinit.
  assert (s' = s) as ->.
  { eapply walked_returns; [done..| |done|done]. done. }
  destruct (walked_chained _ _ _ _ _ _ _ Hwf Hw Hinit Hs) as (Hch & Hend & _).
  pose proof (walked_inv _ _ _ _ _ _ _ Hwf Hw Hinit) as Hinv.
  rewrite app_nil_r in Hinv.
  split_and!; simpl; try done.
  - by eapply walked_end.
  - intros a Ha. by apply not_elem_of_nil in Ha.
Qed.

Lemma eul_incr_inv s0 et it a rest :
  eul_inv gr s0 et it → DiEulerIt.euler it = a :: rest →
  ∃ it', DiEulerIt.incr it = Ok (tt, it') ∧ eul_inv gr s0 (et ++ [a]) it' ∧
         di_measure it' < di_measure it.
Proof.
  intros (Hg & Hs0 & Hinv & Hch & Hend & Hex0 & Hex) He.
  rewrite He in Hinv, Hch, Hend.
  assert (a ∈ arcs gr) as Ha.
  { apply (ci_arcs _ _ _ Hinv). set_solver. }
  pose proof (wf_arc_target gr a Hwf Ha) as Hta.
  destruct (ci_suffix _ _ _ Hinv _ Hta) as (u & c & Hc & _).
  destruct (di_incr_walked gr it a rest Hg He)
    as (nedge' & W & s' & Hincr & Hw);
    [by eapply cursors_inv_closed | eauto |].
  assert (s' = target gr a) as ->.
  { eapply walked_returns; [done..| |done|done].
    intros v. by eapply closed_trail_balance. }
  destruct (walked_chained _ _ _ _ _ _ _ Hwf Hw Hinv Hta) as (HchW & HendW & _).
  apply chained_app in Hch as [Hch1 [Hsa Hch2]].
  rewrite trail_end_app in Hend. simpl in Hend.
  eexists. split; [exact Hincr|]. split.
  - split_and!; simpl; try done.
    + apply (cursors_inv_perm _ _ (W ++ et ++ a :: rest)).
      * rewrite <-!app_assoc. simpl.
        rewrite (Permutation_app_comm W (et ++ a :: rest)), <-!app_assoc.
        simpl. apply Permutation_app_head, perm_skip, Permutation_app_comm.
      * by eapply walked_inv.
    + rewrite <-app_assoc. apply chained_app. split; [done|].
      simpl. split; [done|]. apply chained_app. by rewrite HendW.
    + rewrite <-app_assoc, trail_end_app. simpl.
      by rewrite trail_end_app, HendW.
    + by eapply walked_exhausted.
    + intros b [Hb| ->%list_elem_of_singleton]%elem_of_app.
      * eapply walked_exhausted; eauto.
      * by eapply walked_end.
  - pose proof (walked_total _ _ _ _ _ _ Hw). unfold di_measure. rewrite He.
    simpl. rewrite length_app. lia.
Qed.

Lemma eul_tour_inv s :
  s ∈ nodes gr →
  ∃ et it, DiEulerIt.tour gr (Some s) = Ok et ∧ eul_inv gr s et it ∧
           DiEulerIt.euler it = [].
Proof.
  intros Hs.
  destruct (di_ctor_ok gr (Some s) (wf_closed gr Hwf) Hs) as [it Hctor].
  unfold DiEulerIt.tour. rewrite Hctor. simpl.
  apply (di_collect_inv (eul_inv gr s)); [|done|by eapply eul_ctor_inv].
  intros et it' a rest. by apply eul_incr_inv.
Qed.

(** Once the trail is empty the emitted arcs are a closed trail, and no
    arc of the graph touches it without being on it. *)
Section exhausted.
Context (s0 : nat) (et : list nat) (it : DiEulerIt.t GR).
Hypothesis Hinv : eul_inv gr s0 et it.
Hypothesis Hnil : DiEulerIt.euler it = [].

Lemma on_trail_exhausted v :
  on_trail gr s0 et v → v ∈ nodes gr ∧ DiEulerIt.nedge it !! v = Some [].
Proof.
  destruct Hinv as (Hg & Hs0 & Hci & Hch & Hend & Hex0 & Hex).
  rewrite Hnil, app_nil_r in Hci.
  intros [->|(a & Ha & <-)]; [done|]. split; [|auto].
  by apply wf_arc_target, (ci_arcs _ _ _ Hci).
Qed.

Lemma on_trail_out v a :
  on_trail gr s0 et v → a ∈ outArcs gr v → a ∈ et.
Proof.
  intros Hv Ha. destruct (on_trail_exhausted v Hv) as [Hin Hex].
  destruct Hinv as (_ & _ & Hci & _).
  rewrite Hnil, app_nil_r in Hci. by eapply cursors_inv_exhausted.
Qed.

Lemma on_trail_in v a :
  on_trail gr s0 et v → a ∈ arcs gr → target gr a = v → a ∈ et.
Proof.
  intros Hv Ha Hta. destruct (on_trail_exhausted v Hv) as [Hin Hex].
  destruct Hinv as (_ & _ & Hci & Hch & Hend & _).
  rewrite Hnil, app_nil_r in Hci, Hch, Hend.
  apply (filter_count_all (λ b, target gr b = v) et (arcs gr));
    [by apply (ci_nodup _ _ _ Hci) | by apply (ci_arcs _ _ _ Hci)
    | | done | done].
  pose proof (out_count_ge gr _ _ v Hwf Hci Hin Hex) as Hout.
  rewrite (closed_trail_balance s0 et v Hch Hend) in Hout.
  rewrite <-(Hbal v Hin) in Hout. exact Hout.
Qed.

Lemma on_trail_ends a :
  a ∈ et → on_trail gr s0 et (source gr a) ∧ on_trail gr s0 et (target gr a).
Proof.
  intros Ha. split; [|right; eauto].
  destruct Hinv as (_ & _ & _ & Hch & _). rewrite Hnil, app_nil_r in Hch.
  destruct (chained_source gr s0 et a Hch Ha) as [->|(b & Hb & Hs)];
    [by left | right; eauto].
Qed.

Lemma on_trail_undirected v x :
  v ∈ nodes gr → x ∈ outArcs (undirector gr) v →
  target (undirector gr) x ∈ nodes gr ∧
  (on_trail gr s0 et v ↔ on_trail gr s0 et (target (undirector gr) x)).
Proof.
  rewrite undirector_outArcs.
  intros Hv [Hx|Hx]%elem_of_app;
    apply list_elem_of_fmap in Hx as (a & -> & Ha).
  - rewrite undirector_target_along.
    pose proof (wf_out_source gr v a Hwf Hv Ha) as Hsa.
    split; [by eapply wf_out_target|]. split.
    + intros Hon. by eapply on_trail_ends, on_trail_out.
    + intros Hon. rewrite <-Hsa.
      eapply on_trail_ends, on_trail_in; [done| |done].
      apply elem_of_arcs. eauto.
  - rewrite undirector_target_against.
    apply list_elem_of_filter in Ha as [Hta Ha].
    destruct (wf_arc_source gr a Hwf Ha) as [Hsn Hout].
    split; [done|]. split.
    + intros Hon. by eapply on_trail_ends, on_trail_in.
    + intros Hon. rewrite <-Hta. by eapply on_trail_ends, on_trail_out.
Qed.

Lemma exhausted_tour_complete :
  connected (undirector gr) = true → et ≡ₚ arcs gr.
Proof.
  intros Hconn.
  pose proof Hinv as (_ & Hs0 & Hci & _).
  rewrite Hnil, app_nil_r in Hci.
  destruct (nodes gr) as [|n0 ns] eqn:Hnodes;
    [by apply not_elem_of_nil in Hs0|].
  assert (∀ v, v ∈ nodes gr →
            v ∈ nodes gr ∧ (on_trail gr s0 et v ↔ on_trail gr s0 et n0))
    as Hall.
  { apply (connected_closed_set (undirector gr) _ n0 ns Hconn Hnodes).
    - intros v x [Hv Hiff] Hx.
      destruct (on_trail_undirected v x Hv Hx) as [? Hiff'].
      split; [done|]. by rewrite <-Hiff'.
    - split; [|done]. rewrite Hnodes. apply list_elem_of_here. }
  rewrite <-Hnodes in Hs0.
  assert (on_trail gr s0 et n0) as Hn0.
  { apply (Hall s0 Hs0). by left. }
  apply NoDup_Permutation;
    [by apply (ci_nodup _ _ _ Hci) | by destruct Hwf as (_ & ? & _) |].
  intros a. split; [by apply (ci_arcs _ _ _ Hci)|].
  intros (n & Hn & Ha)%elem_of_arcs.
  eapply on_trail_out; [|done]. by apply (Hall n Hn).
Qed.

Lemma exhausted_tour_closed : closed_tour gr et.
Proof.
  destruct Hinv as (_ & _ & _ & Hch & Hend & _).
  rewrite Hnil, app_nil_r in Hch, Hend.
  unfold closed_tour. destruct et as [|a l] eqn:Het; [done|].
  rewrite <-(trail_end_last gr s0) by done. rewrite Hend.
  by destruct Hch as [-> _].
Qed.

End exhausted.

End eulerian_tour.

(** ** The undirected iterator *)

Section u_iterator.
Context {GR : Type} `{Graph GR} (gr : GR).

Lemma skip_visited_suffix visited c :
  EulerIt.skip_visited gr visited c `suffix_of` c.
Proof.
  induction c as [|a c IH]; simpl; [done|].
  case_decide; [by apply suffix_cons_r | done].
Qed.

Lemma skip_visited_head visited c a c' :
  EulerIt.skip_visited gr visited c = a :: c' → edge gr a ∉ visited.
Proof.
  induction c as [|b c IH]; simpl; [done|].
  case_decide; [done|]. by intros [= -> ->].
Qed.

Lemma cursor_total_suffix (nedge : gmap nat (list nat)) s c c' :
  nedge !! s = Some c → c' `suffix_of` c →
  cursor_total (<[s := c']> nedge) ≤ cursor_total nedge.
Proof.
  intros Hs Hsuf. pose proof (cursor_total_insert _ _ _ c' Hs).
  apply suffix_length in Hsuf. lia.
Qed.

Lemma insert_dom (nedge : gmap nat (list nat)) s c c' n :
  nedge !! s = Some c → is_Some (nedge !! n) →
  is_Some (<[s := c']> nedge !! n).
Proof.
  intros Hs Hn. destruct (decide (s = n)) as [->|Hne].
  - rewrite lookup_insert_eq. eauto.
  - by rewrite lookup_insert_ne.
Qed.

Lemma suffix_subseteq (c' c : list nat) : c' `suffix_of` c → c' ⊆ c.
Proof. intros [k ->] a Ha. apply elem_of_app. by right. Qed.

Lemma taken_closed nedge visited s W nedge' visited' :
  taken gr nedge visited s W nedge' visited' →
  cursors_closed gr nedge → cursors_closed gr nedge'.
Proof.
  induction 1 as [|nedge visited s c c' W nedge' visited' Hs Hsuf _ IH
                  |nedge visited s a c W nedge' visited' Hs _ _ IH];
    [done|..]; intros Hcl; apply IH.
  - eapply cursors_closed_insert; [done..|]. by apply suffix_subseteq.
  - eapply cursors_closed_insert; [done..|]. set_solver.
Qed.

Lemma taken_dom nedge visited s W nedge' visited' n :
  taken gr nedge visited s W nedge' visited' →
  is_Some (nedge !! n) → is_Some (nedge' !! n).
Proof.
  induction 1; [done|..]; intros Hn; eauto using insert_dom.
Qed.

Lemma taken_total nedge visited s W nedge' visited' :
  taken gr nedge visited s W nedge' visited' →
  cursor_total nedge' + length W ≤ cursor_total nedge.
Proof.
  induction 1 as [|nedge visited s c c' W nedge' visited' Hs Hsuf _ IH
                  |nedge visited s a c W nedge' visited' Hs _ _ IH];
    simpl; [lia|..].
  - pose proof (cursor_total_suffix _ _ _ _ Hs Hsuf). lia.
  - pose proof (cursor_total_pop _ _ _ _ Hs). lia.
Qed.

Lemma taken_targets nedge visited s W nedge' visited' a :
  taken gr nedge visited s W nedge' visited' →
  cursors_closed gr nedge → a ∈ W → is_Some (nedge' !! target gr a).
Proof.
  induction 1 as [|nedge visited s c c' W nedge' visited' Hs Hsuf _ IH
                  |nedge visited s b c W nedge' visited' Hs _ Hw IH];
    intros Hcl Ha.
  - by apply not_elem_of_nil in Ha.
  - apply IH; [|done].
    eapply cursors_closed_insert; [done..|]. by apply suffix_subseteq.
  - apply elem_of_cons in Ha as [->|Ha].
    + eapply taken_dom; [done|]. eapply insert_dom; [done|].
      eapply Hcl; [done|]. apply list_elem_of_here.
    + apply IH; [|done].
      eapply cursors_closed_insert; [done..|]. set_solver.
Qed.

Lemma taken_edges nedge visited s W nedge' visited' T :
  taken gr nedge visited s W nedge' visited' →
  NoDup (edge gr <$> T) → (∀ a, a ∈ T → edge gr a ∈ visited) →
  NoDup (edge gr <$> (W ++ T)) ∧ (∀ a, a ∈ W ++ T → edge gr a ∈ visited').
Proof.
  intros Hw. revert T.
  induction Hw as [|nedge visited s c c' W nedge' visited' Hs Hsuf _ IH
                   |nedge visited s b c W nedge' visited' Hs Hb _ IH];
    intros T Hnd Hvis; [done|by apply IH|].
  destruct (IH (b :: T)) as [Hnd' Hvis'].
  - rewrite fmap_cons. apply NoDup_cons. split; [|done].
    intros (a & Hab & Ha)%list_elem_of_fmap. apply Hb. rewrite Hab. auto.
  - intros a [->|Ha]%elem_of_cons.
    + apply elem_of_union_l. by apply elem_of_singleton.
    + apply elem_of_union_r. auto.
  - split.
    + revert Hnd'. rewrite !fmap_app, !fmap_cons, <-!Permutation_middle.
      done.
    + intros a Ha. apply Hvis'. rewrite <-Permutation_middle. done.
Qed.

Lemma u_incr_walk_ok fuel nedge visited before rest s :
  cursors_closed gr nedge → is_Some (nedge !! s) →
  cursor_total nedge ≤ fuel →
  ∃ nedge' visited' W,
    EulerIt.incr_walk fuel gr nedge visited before rest s
    = Ok (nedge', visited', before ++ W ++ rest) ∧
    taken gr nedge visited s W nedge' visited'.
Proof.
  revert nedge visited before s.
  induction fuel as [|fuel IH]; intros nedge visited before s Hcl [c Hs] Hfuel;
    cbn [EulerIt.incr_walk]; rewrite Hs; destruct c as [|b c].
  - exists nedge, visited, []. split; [done|constructor].
  - pose proof (cursor_total_pop _ _ _ _ Hs). lia.
  - exists nedge, visited, []. split; [done|constructor].
  - destruct (EulerIt.skip_visited gr visited (b :: c)) as [|a c'] eqn:Hskip.
    + exists (<[s := []]> nedge), visited, []. split; [done|].
      eapply taken_skip; [done| |constructor]. apply suffix_nil.
    + pose proof (skip_visited_suffix visited (b :: c)) as Hsuf.
      rewrite Hskip in Hsuf.
      assert (a ∈ b :: c) as Hab.
      { eapply suffix_subseteq; [done|]. apply list_elem_of_here. }
      destruct (IH (<[s := c']> nedge) ({[edge gr a]} ∪ visited)
                  (before ++ [a]) (target gr a))
        as (nedge' & visited' & W & Hrun & Hw).
      * eapply cursors_closed_insert; [done..|].
        intros x Hx. eapply suffix_subseteq; [done|].
        by apply list_elem_of_further.
      * eapply insert_dom; [done|]. by eapply Hcl.
      * pose proof (cursor_total_insert _ _ _ c' Hs) as Htot.
        apply suffix_length in Hsuf. simpl in *. lia.
      * exists nedge', visited', (a :: W). rewrite Hrun.
        split; [by rewrite <-app_assoc|].
        eapply taken_skip; [done..|].
        eapply taken_arc;
          [apply lookup_insert_eq | by eapply skip_visited_head |].
        by rewrite insert_insert_eq.
Qed.

Lemma u_ctor_walk_ok fuel nedge visited euler s :
  cursors_closed gr nedge → is_Some (nedge !! s) →
  cursor_total nedge ≤ fuel →
  (∀ a c, nedge !! s = Some (a :: c) → edge gr a ∉ visited) →
  ∃ nedge' visited' W,
    EulerIt.ctor_walk fuel gr nedge visited euler s
    = Ok (nedge', visited', euler ++ W) ∧
    taken gr nedge visited s W nedge' visited'.
Proof.
  revert nedge visited euler s.
  induction fuel as [|fuel IH];
    intros nedge visited euler s Hcl [c Hs] Hfuel Hhead;
    cbn [EulerIt.ctor_walk]; rewrite Hs; destruct c as [|a c].
  - exists nedge, visited, []. rewrite app_nil_r. split; [done|constructor].
  - pose proof (cursor_total_pop _ _ _ _ Hs). lia.
  - exists nedge, visited, []. rewrite app_nil_r. split; [done|constructor].
  - assert (is_Some (<[s := c]> nedge !! target gr a)) as [c' Hc'].
    { eapply insert_dom; [done|]. eapply Hcl; [done|].
      apply list_elem_of_here. }
    rewrite Hc'.
    pose proof (skip_visited_suffix ({[edge gr a]} ∪ visited) c') as Hsuf.
    assert (cursors_closed gr (<[s := c]> nedge)) as Hcl'.
    { eapply cursors_closed_insert; [done..|]. set_solver. }
    destruct (IH (<[target gr a :=
                    EulerIt.skip_visited gr ({[edge gr a]} ∪ visited) c']>
                    (<[s := c]> nedge))
                ({[edge gr a]} ∪ visited) (euler ++ [a]) (target gr a))
      as (nedge' & visited' & W & Hrun & Hw).
    + eapply cursors_closed_insert; [done..|]. by apply suffix_subseteq.
    + rewrite lookup_insert_eq. eauto.
    + pose proof (cursor_total_pop _ _ _ _ Hs).
      pose proof (cursor_total_suffix _ _ _ _ Hc' Hsuf). lia.
    + intros b d. rewrite lookup_insert_eq. intros [= Hskip].
      by eapply skip_visited_head.
    + exists nedge', visited', (a :: W). rewrite Hrun.
      split; [by rewrite <-app_assoc|].
      eapply taken_arc; [done|by eapply Hhead|].
      by eapply taken_skip.
Qed.

End u_iterator.

Section u_invariant.
Context {GR : Type} `{Graph GR} (gr : GR).

Lemma u_collect_inv (J : list nat → EulerIt.t GR → Prop) :
  (∀ et it a rest, J et it → EulerIt.euler it = a :: rest →
     ∃ it', EulerIt.incr it = Ok (tt, it') ∧ J (et ++ [a]) it' ∧
            u_measure it' < u_measure it) →
  ∀ fuel et it, u_measure it ≤ fuel → J et it →
    ∃ et' it', EulerIt.collect fuel et it = Ok et' ∧ J et' it' ∧
               EulerIt.euler it' = [].
Proof.
  intros Hstep. induction fuel as [|fuel IH]; intros et it Hfuel HJ.
  - destruct (EulerIt.euler it) as [|a rest] eqn:He.
    + exists et, it. simpl. by rewrite He.
    + unfold u_measure in Hfuel. rewrite He in Hfuel. simpl in Hfuel. lia.
  - destruct (EulerIt.euler it) as [|a rest] eqn:He.
    + exists et, it. simpl. by rewrite He.
    + destruct (Hstep et it a rest HJ He) as (it' & Hincr & HJ' & Hlt).
      destruct (IH (et ++ [a]) it') as (et' & it'' & Hrun & ? & ?);
        [lia|done|].
      exists et', it''. simpl. rewrite He, Hincr. simpl. by rewrite Hrun.
Qed.

Lemma u_incr_inv et it a rest :
  u_inv gr et it → EulerIt.euler it = a :: rest →
  ∃ it', EulerIt.incr it = Ok (tt, it') ∧ u_inv gr (et ++ [a]) it' ∧
         u_measure it' < u_measure it.
Proof.
  intros (Hg & Hcl & Htg & Hnd & Hvis) He. rewrite He in Htg, Hnd, Hvis.
  destruct (u_incr_walk_ok gr (cursor_total (EulerIt.nedge it))
              (EulerIt.nedge it) (EulerIt.visited it) [] rest (target gr a))
    as (nedge' & visited' & W & Hrun & Hw);
    [done | apply Htg, list_elem_of_here | done |].
  destruct (taken_edges gr _ _ _ _ _ _ (et ++ a :: rest) Hw Hnd Hvis)
    as [Hnd' Hvis'].
  assert ((et ++ [a]) ++ W ++ rest ≡ₚ W ++ et ++ a :: rest) as Hperm.
  { rewrite <-!app_assoc. simpl.
    rewrite (Permutation_app_comm W (et ++ a :: rest)), <-!app_assoc.
    simpl. apply Permutation_app_head, perm_skip, Permutation_app_comm. }
  exists (EulerIt.Build gr nedge' visited' (W ++ rest)). split.
  { unfold EulerIt.incr. rewrite He, Hg, Hrun. done. }
  split.
  - split_and!; simpl.
    + done.
    + by eapply taken_closed.
    + intros b [Hb|Hb]%elem_of_app.
      * by eapply taken_targets.
      * eapply taken_dom; [done|]. apply Htg. by apply list_elem_of_further.
    + by rewrite Hperm.
    + intros b Hb. apply Hvis'. by rewrite <-Hperm.
  - pose proof (taken_total gr _ _ _ _ _ _ Hw). unfold u_measure.
    rewrite He. simpl. rewrite length_app. lia.
Qed.

Lemma u_ctor_default :
  EulerIt.ctor gr None
  = match first_with_out_arc gr (nodes gr) with
    | Some s => EulerIt.ctor gr (Some s)
    | None => Ok (EulerIt.Build gr ∅ ∅ [])
    end.
Proof. unfold EulerIt.ctor. by destruct (first_with_out_arc _ _). Qed.

Lemma u_ctor_inv start :
  closed gr → valid_start gr start →
  ∃ it, EulerIt.ctor gr start = Ok it ∧ u_inv gr [] it.
Proof.
  intros Hcl Hstart.
  assert (∀ s, s ∈ nodes gr →
            ∃ it, EulerIt.ctor gr (Some s) = Ok it ∧ u_inv gr [] it) as Hsome.
  { intros s Hs.
    pose proof (init_nedge_closed gr Hcl) as Hic.
    destruct (u_ctor_walk_ok gr (cursor_total (init_nedge gr))
                (init_nedge gr) ∅ [] s) as (nedge' & visited' & W & Hrun & Hw);
      [done | | done | |].
    { rewrite init_nedge_lookup, decide_True by done. eauto. }
    { intros a c _. apply not_elem_of_empty. }
    destruct (taken_edges gr _ _ _ _ _ _ [] Hw) as [Hnd Hvis].
    { constructor. }
    { intros a Ha. by apply not_elem_of_nil in Ha. }
    rewrite app_nil_r in Hnd, Hvis.
    exists (EulerIt.Build gr nedge' visited' W). split.
    { unfold EulerIt.ctor. rewrite Hrun. done. }
    split_and!; simpl; try done.
    - by eapply taken_closed.
    - intros a Ha. by eapply taken_targets. }
  destruct start as [s|]; [by apply Hsome|].
  rewrite u_ctor_default.
  destruct (first_with_out_arc gr (nodes gr)) as [s|] eqn:Hfirst.
  - apply first_with_out_arc_Some in Hfirst as [Hs _]. by apply Hsome.
  - eexists. split; [done|]. split_and!; simpl; try done.
    + intros a Ha. by apply not_elem_of_nil in Ha.
    + constructor.
    + intros a Ha. by apply not_elem_of_nil in Ha.
Qed.

Lemma u_tour_inv start :
  closed gr → valid_start gr start →
  ∃ et it, EulerIt.tour gr start = Ok et ∧ u_inv gr et it ∧
           EulerIt.euler it = [].
Proof.
  intros Hcl Hstart.
  destruct (u_ctor_inv start Hcl Hstart) as (it & Hctor & Hinv).
  unfold EulerIt.tour. rewrite Hctor. simpl.
  apply (u_collect_inv (u_inv gr)); [|done|done].
  intros et it' a rest. by apply u_incr_inv.
Qed.

End u_invariant.

(** ** Iterators that can be reached *)

Lemma di_reachable_inv `{Digraph GR} (gr : GR) it :
  wf gr → DiEulerIt.reachable gr it → ∃ et, di_inv gr et it.
Proof.
  intros Hwf. induction 1 as [start it Hstart Hctor|it it' _ [et IH] Hincr].
  - exists []. by eapply di_ctor_inv.
  - destruct (DiEulerIt.euler it) as [|a rest] eqn:He.
    + unfold DiEulerIt.incr in Hincr. by rewrite He in Hincr.
    + destruct (di_incr_inv gr et it a rest Hwf IH He) as (it'' & Hincr' & ? & _).
      exists (et ++ [a]). congruence.
Qed.

Lemma u_reachable_inv `{Graph GR} (gr : GR) it :
  closed gr → EulerIt.reachable gr it → ∃ et, u_inv gr et it.
Proof.
  intros Hcl. induction 1 as [start it Hstart Hctor|it it' _ [et IH] Hincr].
  - exists []. destruct (u_ctor_inv gr start Hcl Hstart) as (it' & ? & ?).
    congruence.
  - destruct (EulerIt.euler it) as [|a rest] eqn:He.
    + unfold EulerIt.incr in Hincr. by rewrite He in Hincr.
    + destruct (u_incr_inv gr et it a rest IH He) as (it'' & Hincr' & ? & _).
      exists (et ++ [a]). congruence.
Qed.

(** ** The shape of what the loops return *)

Lemma di_incr_walk_shape `{Digraph GR} (gr : GR) fuel nedge before rest s
    nedge' l :
  DiEulerIt.incr_walk fuel gr nedge before rest s = Ok (nedge', l) →
  ∃ W, l = before ++ W ++ rest.
Proof.
  revert nedge before s. induction fuel as [|fuel IH]; intros nedge before s;
    simpl; destruct (nedge !! s) as [[|a c]|]; try done.
  - intros [= _ <-]. by exists [].
  - intros [= _ <-]. by exists [].
  - intros [W ->]%IH. exists (a :: W). by rewrite <-app_assoc.
Qed.

Lemma u_incr_walk_shape `{Graph GR} (gr : GR) fuel nedge visited before rest s
    nedge' visited' l :
  EulerIt.incr_walk fuel gr nedge visited before rest s
  = Ok (nedge', visited', l) →
  ∃ W, l = before ++ W ++ rest.
Proof.
  revert nedge visited before s.
  induction fuel as [|fuel IH]; intros nedge visited before s;
    cbn [EulerIt.incr_walk]; destruct (nedge !! s) as [[|b c]|]; try done;
    try (intros [= _ _ <-]; by exists []);
    destruct (EulerIt.skip_visited gr visited (b :: c)) as [|a c'];
    try done; try (intros [= _ _ <-]; by exists []).
  intros [W ->]%IH. exists (a :: W). by rewrite <-app_assoc.
Qed.

Lemma u_ctor_walk_shape `{Graph GR} (gr : GR) fuel nedge visited euler s
    nedge' visited' l :
  EulerIt.ctor_walk fuel gr nedge visited euler s
  = Ok (nedge', visited', l) →
  ∃ W, l = euler ++ W.
Proof.
  revert nedge visited euler s.
  induction fuel as [|fuel IH]; intros nedge visited euler s;
    cbn [EulerIt.ctor_walk]; destruct (nedge !! s) as [[|a c]|]; try done;
    try (intros [= _ _ <-]; exists []; by rewrite app_nil_r).
  destruct (<[s := c]> nedge !! target gr a) as [c'|]; [|done].
  intros [W ->]%IH. exists (a :: W). by rewrite <-app_assoc.
Qed.

Lemma di_collect_nil `{Digraph GR} fuel et (it : DiEulerIt.t GR) :
  DiEulerIt.euler it = [] → DiEulerIt.collect fuel et it = Ok et.
Proof. intros He. destruct fuel; simpl; by rewrite He. Qed.

Lemma u_collect_nil `{Graph GR} fuel et (it : EulerIt.t GR) :
  EulerIt.euler it = [] → EulerIt.collect fuel et it = Ok et.
Proof. intros He. destruct fuel; simpl; by rewrite He. Qed.

Lemma di_collect_prefix `{Digraph GR} fuel et (it : DiEulerIt.t GR) et' :
  DiEulerIt.collect fuel et it = Ok et' → et `prefix_of` et'.
Proof.
  revert et it. induction fuel as [|fuel IH]; intros et it; simpl;
    destruct (DiEulerIt.euler it) as [|a rest]; try done;
    try (by intros [= <-]).
  destruct (DiEulerIt.incr it) as [[[] it']| |]; simpl; try done.
  intros Hpre%IH. etrans; [|done]. by apply prefix_app_r.
Qed.

Lemma u_collect_prefix `{Graph GR} fuel et (it : EulerIt.t GR) et' :
  EulerIt.collect fuel et it = Ok et' → et `prefix_of` et'.
Proof.
  revert et it. induction fuel as [|fuel IH]; intros et it; simpl;
    destruct (EulerIt.euler it) as [|a rest]; try done;
    try (by intros [= <-]).
  destruct (EulerIt.incr it) as [[[] it']| |]; simpl; try done.
  intros Hpre%IH. etrans; [|done]. by apply prefix_app_r.
Qed.

Lemma di_tour_default `{Digraph GR} (gr : GR) :
  DiEulerIt.tour gr None
  = match first_with_out_arc gr (nodes gr) with
    | Some s => DiEulerIt.tour gr (Some s)
    | None => Ok []
    end.
Proof.
  unfold DiEulerIt.tour. rewrite di_ctor_default.
  destruct (first_with_out_arc gr (nodes gr)); [done|].
  simpl. by apply di_collect_nil.
Qed.

Lemma u_tour_default `{Graph GR} (gr : GR) :
  EulerIt.tour gr None
  = match first_with_out_arc gr (nodes gr) with
    | Some s => EulerIt.tour gr (Some s)
    | None => Ok []
    end.
Proof.
  unfold EulerIt.tour. rewrite u_ctor_default.
  destruct (first_with_out_arc gr (nodes gr)); [done|].
  simpl. by apply u_collect_nil.
Qed.

(** ** The step budget is never exhausted

    The budget the loops are given covers every input, well-formed or not:
    no operation of either iterator returns [OutOfFuel]. *)

Section di_budget.
Context {GR : Type} `{Digraph GR}.








End di_budget.

Section u_budget.
Context {GR : Type} `{Graph GR}.


Lemma u_incr_walk_total (gr : GR) fuel nedge visited before rest s
    nedge' visited' l :
  EulerIt.incr_walk fuel gr nedge visited before rest s
  = Ok (nedge', visited', l) →
  ∃ W, l = before ++ W ++ rest ∧
       cursor_total nedge' + length W ≤ cursor_total nedge.
Proof.
  revert nedge visited before s. induction fuel as [|fuel IH];
    intros nedge visited before s; cbn [EulerIt.incr_walk];
    destruct (nedge !! s) as [[|b c]|] eqn:Hs; try done;
    try (intros [= <- _ <-]; exists []; split; [done|simpl; lia]);
    pose proof (skip_visited_suffix gr visited (b :: c)) as Hsuf;
    destruct (EulerIt.skip_visited gr visited (b :: c)) as [|a c'];
    try done; apply suffix_length in Hsuf.
  - intros [= <- _ <-]. exists []. split; [done|].
    pose proof (cursor_total_insert _ _ _ [] Hs). simpl in *. lia.
  - intros [= <- _ <-]. exists []. split; [done|].
    pose proof (cursor_total_insert _ _ _ [] Hs). simpl in *. lia.
  - intros (W & -> & Htot)%IH. exists (a :: W).
    split; [by rewrite <-app_assoc|].
    pose proof (cursor_total_insert _ _ _ c' Hs). simpl in *. lia.
Qed.



Lemma u_incr_measure (it it' : EulerIt.t GR) :
  EulerIt.incr it = Ok (tt, it') → u_measure it' < u_measure it.
Proof.
  unfold EulerIt.incr, u_measure.
  destruct (EulerIt.euler it) as [|a rest]; [done|].
  destruct (EulerIt.incr_walk _ _ _ _ _ _ _)
    as [[[nedge' visited'] l]| |] eqn:Hrun; try done.
  apply u_incr_walk_total in Hrun as (W & -> & Htot).
  intros [= <-]. simpl. rewrite length_app. lia.
Qed.




End u_budget.

(** * The claims *)

(** C1.  On every digraph for which [eulerian] returns true, the sequence
    [DiEulerIt] produces, from the default start or from any node given as
    start, holds every arc of the graph exactly once, and it is closed: its
    last arc ends at the node its first arc starts from. *)
Theorem di_tour_eulerian_complete `{Digraph GR} (gr : GR) (start : option nat) :
  wf gr → valid_start gr start → Directed.eulerian gr = true →
  ∃ et, DiEulerIt.tour gr start = Ok et ∧
        NoDup et ∧ (∀ a, a ∈ et ↔ a ∈ arcs gr) ∧ closed_tour gr et.
Proof.
  intros Hwf Hstart [Hbal Hconn]%directed_eulerian_iff.
  assert (∀ s, s ∈ nodes gr →
            ∃ et, DiEulerIt.tour gr (Some s) = Ok et ∧
                  NoDup et ∧ (∀ a, a ∈ et ↔ a ∈ arcs gr) ∧ closed_tour gr et)
    as Hsome.
  { intros s Hs.
    destruct (eul_tour_inv gr Hwf Hbal s Hs) as (et & it & Htour & Hinv & Hnil).
    pose proof (exhausted_tour_complete gr Hwf Hbal s et it Hinv Hnil Hconn)
      as Hperm.
    exists et. split_and!; [done| | |by eapply exhausted_tour_closed].
    - rewrite Hperm. by destruct Hwf as (_ & ? & _).
    - intros a. by rewrite Hperm. }
  destruct start as [s|]; [by apply Hsome|].
  rewrite di_tour_default.
  destruct (first_with_out_arc gr (nodes gr)) as [s|] eqn:Hfirst.
  - apply first_with_out_arc_Some in Hfirst as [Hs _]. by apply Hsome.
  - exists []. split_and!; [done|constructor| |done].
    intros a. split; [by intros ?%not_elem_of_nil|].
    intros (n & Hn & Ha)%elem_of_arcs.
    rewrite (proj1 (first_with_out_arc_None gr (nodes gr)) Hfirst n Hn) in Ha.
    done.
Qed.

Lemma di_tour_eulerian_complete_witness :
  wf fig8 ∧ Directed.eulerian fig8 = true ∧
  ∃ et, DiEulerIt.tour fig8 (Some 1) = Ok et ∧
        NoDup et ∧ (∀ a, a ∈ et ↔ a ∈ arcs fig8) ∧ closed_tour fig8 et.
Proof.
  assert (wf fig8) as Hwf by (apply (bool_decide_unpack _); vm_compute; reflexivity).
  split; [exact Hwf|]. split; [vm_compute; reflexivity|].
  apply (di_tour_eulerian_complete fig8 (Some 1) Hwf).
  - apply (bool_decide_unpack _). vm_compute. reflexivity.
  - vm_compute. reflexivity.
Defined.

(** C2.  Whatever the graph and the start node, no arc appears twice in the
    sequence [DiEulerIt] produces, and no edge appears twice in the sequence
    [EulerIt] produces. *)
Theorem tour_no_repetition {GR GR' : Type} `{Digraph GR} `{Graph GR'}
    (dg : GR) (dstart : option nat) (ug : GR') (ustart : option nat) :
  wf dg → valid_start dg dstart → closed ug → valid_start ug ustart →
  (∃ et, DiEulerIt.tour dg dstart = Ok et ∧ NoDup et) ∧
  (∃ et, EulerIt.tour ug ustart = Ok et ∧ NoDup (edge ug <$> et)).
Proof.
  intros Hwf Hds Hcl Hus. split.
  - destruct (di_tour_inv dg dstart Hwf Hds)
      as (et & it & Htour & [_ [Hinv|[-> _]]] & Hnil).
    + exists et. split; [done|]. rewrite Hnil, app_nil_r in Hinv.
      by apply (ci_nodup _ _ _ Hinv).
    + exists []. split; [done|constructor].
  - destruct (u_tour_inv ug ustart Hcl Hus)
      as (et & it & Htour & (_ & _ & _ & Hnd & _) & Hnil).
    exists et. split; [done|]. by rewrite Hnil, app_nil_r in Hnd.
Qed.

Lemma tour_no_repetition_witness :
  (∃ et, DiEulerIt.tour sink_first (Some 1) = Ok et ∧ NoDup et) ∧
  (∃ et, EulerIt.tour path3 (Some 1) = Ok et ∧ NoDup (edge path3 <$> et)).
Proof.
  apply (tour_no_repetition sink_first (Some 1) path3 (Some 1)).
  - apply (bool_decide_unpack _). vm_compute. reflexivity.
  - apply (bool_decide_unpack _). vm_compute. reflexivity.
  - apply (bool_decide_unpack _). vm_compute. reflexivity.
  - apply (bool_decide_unpack _). vm_compute. reflexivity.
Defined.

(** C4.  [eulerian] returns true for an undirected graph exactly when every
    node has an even number of incident edges and [connected] holds of the
    graph; it returns true for a digraph exactly when every node has as many
    in-arcs as out-arcs and [connected] holds of the graph seen through
    [Undirector]. *)
Theorem eulerian_characterisation {GR GR' : Type} `{Graph GR} `{Digraph GR'}
    (ug : GR) (dg : GR') :
  (Undirected.eulerian ug = true
   ↔ (∀ n, n ∈ nodes ug → Nat.Even (countIncEdges ug n)) ∧
     connected ug = true) ∧
  (Directed.eulerian dg = true
   ↔ (∀ n, n ∈ nodes dg → countInArcs dg n = countOutArcs dg n) ∧
     connected (undirector dg) = true).
Proof.
  split; [apply undirected_eulerian_iff | apply directed_eulerian_iff].
Qed.

(** ** Starting at a node without out-arcs, and starting at one with *)

Lemma di_ctor_sink `{Digraph GR} (gr : GR) s :
  s ∈ nodes gr → outArcs gr s = [] →
  DiEulerIt.ctor gr (Some s) = Ok (DiEulerIt.Build gr (init_nedge gr) []).
Proof.
  intros Hs Hout. unfold DiEulerIt.ctor.
  assert (init_nedge gr !! s = Some []) as Hl.
  { by rewrite init_nedge_lookup, decide_True, Hout. }
  destruct (cursor_total (init_nedge gr)); simpl; by rewrite Hl.
Qed.

Lemma u_ctor_sink `{Graph GR} (gr : GR) s :
  s ∈ nodes gr → outArcs gr s = [] →
  EulerIt.ctor gr (Some s) = Ok (EulerIt.Build gr (init_nedge gr) ∅ []).
Proof.
  intros Hs Hout. unfold EulerIt.ctor.
  assert (init_nedge gr !! s = Some []) as Hl.
  { by rewrite init_nedge_lookup, decide_True, Hout. }
  destruct (cursor_total (init_nedge gr)); simpl; by rewrite Hl.
Qed.

Lemma di_tour_sink `{Digraph GR} (gr : GR) s :
  s ∈ nodes gr → outArcs gr s = [] → DiEulerIt.tour gr (Some s) = Ok [].
Proof.
  intros Hs Hout. unfold DiEulerIt.tour. rewrite di_ctor_sink by done.
  simpl. by apply di_collect_nil.
Qed.

Lemma u_tour_sink `{Graph GR} (gr : GR) s :
  s ∈ nodes gr → outArcs gr s = [] → EulerIt.tour gr (Some s) = Ok [].
Proof.
  intros Hs Hout. unfold EulerIt.tour. rewrite u_ctor_sink by done.
  simpl. by apply u_collect_nil.
Qed.

Lemma di_tour_source `{Digraph GR} (gr : GR) s :
  s ∈ nodes gr → outArcs gr s ≠ [] → DiEulerIt.tour gr (Some s) ≠ Ok [].
Proof.
  intros Hs Hout Htour. unfold DiEulerIt.tour, DiEulerIt.ctor in Htour.
  rewrite ctor_walk_incr_walk in Htour.
  destruct (DiEulerIt.incr_walk _ gr (init_nedge gr) [] [] s)
    as [[nedge' l]| |] eqn:Hrun; [|done..].
  assert (∃ a l', l = a :: l') as (a & l' & ->).
  { destruct (outArcs gr s) as [|a c] eqn:Ho; [done|].
    assert (init_nedge gr !! s = Some (a :: c)) as Hl
      by by rewrite init_nedge_lookup, decide_True, Ho.
    destruct (cursor_total (init_nedge gr)); simpl in Hrun; rewrite Hl in Hrun;
      [done|].
    apply di_incr_walk_shape in Hrun as [W ->]. simpl. eauto. }
  simpl in Htour.
  destruct (DiEulerIt.incr _) as [[[] it']| |]; [|done..]. simpl in Htour.
  apply di_collect_prefix in Htour. by apply prefix_nil_inv in Htour.
Qed.

Lemma u_tour_source `{Graph GR} (gr : GR) s :
  s ∈ nodes gr → outArcs gr s ≠ [] → EulerIt.tour gr (Some s) ≠ Ok [].
Proof.
  intros Hs Hout Htour. unfold EulerIt.tour, EulerIt.ctor in Htour.
  destruct (EulerIt.ctor_walk _ gr (init_nedge gr) ∅ [] s)
    as [[[nedge' visited'] l]| |] eqn:Hrun; [|done..].
  assert (∃ a l', l = a :: l') as (a & l' & ->).
  { destruct (outArcs gr s) as [|a c] eqn:Ho; [done|].
    assert (init_nedge gr !! s = Some (a :: c)) as Hl
      by by rewrite init_nedge_lookup, decide_True, Ho.
    destruct (cursor_total (init_nedge gr));
      cbn [EulerIt.ctor_walk] in Hrun; rewrite Hl in Hrun; [done|].
    destruct (<[s := c]> (init_nedge gr) !! target gr a); [|done].
    apply u_ctor_walk_shape in Hrun as [W ->]. simpl. eauto. }
  simpl in Htour.
  destruct (EulerIt.incr _) as [[[] it']| |]; [|done..]. simpl in Htour.
  apply u_collect_prefix in Htour. by apply prefix_nil_inv in Htour.
Qed.

(** C3, as stated, fails: node 0 of [sink_first] has no out-arc and node 1
    has one, so the scan finds node 1; but the iterator given node 0 as start
    produces the empty sequence, not the sequence started at node 1.  The
    same holds of [EulerIt] on [isolated_first]. *)
Lemma explicit_sink_start_not_scanned :
  (outArcs sink_first 0 = [] ∧
   first_with_out_arc sink_first (nodes sink_first) = Some 1 ∧
   DiEulerIt.tour sink_first (Some 1) = Ok [0] ∧
   DiEulerIt.tour sink_first (Some 0) = Ok []) ∧
  (outArcs isolated_first 0 = [] ∧
   first_with_out_arc isolated_first (nodes isolated_first) = Some 1 ∧
   EulerIt.tour isolated_first (Some 1) = Ok [1] ∧
   EulerIt.tour isolated_first (Some 0) = Ok []).
Proof. split; split_and!; vm_compute; reflexivity. Qed.

Lemma first_with_out_arc_first `{Digraph GR} (gr : GR) pre n post :
  (∀ m, m ∈ pre → outArcs gr m = []) → outArcs gr n ≠ [] →
  first_with_out_arc gr (pre ++ n :: post) = Some n.
Proof.
  intros Hpre Hn. induction pre as [|m pre IH]; simpl.
  - by destruct (outArcs gr n).
  - rewrite (Hpre m) by apply list_elem_of_here.
    apply IH. intros m' Hm'. apply Hpre. by apply list_elem_of_further.
Qed.

(** C3, amended.  A start node given explicitly is never replaced: if it
    has no out-arc, the sequence produced is empty, whatever out-arcs other
    nodes have.  Only when no start node is given do the iterators scan the
    nodes: the tour is then the tour started at the first node, in
    enumeration order, that has an out-arc (every node enumerated before it
    has none), and it is empty exactly when no node has an out-arc. *)
Theorem explicit_start_not_replaced {GR GR' : Type} `{Digraph GR} `{Graph GR'}
    (dg : GR) (ug : GR') :
  ((∀ s, s ∈ nodes dg → outArcs dg s = [] →
         DiEulerIt.tour dg (Some s) = Ok []) ∧
   (∀ pre n post,
      nodes dg = pre ++ n :: post →
      (∀ m, m ∈ pre → outArcs dg m = []) → outArcs dg n ≠ [] →
      DiEulerIt.tour dg None = DiEulerIt.tour dg (Some n)) ∧
   (DiEulerIt.tour dg None = Ok [] ↔ ∀ n, n ∈ nodes dg → outArcs dg n = [])) ∧
  ((∀ s, s ∈ nodes ug → outArcs ug s = [] →
         EulerIt.tour ug (Some s) = Ok []) ∧
   (∀ pre n post,
      nodes ug = pre ++ n :: post →
      (∀ m, m ∈ pre → outArcs ug m = []) → outArcs ug n ≠ [] →
      EulerIt.tour ug None = EulerIt.tour ug (Some n)) ∧
   (EulerIt.tour ug None = Ok [] ↔ ∀ n, n ∈ nodes ug → outArcs ug n = [])).
Proof.
  split; split_and!.
  - intros s Hs Hout. by apply di_tour_sink.
  - intros pre n post Hnodes Hpre Hn.
    by rewrite di_tour_default, Hnodes, first_with_out_arc_first.
  - rewrite di_tour_default, <-first_with_out_arc_None.
    destruct (first_with_out_arc dg (nodes dg)) as [n|] eqn:Hfirst; [|done].
    apply first_with_out_arc_Some in Hfirst as [Hn Hne].
    split; [|done]. intros Htour. by destruct (di_tour_source dg n Hn Hne).
  - intros s Hs Hout. by apply u_tour_sink.
  - intros pre n post Hnodes Hpre Hn.
    by rewrite u_tour_default, Hnodes, first_with_out_arc_first.
  - rewrite u_tour_default, <-first_with_out_arc_None.
    destruct (first_with_out_arc ug (nodes ug)) as [n|] eqn:Hfirst; [|done].
    apply first_with_out_arc_Some in Hfirst as [Hn Hne].
    split; [|done]. intros Htour. by destruct (u_tour_source ug n Hn Hne).
Qed.

Lemma explicit_start_not_replaced_witness :
  (DiEulerIt.tour sink_first (Some 0) = Ok [] ∧
   DiEulerIt.tour sink_first None = DiEulerIt.tour sink_first (Some 1) ∧
   DiEulerIt.tour fig8 None = DiEulerIt.tour fig8 (Some 0)) ∧
  (EulerIt.tour isolated_first (Some 0) = Ok [] ∧
   EulerIt.tour isolated_first None = EulerIt.tour isolated_first (Some 1) ∧
   EulerIt.tour ufig8 None = EulerIt.tour ufig8 (Some 0)).
Proof.
  destruct (explicit_start_not_replaced sink_first isolated_first)
    as [(Hd1 & Hd2 & _) (Hu1 & Hu2 & _)].
  destruct (explicit_start_not_replaced fig8 ufig8)
    as [(_ & Hd3 & _) (_ & Hu3 & _)].
  split; split_and!.
  - apply Hd1; [apply (bool_decide_unpack _)|]; vm_compute; reflexivity.
  - apply (Hd2 [0] 1 []); [reflexivity| |vm_compute; discriminate].
    intros m ->%list_elem_of_singleton. vm_compute. reflexivity.
  - apply (Hd3 [] 0 [1; 2; 3; 4]); [reflexivity| |vm_compute; discriminate].
    intros m Hm. by apply not_elem_of_nil in Hm.
  - apply Hu1; [apply (bool_decide_unpack _)|]; vm_compute; reflexivity.
  - apply (Hu2 [0] 1 [2]); [reflexivity| |vm_compute; discriminate].
    intros m ->%list_elem_of_singleton. vm_compute. reflexivity.
  - apply (Hu3 [] 0 [1; 2; 3; 4]); [reflexivity| |vm_compute; discriminate].
    intros m Hm. by apply not_elem_of_nil in Hm.
Defined.

(** C5.  On a graph without arcs both iterators compare equal to [INVALID]
    right after construction and produce the empty sequence, whether no
    start node is given or any node of the graph is. *)
Theorem no_arcs_empty_tour {GR GR' : Type} `{Digraph GR} `{Graph GR'}
    (dg : GR) (dstart : option nat) (ug : GR') (ustart : option nat) :
  (∀ n, n ∈ nodes dg → outArcs dg n = []) → valid_start dg dstart →
  (∀ n, n ∈ nodes ug → outArcs ug n = []) → valid_start ug ustart →
  (∃ it, DiEulerIt.ctor dg dstart = Ok it ∧
         DiEulerIt.eqInvalid it = Ok (true, it) ∧
         DiEulerIt.tour dg dstart = Ok []) ∧
  (∃ it, EulerIt.ctor ug ustart = Ok it ∧
         EulerIt.eqInvalid it = Ok (true, it) ∧
         EulerIt.tour ug ustart = Ok []).
Proof.
  intros Hd Hds Hu Hus. split.
  - destruct dstart as [s|].
    + eexists. split_and!; [by apply di_ctor_sink; auto | done |].
      apply di_tour_sink; auto.
    + apply first_with_out_arc_None in Hd.
      eexists. rewrite di_ctor_default, di_tour_default, Hd. done.
  - destruct ustart as [s|].
    + eexists. split_and!; [by apply u_ctor_sink; auto | done |].
      apply u_tour_sink; auto.
    + apply first_with_out_arc_None in Hu.
      eexists. rewrite u_ctor_default, u_tour_default, Hu. done.
Qed.

Lemma no_arcs_empty_tour_witness :
  (∃ it, DiEulerIt.ctor one_node_digraph (Some 0) = Ok it ∧
         DiEulerIt.eqInvalid it = Ok (true, it) ∧
         DiEulerIt.tour one_node_digraph (Some 0) = Ok []) ∧
  (∃ it, EulerIt.ctor one_node_graph None = Ok it ∧
         EulerIt.eqInvalid it = Ok (true, it) ∧
         EulerIt.tour one_node_graph None = Ok []).
Proof.
  apply (no_arcs_empty_tour one_node_digraph (Some 0) one_node_graph None).
  - intros n Hn. vm_compute. reflexivity.
  - apply (bool_decide_unpack _). vm_compute. reflexivity.
  - intros n Hn. vm_compute. reflexivity.
  - apply (bool_decide_unpack _). vm_compute. reflexivity.
Defined.

(** C6.  [eulerian] returns true for a graph without nodes and for a graph
    of one node without arcs, directed or not. *)
Theorem eulerian_trivial_graphs {GR GR' : Type} `{Graph GR} `{Digraph GR'}
    (ug : GR) (dg : GR') :
  (nodes ug = [] ∨ ∃ n, nodes ug = [n] ∧ outArcs ug n = []) →
  (nodes dg = [] ∨ ∃ n, nodes dg = [n] ∧ outArcs dg n = []) →
  Undirected.eulerian ug = true ∧ Directed.eulerian dg = true.
Proof.
  intros Hu Hd. split.
  - unfold Undirected.eulerian.
    destruct Hu as [Hn|(n & Hn & Hout)]; rewrite Hn;
      cbn [Undirected.eulerian_from].
    + by apply connected_no_nodes.
    + unfold countIncEdges. rewrite Hout. simpl.
      by eapply connected_one_node.
  - unfold Directed.eulerian.
    destruct Hd as [Hn|(n & Hn & Hout)]; rewrite Hn;
      cbn [Directed.eulerian_from].
    + by apply connected_no_nodes.
    + unfold countInArcs, countOutArcs, inArcs, arcs. rewrite Hn. csimpl.
      rewrite Hout. simpl. by eapply connected_one_node.
Qed.

Lemma eulerian_trivial_graphs_witness :
  Undirected.eulerian one_node_graph = true ∧
  Directed.eulerian no_nodes_digraph = true.
Proof.
  apply (eulerian_trivial_graphs one_node_graph no_nodes_digraph).
  - right. exists 0. split; vm_compute; reflexivity.
  - left. vm_compute. reflexivity.
Defined.

(** C7, as stated, fails: started at the shared node 0 of the figure eight,
    the constructor's walk already holds the whole tour, no advance inserts
    anything, and the sequence is one triangle followed by the other. *)
Lemma fig8_shared_start_not_interleaved :
  DiEulerIt.tour fig8 (Some 0) = Ok [0; 1; 2; 3; 4; 5] ∧
  ¬ interleaved first_triangle [0; 1; 2; 3; 4; 5] ∧
  ∀ k, k ≤ 6 →
    trail_after k (DiEulerIt.ctor fig8 (Some 0))
    = Ok (drop k [0; 1; 2; 3; 4; 5]).
Proof.
  split_and!.
  - vm_compute. reflexivity.
  - unfold interleaved. vm_compute. lia.
  - intros k Hk.
    do 7 (destruct k as [|k]; [vm_compute; reflexivity|]). lia.
Qed.

(** C7, amended.  The figure eight is Eulerian, and started at the shared
    node the iterator produces a sequence of length 6 that holds every arc
    of both triangles exactly once.  The triangles are not interleaved:
    whichever of the two out-arcs of the shared node comes first, the
    sequence is one whole triangle followed by the other, the trail is
    complete after construction, and no advance inserts anything (after [k]
    advances the trail is the tour without its first [k] arcs). *)
Theorem fig8_tours :
  (Directed.eulerian fig8 = true ∧
   DiEulerIt.tour fig8 (Some 0) = Ok [0; 1; 2; 3; 4; 5] ∧
   NoDup [0; 1; 2; 3; 4; 5] ∧
   Forall (λ a, a ∈ [0; 1; 2; 3; 4; 5]) (arcs fig8) ∧
   changes first_triangle [0; 1; 2; 3; 4; 5] = 1 ∧
   ∀ k, k ≤ 6 →
     trail_after k (DiEulerIt.ctor fig8 (Some 0))
     = Ok (drop k [0; 1; 2; 3; 4; 5])) ∧
  (Directed.eulerian fig8_rev = true ∧
   DiEulerIt.tour fig8_rev (Some 0) = Ok [0; 4; 5; 3; 1; 2] ∧
   NoDup [0; 4; 5; 3; 1; 2] ∧
   Forall (λ a, a ∈ [0; 4; 5; 3; 1; 2]) (arcs fig8_rev) ∧
   changes first_triangle_rev [0; 4; 5; 3; 1; 2] = 1 ∧
   ∀ k, k ≤ 6 →
     trail_after k (DiEulerIt.ctor fig8_rev (Some 0))
     = Ok (drop k [0; 4; 5; 3; 1; 2])).
Proof.
  split; split_and!;
    try (vm_compute; reflexivity);
    try (apply (bool_decide_unpack _); vm_compute; reflexivity);
    intros k Hk;
    do 7 (destruct k as [|k]; [vm_compute; reflexivity|]); lia.
Qed.

(** The splice at work on [fig8]: started at node 1 the trail after
    construction is the first triangle, and the advance that reaches the
    shared node inserts the second triangle before the arc that closes the
    first. *)
Lemma fig8_splice_from_node_1 :
  trail_after 0 (DiEulerIt.ctor fig8 (Some 1)) = Ok [1; 2; 0] ∧
  trail_after 1 (DiEulerIt.ctor fig8 (Some 1)) = Ok [2; 0] ∧
  trail_after 2 (DiEulerIt.ctor fig8 (Some 1)) = Ok [3; 4; 5; 0] ∧
  DiEulerIt.tour fig8 (Some 1) = Ok [1; 2; 3; 4; 5; 0].
Proof. split_and!; vm_compute; reflexivity. Qed.

(** ** Advancing an iterator with a non-empty trail *)

Lemma di_incr_defined `{Digraph GR} (gr : GR) it a rest :
  wf gr → DiEulerIt.reachable gr it → DiEulerIt.euler it = a :: rest →
  ∃ it' ins, DiEulerIt.incr it = Ok (tt, it') ∧
             DiEulerIt.euler it' = ins ++ rest.
Proof.
  intros Hwf [et [Hg [Hinv|[_ Hnil]]]]%di_reachable_inv He; [|congruence|done].
  rewrite He in Hinv.
  assert (a ∈ arcs gr) as Ha.
  { apply (ci_arcs _ _ _ Hinv). set_solver. }
  destruct (ci_suffix _ _ _ Hinv _ (wf_arc_target gr a Hwf Ha))
    as (u & c & Hc & _).
  destruct (di_incr_walked gr it a rest Hg He) as (nedge' & W & s' & Hincr & _);
    [by eapply cursors_inv_closed | eauto |].
  eexists _, W. split; [exact Hincr|done].
Qed.

Lemma u_incr_defined `{Graph GR} (gr : GR) it a rest :
  closed gr → EulerIt.reachable gr it → EulerIt.euler it = a :: rest →
  ∃ it' ins, EulerIt.incr it = Ok (tt, it') ∧
             EulerIt.euler it' = ins ++ rest.
Proof.
  intros Hcl [et Hinv]%u_reachable_inv He; [|done].
  destruct (u_incr_inv gr et it a rest Hinv He) as (it' & Hincr & _).
  exists it'. pose proof Hincr as Hdef.
  unfold EulerIt.incr in Hincr. rewrite He in Hincr.
  destruct (EulerIt.incr_walk _ _ _ _ _ _ _)
    as [[[nedge' visited'] l]| |] eqn:Hrun; [|done..].
  apply u_incr_walk_shape in Hrun as [W ->]. simpl in Hincr.
  exists W. split; [done|]. by simplify_eq.
Qed.

Lemma repeatM_inspect {S A} (m : M S A) (f : S → A) (k : nat) (s : S) :
  (∀ s, m s = Ok (f s, s)) → repeatM k m s = Ok (replicate k (f s), s).
Proof.
  intros Hm. induction k as [|k IH]; [done|].
  cbn [repeatM replicate]. unfold mbind, M_bind. by rewrite Hm, IH.
Qed.

(** C9.  Converting an iterator to [Arc] (or to [Edge]) any number of times
    in a row gives the same value every time and leaves the iterator, its
    trail, cursors and marks, as it was. *)
Theorem toArc_idempotent {GR GR' : Type} `{Digraph GR} `{Graph GR'}
    (dit : DiEulerIt.t GR) (uit : EulerIt.t GR') (k : nat) :
  repeatM k DiEulerIt.toArc dit
  = Ok (replicate k (head (DiEulerIt.euler dit)), dit) ∧
  repeatM k EulerIt.toArc uit
  = Ok (replicate k (head (EulerIt.euler uit)), uit) ∧
  repeatM k EulerIt.toEdge uit
  = Ok (replicate k (edge (EulerIt.g uit) <$> head (EulerIt.euler uit)), uit).
Proof.
  split_and!.
  - by apply (repeatM_inspect _ (λ it, head (DiEulerIt.euler it))).
  - by apply (repeatM_inspect _ (λ it, head (EulerIt.euler it))).
  - by apply (repeatM_inspect _
                (λ it, edge (EulerIt.g it) <$> head (EulerIt.euler it))).
Qed.

(** C10.  The advance of either iterator needs a non-empty trail.  On an
    exhausted iterator it has no defined result; on every iterator that
    still has arcs on its trail it is defined, and only on those. *)
Theorem incr_needs_trail {GR GR' : Type} `{Digraph GR} `{Graph GR'}
    (dg : GR) (dit : DiEulerIt.t GR) (ug : GR') (uit : EulerIt.t GR') :
  wf dg → DiEulerIt.reachable dg dit →
  closed ug → EulerIt.reachable ug uit →
  ((DiEulerIt.euler dit = [] → DiEulerIt.incr dit = Undefined) ∧
   (DiEulerIt.euler dit ≠ [] ↔ ∃ dit', DiEulerIt.incr dit = Ok (tt, dit'))) ∧
  ((EulerIt.euler uit = [] → EulerIt.incr uit = Undefined) ∧
   (EulerIt.euler uit ≠ [] ↔ ∃ uit', EulerIt.incr uit = Ok (tt, uit'))).
Proof.
  intros Hwf Hdr Hcl Hur. split; split.
  - intros He. unfold DiEulerIt.incr. by rewrite He.
  - split.
    + destruct (DiEulerIt.euler dit) as [|a rest] eqn:He; [done|]. intros _.
      destruct (di_incr_defined dg dit a rest Hwf Hdr He) as (dit' & _ & ? & _).
      eauto.
    + intros [dit' Hincr] He. unfold DiEulerIt.incr in Hincr.
      by rewrite He in Hincr.
  - intros He. unfold EulerIt.incr. by rewrite He.
  - split.
    + destruct (EulerIt.euler uit) as [|a rest] eqn:He; [done|]. intros _.
      destruct (u_incr_defined ug uit a rest Hcl Hur He) as (uit' & _ & ? & _).
      eauto.
    + intros [uit' Hincr] He. unfold EulerIt.incr in Hincr.
      by rewrite He in Hincr.
Qed.

Lemma incr_needs_trail_witness :
  ((DiEulerIt.euler (di_ctor_it sink_first (Some 0)) = [] →
    DiEulerIt.incr (di_ctor_it sink_first (Some 0)) = Undefined) ∧
   (DiEulerIt.euler (di_ctor_it sink_first (Some 0)) ≠ [] ↔
    ∃ dit', DiEulerIt.incr (di_ctor_it sink_first (Some 0)) = Ok (tt, dit'))) ∧
  ((EulerIt.euler (u_ctor_it path3 (Some 0)) = [] →
    EulerIt.incr (u_ctor_it path3 (Some 0)) = Undefined) ∧
   (EulerIt.euler (u_ctor_it path3 (Some 0)) ≠ [] ↔
    ∃ uit', EulerIt.incr (u_ctor_it path3 (Some 0)) = Ok (tt, uit'))).
Proof.
  apply (incr_needs_trail sink_first (di_ctor_it sink_first (Some 0))
           path3 (u_ctor_it path3 (Some 0))).
  - apply (bool_decide_unpack _). vm_compute. reflexivity.
  - apply (DiEulerIt.reach_ctor sink_first (Some 0)).
    + apply (bool_decide_unpack _). vm_compute. reflexivity.
    + vm_compute. reflexivity.
  - apply (bool_decide_unpack _). vm_compute. reflexivity.
  - apply (EulerIt.reach_ctor path3 (Some 0)).
    + apply (bool_decide_unpack _). vm_compute. reflexivity.
    + vm_compute. reflexivity.
Defined.

(** * Further properties *)

(** ** The node a tour starts from *)

Lemma origin_valid `{Digraph GR} (gr : GR) start s :
  valid_start gr start → origin gr start = Some s → s ∈ nodes gr.
Proof.
  destruct start as [s'|]; simpl.
  - by intros ? [= <-].
  - by intros _ [? _]%first_with_out_arc_Some.
Qed.

Lemma di_tour_origin `{Digraph GR} (gr : GR) start s :
  origin gr start = Some s → DiEulerIt.tour gr start = DiEulerIt.tour gr (Some s).
Proof.
  destruct start as [s'|]; simpl; [by intros [= ->]|].
  intros Hf. by rewrite di_tour_default, Hf.
Qed.

Lemma u_tour_origin `{Graph GR} (gr : GR) start s :
  origin gr start = Some s → EulerIt.tour gr start = EulerIt.tour gr (Some s).
Proof.
  destruct start as [s'|]; simpl; [by intros [= ->]|].
  intros Hf. by rewrite u_tour_default, Hf.
Qed.

(** ** The directed iterator over a balanced digraph *)

Lemma chained_reach `{Digraph GR} (gr : GR) s l a :
  wf gr → (∀ b, b ∈ l → b ∈ arcs gr) → chained gr s l → a ∈ l →
  rtc (adjacent gr) s (source gr a).
Proof.
  intros Hwf. revert s. induction l as [|b l IH]; intros s Hl Hch Ha.
  - by apply not_elem_of_nil in Ha.
  - destruct Hch as [Hb Hch]. apply elem_of_cons in Ha as [->|Ha].
    + by rewrite Hb.
    + eapply rtc_l; [|apply IH; [|done..]].
      * exists b. split; [|done]. rewrite <-Hb.
        apply wf_arc_source; [done|]. apply Hl, list_elem_of_here.
      * intros c Hc. apply Hl. by apply list_elem_of_further.
Qed.

Lemma adjacent_undirector `{Digraph GR} (gr : GR) u v :
  adjacent gr u v → adjacent (undirector gr) u v.
Proof.
  intros (a & Ha & <-). exists (2 * a + 1).
  rewrite undirector_outArcs, undirector_target_along. split; [|done].
  apply elem_of_app. left. apply list_elem_of_fmap. eauto.
Qed.

(** X1.  On a digraph whose nodes have as many in-arcs as out-arcs,
    connected or not, the sequence [DiEulerIt] produces is a closed trail
    through the node [s] the walk starts from (the start node given, or the
    first node with an out-arc): no arc is repeated, the first arc leaves
    [s], every other arc leaves the node the arc before it enters, and the
    last arc enters [s]. *)
Theorem di_tour_balanced_closed_trail `{Digraph GR} (gr : GR)
    (start : option nat) (s : nat) :
  wf gr → balanced gr → valid_start gr start → origin gr start = Some s →
  ∃ et, DiEulerIt.tour gr start = Ok et ∧
        NoDup et ∧ chained gr s et ∧ trail_end gr s et = s.
Proof.
  intros Hwf Hbal Hstart Ho. rewrite (di_tour_origin gr start s Ho).
  pose proof (origin_valid gr start s Hstart Ho) as Hs.
  destruct (eul_tour_inv gr Hwf Hbal s Hs)
    as (et & it & Htour & (_ & _ & Hci & Hch & Hend & _) & Hnil).
  rewrite Hnil, app_nil_r in Hci, Hch, Hend.
  exists et. split_and!; [done| |done..]. by apply (ci_nodup _ _ _ Hci).
Qed.

Lemma di_tour_balanced_closed_trail_witness :
  ∃ et, DiEulerIt.tour cycle_isolated None = Ok et ∧
        NoDup et ∧ chained cycle_isolated 1 et ∧
        trail_end cycle_isolated 1 et = 1.
Proof.
  apply (di_tour_balanced_closed_trail cycle_isolated None 1).
  - apply (bool_decide_unpack _). vm_compute. reflexivity.
  - intros n Hn. repeat (apply elem_of_cons in Hn as [->|Hn];
      [vm_compute; reflexivity|]). by apply not_elem_of_nil in Hn.
  - apply (bool_decide_unpack _). vm_compute. reflexivity.
  - vm_compute. reflexivity.
Defined.

(** X2.  On such a digraph the sequence produced holds exactly the arcs
    of the component of the node [s] the walk starts from: the arcs of the
    graph whose source is joined to [s] by a path that may take arcs in
    either direction.  So the tour is full as soon as all arcs lie in the
    component of [s], whatever nodes without arcs there are. *)
Theorem di_tour_balanced_component `{Digraph GR} (gr : GR)
    (start : option nat) (s : nat) :
  wf gr → balanced gr → valid_start gr start → origin gr start = Some s →
  ∃ et, DiEulerIt.tour gr start = Ok et ∧
        ∀ a, a ∈ et ↔
             a ∈ arcs gr ∧ rtc (adjacent (undirector gr)) s (source gr a).
Proof.
  intros Hwf Hbal Hstart Ho. rewrite (di_tour_origin gr start s Ho).
  pose proof (origin_valid gr start s Hstart Ho) as Hs.
  destruct (eul_tour_inv gr Hwf Hbal s Hs) as (et & it & Htour & Hinv & Hnil).
  pose proof Hinv as (_ & _ & Hci & Hch & _).
  rewrite Hnil, app_nil_r in Hci, Hch.
  exists et. split; [done|]. intros a. split.
  - intros Ha. split; [by apply (ci_arcs _ _ _ Hci)|].
    eapply rtc_subrel; [|by eapply chained_reach, Ha;
                            [|apply (ci_arcs _ _ _ Hci)|]].
    intros u v. apply adjacent_undirector.
  - intros [Ha Hrtc].
    assert (source gr a ∈ nodes gr ∧ on_trail gr s et (source gr a))
      as [_ Hon].
    { revert Hrtc. generalize (source gr a).
      refine (rtc_ind_r (λ v, v ∈ nodes gr ∧ on_trail gr s et v) s _ _).
      - split; [done|by left].
      - intros u v _ (x & Hx & <-) [Hu Hon].
        destruct (on_trail_undirected gr Hwf Hbal s et it Hinv Hnil u x Hu Hx)
          as [Hv Hiff].
        split; [done|]. by apply Hiff. }
    eapply on_trail_out; [done..|]. by apply wf_arc_source.
Qed.

Lemma di_tour_balanced_component_witness :
  ∃ et, DiEulerIt.tour cycle_isolated None = Ok et ∧
        ∀ a, a ∈ et ↔
             a ∈ arcs cycle_isolated ∧
             rtc (adjacent (undirector cycle_isolated)) 1
                 (source cycle_isolated a).
Proof.
  apply (di_tour_balanced_component cycle_isolated None 1).
  - apply (bool_decide_unpack _). vm_compute. reflexivity.
  - intros n Hn. repeat (apply elem_of_cons in Hn as [->|Hn];
      [vm_compute; reflexivity|]). by apply not_elem_of_nil in Hn.
  - apply (bool_decide_unpack _). vm_compute. reflexivity.
  - vm_compute. reflexivity.
Defined.

(** ** Opposite arcs *)

Section opposite.
Context {GR : Type} `{Graph GR} (gr : GR).

Lemma uwf_wf : uwf gr → wf gr.
Proof. by intros [? _]. Qed.

Lemma oppositeArc_spec a :
  uwf gr → a ∈ arcs gr →
  oppositeArc gr a ∈ arcs gr ∧ oppositeArc gr a ≠ a ∧
  edge gr (oppositeArc gr a) = edge gr a ∧
  source gr (oppositeArc gr a) = target gr a ∧
  target gr (oppositeArc gr a) = source gr a ∧
  ∀ c, c ∈ arcs gr → edge gr c = edge gr a → c = a ∨ c = oppositeArc gr a.
Proof.
  intros [_ Hopp] Ha. rewrite Forall_forall in Hopp.
  apply Hopp, Exists_exists in Ha as (b & Hb & Hne & He & Hs & Ht & Honly).
  rewrite Forall_forall in Honly.
  assert (oppositeArc gr a = b) as ->; [|by split_and!].
  unfold oppositeArc.
  destruct (filter (λ b, b ≠ a ∧ edge gr b = edge gr a) (arcs gr))
    as [|b' l] eqn:Hf.
  - assert (b ∈ filter (λ b, b ≠ a ∧ edge gr b = edge gr a) (arcs gr)) as Hin
      by by apply list_elem_of_filter.
    rewrite Hf in Hin. by apply not_elem_of_nil in Hin.
  - assert (b' ∈ filter (λ b, b ≠ a ∧ edge gr b = edge gr a) (arcs gr)) as Hin
      by (rewrite Hf; apply list_elem_of_here).
    apply list_elem_of_filter in Hin as [[Hne' He'] Hb'].
    simpl. by destruct (Honly b' Hb' He').
Qed.

Lemma oppositeArc_involutive a :
  uwf gr → a ∈ arcs gr → oppositeArc gr (oppositeArc gr a) = a.
Proof.
  intros Hwf Ha.
  destruct (oppositeArc_spec a Hwf Ha) as (Hb & Hne & He & _ & _ & Honly).
  destruct (oppositeArc_spec _ Hwf Hb) as (Hc & Hne' & He' & _).
  destruct (Honly _ Hc) as [?|?]; [congruence|done..].
Qed.

Lemma oppositeArc_out a :
  uwf gr → a ∈ arcs gr → oppositeArc gr a ∈ outArcs gr (target gr a).
Proof.
  intros Hwf Ha.
  destruct (oppositeArc_spec a Hwf Ha) as (Hb & _ & _ & Hs & _).
  rewrite <-Hs. by apply wf_arc_source; [apply uwf_wf|].
Qed.

End opposite.

(** ** Counting the arcs taken at a node of an undirected graph *)

Lemma NoDup_fmap_eq {A B} (f : A → B) (l : list A) x y :
  NoDup (f <$> l) → x ∈ l → y ∈ l → f x = f y → x = y.
Proof.
  induction l as [|z l IH]; intros Hnd Hx Hy Hf.
  - by apply not_elem_of_nil in Hx.
  - rewrite fmap_cons in Hnd. apply NoDup_cons in Hnd as [Hz Hnd].
    apply elem_of_cons in Hx as [->|Hx]; apply elem_of_cons in Hy as [->|Hy];
      [done| | |by apply IH].
    + destruct Hz. rewrite Hf. by apply list_elem_of_fmap_2.
    + destruct Hz. rewrite <-Hf. by apply list_elem_of_fmap_2.
Qed.

Section incidence.
Context {GR : Type} `{Graph GR} (gr : GR).
Hypothesis Huwf : uwf gr.
Context (X : list nat).
Hypothesis HX : ∀ a, a ∈ X → a ∈ arcs gr.
Hypothesis Hnd : NoDup (edge gr <$> X).

Lemma incident_length v :
  length (incident gr v X) = out_count gr v X + in_count gr v X.
Proof.
  unfold incident, out_count, in_count. by rewrite length_app, length_fmap.
Qed.

Lemma incident_NoDup v : NoDup (incident gr v X).
Proof.
  pose proof (NoDup_fmap_1 _ _ Hnd) as HndX.
  unfold incident. apply NoDup_app. split_and!.
  - by apply NoDup_filter.
  - intros x [Hsx Hx]%list_elem_of_filter Hin.
    apply list_elem_of_fmap in Hin as (y & Hxy & Hy).
    apply list_elem_of_filter in Hy as [Hty Hy].
    destruct (oppositeArc_spec gr y Huwf (HX y Hy)) as (_ & Hne & He & _).
    apply Hne. rewrite <-Hxy.
    apply (NoDup_fmap_eq (edge gr) X); [done..|]. by rewrite Hxy.
  - apply NoDup_fmap_2_strong; [|by apply NoDup_filter].
    intros x y [_ Hx]%list_elem_of_filter [_ Hy]%list_elem_of_filter Hxy.
    rewrite <-(oppositeArc_involutive gr x Huwf (HX x Hx)).
    rewrite <-(oppositeArc_involutive gr y Huwf (HX y Hy)).
    by rewrite Hxy.
Qed.

Lemma incident_out v a : a ∈ incident gr v X → a ∈ outArcs gr v.
Proof.
  unfold incident. intros [Ha|Ha]%elem_of_app.
  - apply list_elem_of_filter in Ha as [<- Ha].
    by apply wf_arc_source; [apply uwf_wf|apply HX].
  - apply list_elem_of_fmap in Ha as (y & -> & Hy).
    apply list_elem_of_filter in Hy as [<- Hy].
    by apply oppositeArc_out, HX.
Qed.

Lemma incident_all v a :
  v ∈ nodes gr → a ∈ outArcs gr v → edge gr a ∈ edge gr <$> X →
  a ∈ incident gr v X.
Proof.
  intros Hv Ha Hin. apply list_elem_of_fmap in Hin as (x & He & Hx).
  assert (a ∈ arcs gr) as Harc by (apply elem_of_arcs; eauto).
  pose proof (wf_out_source gr v a (uwf_wf gr Huwf) Hv Ha) as Hsa.
  destruct (oppositeArc_spec gr a Huwf Harc) as (_ & _ & _ & Hs & Ht & Honly).
  unfold incident. apply elem_of_app.
  destruct (Honly x (HX x Hx)) as [->| ->]; [done| |].
  - left. by apply list_elem_of_filter.
  - right. apply list_elem_of_fmap. exists (oppositeArc gr a). split.
    + by rewrite oppositeArc_involutive.
    + apply list_elem_of_filter. split; [congruence|done].
Qed.

(** The arcs taken leave and enter a node no more often than the node has
    out-arcs, and exactly as often once all its out-arcs run along edges of
    arcs taken. *)
Lemma incident_le v :
  out_count gr v X + in_count gr v X ≤ length (outArcs gr v).
Proof.
  rewrite <-incident_length.
  apply submseteq_length, NoDup_submseteq;
    [apply incident_NoDup | apply incident_out].
Qed.

Lemma incident_ge v :
  v ∈ nodes gr → (∀ a, a ∈ outArcs gr v → edge gr a ∈ edge gr <$> X) →
  length (outArcs gr v) ≤ out_count gr v X + in_count gr v X.
Proof.
  intros Hv Hall. rewrite <-incident_length.
  apply submseteq_length, NoDup_submseteq.
  - by apply wf_out_NoDup; [apply uwf_wf|].
  - intros a Ha. apply incident_all; auto.
Qed.

End incidence.

(** ** The walk of the undirected iterator, cursor step by cursor step *)

Section uwalk.
Context {GR : Type} `{Graph GR} (gr : GR).

Lemma uwalked_skips nedge visited s c W nedge' visited' s' :
  nedge !! s = Some c →
  uwalked gr (<[s := EulerIt.skip_visited gr visited c]> nedge) visited s
          W nedge' visited' s' →
  uwalked gr nedge visited s W nedge' visited' s'.
Proof.
  revert nedge. induction c as [|a c IH]; intros nedge Hs; simpl.
  - by rewrite insert_id.
  - case_decide as Ha.
    + intros Hw. eapply uwalked_skip; [done..|].
      apply IH; [apply lookup_insert_eq|]. by rewrite insert_insert_eq.
    + by rewrite insert_id.
Qed.

Lemma u_incr_walk_uwalked fuel nedge visited before rest s :
  cursors_closed gr nedge → is_Some (nedge !! s) →
  cursor_total nedge ≤ fuel →
  ∃ nedge' visited' W s',
    EulerIt.incr_walk fuel gr nedge visited before rest s
    = Ok (nedge', visited', before ++ W ++ rest) ∧
    uwalked gr nedge visited s W nedge' visited' s'.
Proof.
  revert nedge visited before s.
  induction fuel as [|fuel IH]; intros nedge visited before s Hcl [c Hs] Hfuel;
    cbn [EulerIt.incr_walk]; rewrite Hs; destruct c as [|b c].
  - exists nedge, visited, [], s. split; [done|by constructor].
  - pose proof (cursor_total_pop _ _ _ _ Hs). lia.
  - exists nedge, visited, [], s. split; [done|by constructor].
  - destruct (EulerIt.skip_visited gr visited (b :: c)) as [|a c'] eqn:Hskip.
    + exists (<[s := []]> nedge), visited, [], s. split; [done|].
      eapply uwalked_skips; [done|]. rewrite Hskip.
      constructor. apply lookup_insert_eq.
    + pose proof (skip_visited_suffix gr visited (b :: c)) as Hsuf.
      rewrite Hskip in Hsuf.
      assert (a ∈ b :: c) as Hab.
      { eapply suffix_subseteq; [done|]. apply list_elem_of_here. }
      destruct (IH (<[s := c']> nedge) ({[edge gr a]} ∪ visited)
                  (before ++ [a]) (target gr a))
        as (nedge' & visited' & W & s' & Hrun & Hw).
      * eapply cursors_closed_insert; [done..|].
        intros x Hx. eapply suffix_subseteq; [done|].
        by apply list_elem_of_further.
      * eapply insert_dom; [done|]. by eapply Hcl.
      * pose proof (cursor_total_insert _ _ _ c' Hs) as Htot.
        apply suffix_length in Hsuf. simpl in *. lia.
      * exists nedge', visited', (a :: W), s'. rewrite Hrun.
        split; [by rewrite <-app_assoc|].
        eapply uwalked_skips; [done|]. rewrite Hskip.
        eapply uwalked_take;
          [apply lookup_insert_eq | by eapply skip_visited_head |].
        by rewrite insert_insert_eq.
Qed.

Lemma u_ctor_walk_uwalked fuel nedge visited euler s :
  cursors_closed gr nedge → is_Some (nedge !! s) →
  cursor_total nedge ≤ fuel →
  (∀ a c, nedge !! s = Some (a :: c) → edge gr a ∉ visited) →
  ∃ nedge' visited' W s',
    EulerIt.ctor_walk fuel gr nedge visited euler s
    = Ok (nedge', visited', euler ++ W) ∧
    uwalked gr nedge visited s W nedge' visited' s'.
Proof.
  revert nedge visited euler s.
  induction fuel as [|fuel IH];
    intros nedge visited euler s Hcl [c Hs] Hfuel Hhead;
    cbn [EulerIt.ctor_walk]; rewrite Hs; destruct c as [|a c].
  - exists nedge, visited, [], s. rewrite app_nil_r.
    split; [done|by constructor].
  - pose proof (cursor_total_pop _ _ _ _ Hs). lia.
  - exists nedge, visited, [], s. rewrite app_nil_r.
    split; [done|by constructor].
  - assert (is_Some (<[s := c]> nedge !! target gr a)) as [c' Hc'].
    { eapply insert_dom; [done|]. eapply Hcl; [done|].
      apply list_elem_of_here. }
    rewrite Hc'.
    pose proof (skip_visited_suffix gr ({[edge gr a]} ∪ visited) c') as Hsuf.
    assert (cursors_closed gr (<[s := c]> nedge)) as Hcl'.
    { eapply cursors_closed_insert; [done..|]. set_solver. }
    destruct (IH (<[target gr a :=
                    EulerIt.skip_visited gr ({[edge gr a]} ∪ visited) c']>
                    (<[s := c]> nedge))
                ({[edge gr a]} ∪ visited) (euler ++ [a]) (target gr a))
      as (nedge' & visited' & W & s' & Hrun & Hw).
    + eapply cursors_closed_insert; [done..|]. by apply suffix_subseteq.
    + rewrite lookup_insert_eq. eauto.
    + pose proof (cursor_total_pop _ _ _ _ Hs).
      pose proof (cursor_total_suffix _ _ _ _ Hc' Hsuf). lia.
    + intros b d. rewrite lookup_insert_eq. intros [= Hskip].
      by eapply skip_visited_head.
    + exists nedge', visited', (a :: W), s'. rewrite Hrun.
      split; [by rewrite <-app_assoc|].
      eapply uwalked_take; [done|by eapply Hhead|].
      by eapply uwalked_skips.
Qed.

Lemma uwalked_end nedge visited s W nedge' visited' s' :
  uwalked gr nedge visited s W nedge' visited' s' → nedge' !! s' = Some [].
Proof. induction 1; auto. Qed.

Lemma uwalked_exhausted nedge visited s W nedge' visited' s' n :
  uwalked gr nedge visited s W nedge' visited' s' →
  nedge !! n = Some [] → nedge' !! n = Some [].
Proof.
  induction 1 as [|nedge visited s a c W nedge' visited' s' Hs _ _ IH
                  |nedge visited s a c W nedge' visited' s' Hs _ _ IH];
    [done|..]; intros Hn; apply IH; rewrite lookup_insert_ne; congruence.
Qed.

Lemma ucursors_inv_perm nedge visited X X' :
  X ≡ₚ X' → ucursors_inv gr nedge visited X → ucursors_inv gr nedge visited X'.
Proof.
  intros HX [Hsuf Hdom Hvis Harcs Hnd]. split; [done..| | |].
  - intros e. by rewrite <-HX.
  - intros a Ha. rewrite <-HX in Ha. auto.
  - by rewrite <-HX.
Qed.

Lemma ucursors_inv_cursor nedge visited X n c a :
  ucursors_inv gr nedge visited X → nedge !! n = Some c → a ∈ c →
  n ∈ nodes gr ∧ a ∈ outArcs gr n.
Proof.
  intros [Hsuf Hdom _ _ _] Hn Ha.
  assert (n ∈ nodes gr) as Hin by (apply Hdom; eauto).
  split; [done|]. destruct (Hsuf n Hin) as (u & c' & Hn' & -> & _).
  simplify_eq. apply elem_of_app. by right.
Qed.

Lemma ucursors_inv_closed nedge visited X :
  wf gr → ucursors_inv gr nedge visited X → cursors_closed gr nedge.
Proof.
  intros Hwf Hinv n c a Hn Ha.
  destruct (ucursors_inv_cursor _ _ _ _ _ _ Hinv Hn Ha) as [Hin Hout].
  pose proof (wf_out_target gr n a Hwf Hin Hout) as Ht.
  destruct (uc_suffix _ _ _ _ Hinv _ Ht) as (u & d & Hd & _). eauto.
Qed.

Lemma ucursors_inv_pass nedge visited visited' X X' s a c :
  ucursors_inv gr nedge visited X → nedge !! s = Some (a :: c) →
  visited ⊆ visited' → edge gr a ∈ visited' →
  (∀ e, e ∈ visited' ↔ e ∈ edge gr <$> X') →
  (∀ b, b ∈ X' → b ∈ arcs gr) → NoDup (edge gr <$> X') →
  ucursors_inv gr (<[s := c]> nedge) visited' X'.
Proof.
  intros Hinv Hs Hsub Ha Hvis Harcs Hnd.
  destruct (ucursors_inv_cursor _ _ _ _ _ a Hinv Hs) as [Hin Hout];
    [apply list_elem_of_here|].
  destruct (uc_suffix _ _ _ _ Hinv _ Hin) as (u & c0 & Hc0 & Hsplit & Hu).
  assert (c0 = a :: c) as -> by congruence.
  split; [| |done..].
  - intros n Hn. destruct (decide (s = n)) as [<-|Hne].
    + exists (u ++ [a]), c. rewrite lookup_insert_eq.
      split_and!; [done|by rewrite <-app_assoc|].
      intros b [Hb| ->%list_elem_of_singleton]%elem_of_app; auto.
    + destruct (uc_suffix _ _ _ _ Hinv _ Hn) as (u' & c' & ? & ? & Hu').
      exists u', c'. rewrite lookup_insert_ne by done.
      split_and!; [done..|]. auto.
  - intros n Hn. destruct (decide (s = n)) as [<-|Hne]; [done|].
    rewrite lookup_insert_ne in Hn by done. by apply (uc_dom _ _ _ _ Hinv).
Qed.

Lemma ucursors_inv_skip nedge visited X s a c :
  ucursors_inv gr nedge visited X → nedge !! s = Some (a :: c) →
  edge gr a ∈ visited → ucursors_inv gr (<[s := c]> nedge) visited X.
Proof.
  intros Hinv Hs Ha. eapply ucursors_inv_pass; [done..| | |].
  - apply (uc_visited _ _ _ _ Hinv).
  - apply (uc_arcs _ _ _ _ Hinv).
  - apply (uc_nodup _ _ _ _ Hinv).
Qed.

Lemma ucursors_inv_take nedge visited X s a c :
  ucursors_inv gr nedge visited X → nedge !! s = Some (a :: c) →
  edge gr a ∉ visited →
  ucursors_inv gr (<[s := c]> nedge) ({[edge gr a]} ∪ visited) (a :: X).
Proof.
  intros Hinv Hs Ha.
  destruct (ucursors_inv_cursor _ _ _ _ _ a Hinv Hs) as [Hin Hout];
    [apply list_elem_of_here|].
  eapply ucursors_inv_pass; [done..| | | | |].
  - apply union_subseteq_r.
  - apply elem_of_union_l. by apply elem_of_singleton.
  - intros e. rewrite fmap_cons, elem_of_cons, elem_of_union,
      elem_of_singleton. by rewrite (uc_visited _ _ _ _ Hinv).
  - intros b [->|Hb]%elem_of_cons; [|by apply (uc_arcs _ _ _ _ Hinv)].
    apply elem_of_arcs. eauto.
  - rewrite fmap_cons. apply NoDup_cons.
    split; [|apply (uc_nodup _ _ _ _ Hinv)].
    by rewrite <-(uc_visited _ _ _ _ Hinv).
Qed.

Lemma uwalked_inv nedge visited s W nedge' visited' s' X :
  uwalked gr nedge visited s W nedge' visited' s' →
  ucursors_inv gr nedge visited X → ucursors_inv gr nedge' visited' (W ++ X).
Proof.
  intros Hw. revert X.
  induction Hw as [|nedge visited s a c W nedge' visited' s' Hs Ha _ IH
                   |nedge visited s a c W nedge' visited' s' Hs Ha _ IH];
    intros X Hinv; [done|..].
  - apply IH. by eapply ucursors_inv_skip.
  - apply (ucursors_inv_perm _ _ (W ++ a :: X)).
    { by rewrite <-Permutation_middle. }
    apply IH. by apply ucursors_inv_take.
Qed.

Lemma uwalked_chained nedge visited s W nedge' visited' s' X :
  wf gr → uwalked gr nedge visited s W nedge' visited' s' →
  ucursors_inv gr nedge visited X → s ∈ nodes gr →
  chained gr s W ∧ trail_end gr s W = s' ∧ s' ∈ nodes gr.
Proof.
  intros Hwf Hw. revert X.
  induction Hw as [|nedge visited s a c W nedge' visited' s' Hs Ha Hw IH
                   |nedge visited s a c W nedge' visited' s' Hs Ha Hw IH];
    intros X Hinv Hin; [done|..].
  - apply (IH X); [|done]. by eapply ucursors_inv_skip.
  - destruct (ucursors_inv_cursor _ _ _ _ _ a Hinv Hs) as [_ Hout];
      [apply list_elem_of_here|].
    destruct (IH (a :: X)) as (? & ? & ?).
    + by apply ucursors_inv_take.
    + by eapply wf_out_target.
    + simpl. split_and!; [by eapply wf_out_source|done..].
Qed.

End uwalk.

(** ** The undirected iterator over a graph with even degrees *)

Lemma init_nedge_uinv `{Graph GR} (gr : GR) :
  ucursors_inv gr (init_nedge gr) ∅ [].
Proof.
  split.
  - intros n Hn. exists [], (outArcs gr n).
    rewrite init_nedge_lookup, decide_True by done.
    split_and!; [done..|]. intros a Ha. by apply not_elem_of_nil in Ha.
  - intros n [c Hc]. rewrite init_nedge_lookup in Hc. by case_decide.
  - intros e. split; [by intros ?%not_elem_of_empty|].
    by intros ?%not_elem_of_nil.
  - intros a Ha. by apply not_elem_of_nil in Ha.
  - constructor.
Qed.

Section u_eulerian_tour.
Context {GR : Type} `{Graph GR} (gr : GR).
Hypothesis Huwf : uwf gr.
Hypothesis Heven : even_degrees gr.

(** In a graph whose nodes have even degree, once the arcs taken so far
    enter every node as often as they leave it, a walk can only get stuck
    where it started. *)
Lemma uwalked_returns nedge visited s W nedge' visited' s' X :
  ucursors_inv gr nedge visited X →
  (∀ v, out_count gr v X = in_count gr v X) →
  s ∈ nodes gr → uwalked gr nedge visited s W nedge' visited' s' → s' = s.
Proof.
  intros Hinv HX Hin Hw. pose proof (uwf_wf gr Huwf) as Hwf.
  destruct (uwalked_chained gr _ _ _ _ _ _ _ X Hwf Hw Hinv Hin)
    as (Hch & Hend & Hin').
  pose proof (uwalked_inv gr _ _ _ _ _ _ _ X Hw Hinv) as Hinv'.
  pose proof (incident_le gr Huwf (W ++ X) (uc_arcs _ _ _ _ Hinv')
                (uc_nodup _ _ _ _ Hinv') s') as Hle.
  assert (length (outArcs gr s')
          ≤ out_count gr s' (W ++ X) + in_count gr s' (W ++ X)) as Hge.
  { apply (incident_ge gr Huwf (W ++ X) (uc_arcs _ _ _ _ Hinv') s' Hin').
    intros a Ha.
    destruct (uc_suffix _ _ _ _ Hinv' _ Hin') as (u & c & Hc & Hout & Hu).
    rewrite (uwalked_end gr _ _ _ _ _ _ _ Hw) in Hc. simplify_eq.
    rewrite Hout, app_nil_r in Ha.
    by apply (uc_visited _ _ _ _ Hinv'), Hu. }
  pose proof (chained_balance gr s W s' Hch) as Hb.
  rewrite out_count_app, in_count_app in *.
  specialize (HX s'). destruct (Heven s' Hin') as [k Hk].
  unfold countIncEdges in Hk.
  rewrite Hend in Hb. rewrite decide_True in Hb by done.
  case_decide; [done|lia].
Qed.

Lemma u_eul_ctor_inv s it :
  s ∈ nodes gr → EulerIt.ctor gr (Some s) = Ok it → u_eul_inv gr s [] it.
Proof.
  intros Hs Hctor. pose proof (uwf_wf gr Huwf) as Hwf.
  destruct (u_ctor_walk_uwalked gr (cursor_total (init_nedge gr))
              (init_nedge gr) ∅ [] s)
    as (nedge' & visited' & W & s' & Hrun & Hw).
  { by apply init_nedge_closed, wf_closed. }
  { rewrite init_nedge_lookup, decide_True by done. eauto. }
  { done. }
  { intros a c _. apply not_elem_of_empty. }
  unfold EulerIt.ctor in Hctor. rewrite Hrun in Hctor. simpl in Hctor.
  simplify_eq.
  pose proof (init_nedge_uinv gr) as Hinit.
  assert (s' = s) as ->.
  { eapply uwalked_returns; [done| |done|done]. done. }
  destruct (uwalked_chained gr _ _ _ _ _ _ _ [] Hwf Hw Hinit Hs)
    as (Hch & Hend & _).
  pose proof (uwalked_inv gr _ _ _ _ _ _ _ [] Hw Hinit) as Hinv.
  rewrite app_nil_r in Hinv.
  split_and!; simpl; try done.
  - by eapply uwalked_end.
  - intros a Ha. by apply not_elem_of_nil in Ha.
Qed.

Lemma u_eul_incr_inv s0 et it a rest :
  u_eul_inv gr s0 et it → EulerIt.euler it = a :: rest →
  ∃ it', EulerIt.incr it = Ok (tt, it') ∧ u_eul_inv gr s0 (et ++ [a]) it' ∧
         u_measure it' < u_measure it.
Proof.
  intros (Hg & Hs0 & Hinv & Hch & Hend & Hex0 & Hex) He.
  pose proof (uwf_wf gr Huwf) as Hwf.
  rewrite He in Hinv, Hch, Hend.
  assert (a ∈ arcs gr) as Ha.
  { apply (uc_arcs _ _ _ _ Hinv). set_solver. }
  pose proof (wf_arc_target gr a Hwf Ha) as Hta.
  destruct (uc_suffix _ _ _ _ Hinv _ Hta) as (u & c & Hc & _).
  destruct (u_incr_walk_uwalked gr (cursor_total (EulerIt.nedge it))
              (EulerIt.nedge it) (EulerIt.visited it) [] rest (target gr a))
    as (nedge' & visited' & W & s' & Hrun & Hw);
    [by eapply ucursors_inv_closed | eauto | done |].
  assert (EulerIt.incr it
          = Ok (tt, EulerIt.Build gr nedge' visited' (W ++ rest))) as Hincr.
  { unfold EulerIt.incr. by rewrite He, Hg, Hrun. }
  assert (s' = target gr a) as ->.
  { eapply uwalked_returns; [done| |done|done].
    intros v. by eapply closed_trail_balance. }
  destruct (uwalked_chained gr _ _ _ _ _ _ _ _ Hwf Hw Hinv Hta)
    as (HchW & HendW & _).
  apply chained_app in Hch as [Hch1 [Hsa Hch2]].
  rewrite trail_end_app in Hend. simpl in Hend.
  eexists. split; [exact Hincr|]. split.
  - split_and!; simpl; try done.
    + apply (ucursors_inv_perm _ _ _ (W ++ et ++ a :: rest)).
      * rewrite <-!app_assoc. simpl.
        rewrite (Permutation_app_comm W (et ++ a :: rest)), <-!app_assoc.
        simpl. apply Permutation_app_head, perm_skip, Permutation_app_comm.
      * by eapply uwalked_inv.
    + rewrite <-app_assoc. apply chained_app. split; [done|].
      simpl. split; [done|]. apply chained_app. by rewrite HendW.
    + rewrite <-app_assoc, trail_end_app. simpl.
      by rewrite trail_end_app, HendW.
    + by eapply uwalked_exhausted.
    + intros b [Hb| ->%list_elem_of_singleton]%elem_of_app.
      * eapply uwalked_exhausted; eauto.
      * by eapply uwalked_end.
  - by apply u_incr_measure.
Qed.

Lemma u_eul_tour_inv s :
  s ∈ nodes gr →
  ∃ et it, EulerIt.tour gr (Some s) = Ok et ∧ u_eul_inv gr s et it ∧
           EulerIt.euler it = [].
Proof.
  intros Hs.
  destruct (u_ctor_inv gr (Some s) (wf_closed gr (uwf_wf gr Huwf)) Hs)
    as (it & Hctor & _).
  unfold EulerIt.tour. rewrite Hctor. simpl.
  apply (u_collect_inv (u_eul_inv gr s)); [|done|by eapply u_eul_ctor_inv].
  intros et it' a rest. by apply u_eul_incr_inv.
Qed.

(** Once the trail is empty, every edge that touches a node of the emitted
    trail is the edge of an emitted arc. *)
Section exhausted.
Context (s0 : nat) (et : list nat) (it : EulerIt.t GR).
Hypothesis Hinv : u_eul_inv gr s0 et it.
Hypothesis Hnil : EulerIt.euler it = [].

Lemma u_on_trail_ends a :
  a ∈ et → on_trail gr s0 et (source gr a) ∧ on_trail gr s0 et (target gr a).
Proof.
  intros Ha. split; [|right; eauto].
  destruct Hinv as (_ & _ & _ & Hch & _). rewrite Hnil, app_nil_r in Hch.
  destruct (chained_source gr s0 et a Hch Ha) as [->|(b & Hb & Hs)];
    [by left | right; eauto].
Qed.

Lemma u_on_trail_out v a :
  on_trail gr s0 et v → a ∈ outArcs gr v →
  edge gr a ∈ edge gr <$> et ∧ on_trail gr s0 et (target gr a).
Proof.
  intros Hv Ha. pose proof (uwf_wf gr Huwf) as Hwf.
  destruct Hinv as (Hg & Hs0 & Hci & Hch & Hend & Hex0 & Hex).
  rewrite Hnil, app_nil_r in Hci.
  assert (v ∈ nodes gr ∧ EulerIt.nedge it !! v = Some []) as [Hin Hexv].
  { destruct Hv as [->|(b & Hb & <-)]; [done|]. split; [|auto].
    by apply wf_arc_target, (uc_arcs _ _ _ _ Hci). }
  assert (edge gr a ∈ edge gr <$> et) as He.
  { destruct (uc_suffix _ _ _ _ Hci _ Hin) as (u & c & Hc & Hout & Hu).
    simplify_eq. rewrite Hout, app_nil_r in Ha.
    by apply (uc_visited _ _ _ _ Hci), Hu. }
  split; [done|].
  apply list_elem_of_fmap in He as (x & He & Hx).
  assert (a ∈ arcs gr) as Harc by (apply elem_of_arcs; eauto).
  destruct (oppositeArc_spec gr a Huwf Harc) as (_ & _ & _ & Hs & _ & Honly).
  destruct (Honly x (uc_arcs _ _ _ _ Hci x Hx)) as [->| ->]; [done| |].
  - by apply u_on_trail_ends.
  - rewrite <-Hs. by apply u_on_trail_ends.
Qed.

Lemma u_on_trail_adjacent v x :
  v ∈ nodes gr → x ∈ outArcs gr v →
  target gr x ∈ nodes gr ∧
  (on_trail gr s0 et v ↔ on_trail gr s0 et (target gr x)).
Proof.
  intros Hv Hx. pose proof (uwf_wf gr Huwf) as Hwf.
  split; [by eapply wf_out_target|]. split.
  - intros Hon. by eapply u_on_trail_out.
  - intros Hon.
    assert (x ∈ arcs gr) as Harc by (apply elem_of_arcs; eauto).
    destruct (oppositeArc_spec gr x Huwf Harc) as (_ & _ & _ & _ & Ht & _).
    rewrite <-(wf_out_source gr v x Hwf Hv Hx), <-Ht.
    eapply u_on_trail_out; [done|]. by apply oppositeArc_out.
Qed.

Lemma u_exhausted_tour_complete a :
  connected gr = true → a ∈ arcs gr → edge gr a ∈ edge gr <$> et.
Proof.
  intros Hconn (n & Hn & Ha)%elem_of_arcs.
  pose proof Hinv as (_ & Hs0 & _).
  destruct (nodes gr) as [|n0 ns] eqn:Hnodes;
    [by apply not_elem_of_nil in Hs0|].
  assert (∀ v, v ∈ nodes gr →
            v ∈ nodes gr ∧ (on_trail gr s0 et v ↔ on_trail gr s0 et n0))
    as Hall.
  { apply (connected_closed_set gr _ n0 ns Hconn Hnodes).
    - intros v x [Hv Hiff] Hx.
      destruct (u_on_trail_adjacent v x Hv Hx) as [? Hiff'].
      split; [done|]. by rewrite <-Hiff'.
    - split; [|done]. rewrite Hnodes. apply list_elem_of_here. }
  rewrite <-Hnodes in Hs0, Hn.
  assert (on_trail gr s0 et n0) as Hn0.
  { apply (Hall s0 Hs0). by left. }
  eapply u_on_trail_out; [|done]. by apply (Hall n Hn).
Qed.

Lemma u_exhausted_tour_closed : closed_tour gr et.
Proof.
  destruct Hinv as (_ & _ & _ & Hch & Hend & _).
  rewrite Hnil, app_nil_r in Hch, Hend.
  unfold closed_tour. destruct et as [|a l] eqn:Het; [done|].
  rewrite <-(trail_end_last gr s0) by done. rewrite Hend.
  by destruct Hch as [-> _].
Qed.

End exhausted.

End u_eulerian_tour.

(** X3.  On every undirected graph for which [eulerian] returns true, the
    sequence [EulerIt] produces, from the default start or from any node
    given as start, consists of arcs of the graph, runs along every edge of
    the graph exactly once, and is closed: its last arc ends at the node its
    first arc starts from. *)
Theorem u_tour_eulerian_complete `{Graph GR} (gr : GR) (start : option nat) :
  uwf gr → valid_start gr start → Undirected.eulerian gr = true →
  ∃ et, EulerIt.tour gr start = Ok et ∧
        NoDup (edge gr <$> et) ∧ (∀ a, a ∈ et → a ∈ arcs gr) ∧
        (∀ a, a ∈ arcs gr → edge gr a ∈ edge gr <$> et) ∧
        closed_tour gr et.
Proof.
  intros Huwf Hstart [Heven Hconn]%undirected_eulerian_iff.
  assert (∀ s, s ∈ nodes gr →
            ∃ et, EulerIt.tour gr (Some s) = Ok et ∧
                  NoDup (edge gr <$> et) ∧ (∀ a, a ∈ et → a ∈ arcs gr) ∧
                  (∀ a, a ∈ arcs gr → edge gr a ∈ edge gr <$> et) ∧
                  closed_tour gr et)
    as Hsome.
  { intros s Hs.
    destruct (u_eul_tour_inv gr Huwf Heven s Hs)
      as (et & it & Htour & Hinv & Hnil).
    pose proof Hinv as (_ & _ & Hci & _). rewrite Hnil, app_nil_r in Hci.
    exists et. split_and!; [done| | | |].
    - apply (uc_nodup _ _ _ _ Hci).
    - apply (uc_arcs _ _ _ _ Hci).
    - intros a Ha. by eapply u_exhausted_tour_complete.
    - by eapply u_exhausted_tour_closed. }
  destruct start as [s|]; [by apply Hsome|].
  rewrite u_tour_default.
  destruct (first_with_out_arc gr (nodes gr)) as [s|] eqn:Hfirst.
  - apply first_with_out_arc_Some in Hfirst as [Hs _]. by apply Hsome.
  - exists []. split_and!; [done|constructor| | |done].
    + by intros a ?%not_elem_of_nil.
    + intros a (n & Hn & Ha)%elem_of_arcs.
      rewrite (proj1 (first_with_out_arc_None gr (nodes gr)) Hfirst n Hn) in Ha.
      by apply not_elem_of_nil in Ha.
Qed.

Lemma u_tour_eulerian_complete_witness :
  ∃ et, EulerIt.tour ufig8 (Some 1) = Ok et ∧
        NoDup (edge ufig8 <$> et) ∧ (∀ a, a ∈ et → a ∈ arcs ufig8) ∧
        (∀ a, a ∈ arcs ufig8 → edge ufig8 a ∈ edge ufig8 <$> et) ∧
        closed_tour ufig8 et.
Proof.
  apply (u_tour_eulerian_complete ufig8 (Some 1)).
  - apply (bool_decide_unpack _). vm_compute. reflexivity.
  - apply (bool_decide_unpack _). vm_compute. reflexivity.
  - vm_compute. reflexivity.
Defined.

(** X4.  On an undirected graph whose nodes all have even degree, connected
    or not, the sequence [EulerIt] produces is a closed trail through the
    node [s] the walk starts from (the start node given, or the first node
    with an out-arc): no edge is repeated, the first arc leaves [s], every
    other arc leaves the node the arc before it enters, and the last arc
    enters [s]. *)
Theorem u_tour_even_closed_trail `{Graph GR} (gr : GR)
    (start : option nat) (s : nat) :
  uwf gr → even_degrees gr → valid_start gr start → origin gr start = Some s →
  ∃ et, EulerIt.tour gr start = Ok et ∧
        NoDup (edge gr <$> et) ∧ chained gr s et ∧ trail_end gr s et = s.
Proof.
  intros Huwf Heven Hstart Ho. rewrite (u_tour_origin gr start s Ho).
  pose proof (origin_valid gr start s Hstart Ho) as Hs.
  destruct (u_eul_tour_inv gr Huwf Heven s Hs)
    as (et & it & Htour & (_ & _ & Hci & Hch & Hend & _) & Hnil).
  rewrite Hnil, app_nil_r in Hci, Hch, Hend.
  exists et. split_and!; [done| |done..]. apply (uc_nodup _ _ _ _ Hci).
Qed.

Lemma u_tour_even_closed_trail_witness :
  ∃ et, EulerIt.tour ufig8 (Some 3) = Ok et ∧
        NoDup (edge ufig8 <$> et) ∧ chained ufig8 3 et ∧
        trail_end ufig8 3 et = 3.
Proof.
  apply (u_tour_even_closed_trail ufig8 (Some 3) 3).
  - apply (bool_decide_unpack _). vm_compute. reflexivity.
  - intros n Hn. apply Even_mod.
    repeat (apply elem_of_cons in Hn as [->|Hn]; [vm_compute; reflexivity|]).
    by apply not_elem_of_nil in Hn.
  - apply (bool_decide_unpack _). vm_compute. reflexivity.
  - vm_compute. reflexivity.
Defined.

(** X5.  On such a graph the sequence produced runs along exactly the
    edges of the component of the node [s] the walk starts from: an arc of
    the graph has its edge on the tour if and only if a path joins [s] to
    the source of the arc. *)
Theorem u_tour_even_component `{Graph GR} (gr : GR)
    (start : option nat) (s : nat) :
  uwf gr → even_degrees gr → valid_start gr start → origin gr start = Some s →
  ∃ et, EulerIt.tour gr start = Ok et ∧
        ∀ a, a ∈ arcs gr →
             (edge gr a ∈ edge gr <$> et ↔ rtc (adjacent gr) s (source gr a)).
Proof.
  intros Huwf Heven Hstart Ho. rewrite (u_tour_origin gr start s Ho).
  pose proof (origin_valid gr start s Hstart Ho) as Hs.
  pose proof (uwf_wf gr Huwf) as Hwf.
  destruct (u_eul_tour_inv gr Huwf Heven s Hs)
    as (et & it & Htour & Hinv & Hnil).
  pose proof Hinv as (_ & _ & Hci & Hch & _).
  rewrite Hnil, app_nil_r in Hci, Hch.
  exists et. split; [done|]. intros a Ha. split.
  - intros (x & He & Hx)%list_elem_of_fmap.
    pose proof (uc_arcs _ _ _ _ Hci x Hx) as Hxa.
    pose proof (chained_reach gr s et x Hwf (uc_arcs _ _ _ _ Hci) Hch Hx)
      as Hreach.
    destruct (oppositeArc_spec gr x Huwf Hxa) as (_ & _ & _ & Hso & _ & Honly).
    destruct (Honly a Ha) as [->| ->]; [done..|].
    rewrite Hso. eapply rtc_r; [done|]. exists x.
    split; [by apply wf_arc_source|done].
  - intros Hrtc.
    assert (source gr a ∈ nodes gr ∧ on_trail gr s et (source gr a))
      as [_ Hon].
    { revert Hrtc. generalize (source gr a).
      refine (rtc_ind_r (λ v, v ∈ nodes gr ∧ on_trail gr s et v) s _ _).
      - split; [done|by left].
      - intros u v _ (x & Hx & <-) [Hu Hon].
        destruct (u_on_trail_adjacent gr Huwf Heven s et it Hinv Hnil u x Hu Hx)
          as [Hv Hiff].
        split; [done|]. by apply Hiff. }
    eapply (u_on_trail_out gr Huwf Heven s et it Hinv Hnil); [done|].
    by apply wf_arc_source.
Qed.

Lemma u_tour_even_component_witness :
  ∃ et, EulerIt.tour isolated_triangle None = Ok et ∧
        ∀ a, a ∈ arcs isolated_triangle →
             (edge isolated_triangle a ∈ edge isolated_triangle <$> et
              ↔ rtc (adjacent isolated_triangle) 1
                    (source isolated_triangle a)).
Proof.
  apply (u_tour_even_component isolated_triangle None 1).
  - apply (bool_decide_unpack _). vm_compute. reflexivity.
  - intros n Hn. apply Even_mod.
    repeat (apply elem_of_cons in Hn as [->|Hn]; [vm_compute; reflexivity|]).
    by apply not_elem_of_nil in Hn.
  - apply (bool_decide_unpack _). vm_compute. reflexivity.
  - vm_compute. reflexivity.
Defined.

(** ** Where a tour begins *)

Lemma di_tour_head `{Digraph GR} (gr : GR) s a c et :
  s ∈ nodes gr → outArcs gr s = a :: c →
  DiEulerIt.tour gr (Some s) = Ok et → ∃ et', et = a :: et'.
Proof.
  intros Hs Hout Htour. unfold DiEulerIt.tour, DiEulerIt.ctor in Htour.
  rewrite ctor_walk_incr_walk in Htour.
  destruct (DiEulerIt.incr_walk _ gr (init_nedge gr) [] [] s)
    as [[nedge' l]| |] eqn:Hrun; [|done..].
  assert (∃ l', l = a :: l') as (l' & ->).
  { assert (init_nedge gr !! s = Some (a :: c)) as Hl
      by by rewrite init_nedge_lookup, decide_True, Hout.
    destruct (cursor_total (init_nedge gr)); simpl in Hrun; rewrite Hl in Hrun;
      [done|].
    apply di_incr_walk_shape in Hrun as [W ->]. simpl. eauto. }
  simpl in Htour.
  destruct (DiEulerIt.incr _) as [[[] it']| |]; [|done..]. simpl in Htour.
  apply di_collect_prefix in Htour as [et' ->]. simpl. eauto.
Qed.

Lemma u_tour_head `{Graph GR} (gr : GR) s a c et :
  s ∈ nodes gr → outArcs gr s = a :: c →
  EulerIt.tour gr (Some s) = Ok et → ∃ et', et = a :: et'.
Proof.
  intros Hs Hout Htour. unfold EulerIt.tour, EulerIt.ctor in Htour.
  destruct (EulerIt.ctor_walk _ gr (init_nedge gr) ∅ [] s)
    as [[[nedge' visited'] l]| |] eqn:Hrun; [|done..].
  assert (∃ l', l = a :: l') as (l' & ->).
  { assert (init_nedge gr !! s = Some (a :: c)) as Hl
      by by rewrite init_nedge_lookup, decide_True, Hout.
    destruct (cursor_total (init_nedge gr));
      cbn [EulerIt.ctor_walk] in Hrun; rewrite Hl in Hrun; [done|].
    destruct (<[s := c]> (init_nedge gr) !! target gr a); [|done].
    apply u_ctor_walk_shape in Hrun as [W ->]. simpl. eauto. }
  simpl in Htour.
  destruct (EulerIt.incr _) as [[[] it']| |]; [|done..]. simpl in Htour.
  apply u_collect_prefix in Htour as [et' ->]. simpl. eauto.
Qed.

(** X6.  The sequence either iterator produces begins with the first
    out-arc of the node the walk starts from: the start node given, or,
    when none is given, the first node that has an out-arc (which need not
    be the first node of the graph). *)
Theorem tour_first_arc {GR GR' : Type} `{Digraph GR} `{Graph GR'}
    (dg : GR) (dstart : option nat) (ds a : nat) (c : list nat)
    (ug : GR') (ustart : option nat) (us b : nat) (d : list nat) :
  wf dg → valid_start dg dstart →
  origin dg dstart = Some ds → outArcs dg ds = a :: c →
  closed ug → valid_start ug ustart →
  origin ug ustart = Some us → outArcs ug us = b :: d →
  (∃ et, DiEulerIt.tour dg dstart = Ok (a :: et)) ∧
  (∃ et, EulerIt.tour ug ustart = Ok (b :: et)).
Proof.
  intros Hwf Hds Hdo Hdout Hcl Hus Huo Huout. split.
  - destruct (di_tour_inv dg dstart Hwf Hds) as (et & _ & Htour & _).
    pose proof (origin_valid dg dstart ds Hds Hdo) as Hin.
    assert (DiEulerIt.tour dg dstart = DiEulerIt.tour dg (Some ds)) as Heq.
    { destruct dstart as [s|]; simpl in Hdo; [by simplify_eq|].
      by rewrite di_tour_default, Hdo. }
    rewrite Heq in Htour |- *.
    destruct (di_tour_head dg ds a c et Hin Hdout Htour) as [et' ->]. eauto.
  - destruct (u_tour_inv ug ustart Hcl Hus) as (et & _ & Htour & _).
    pose proof (origin_valid ug ustart us Hus Huo) as Hin.
    assert (EulerIt.tour ug ustart = EulerIt.tour ug (Some us)) as Heq.
    { destruct ustart as [s|]; simpl in Huo; [by simplify_eq|].
      by rewrite u_tour_default, Huo. }
    rewrite Heq in Htour |- *.
    destruct (u_tour_head ug us b d et Hin Huout Htour) as [et' ->]. eauto.
Qed.

Lemma tour_first_arc_witness :
  (∃ et, DiEulerIt.tour sink_first None = Ok (0 :: et)) ∧
  (∃ et, EulerIt.tour isolated_first None = Ok (1 :: et)).
Proof.
  apply (tour_first_arc sink_first None 1 0 [] isolated_first None 1 1 []).
  - apply (bool_decide_unpack _). vm_compute. reflexivity.
  - apply (bool_decide_unpack _). vm_compute. reflexivity.
  - vm_compute. reflexivity.
  - vm_compute. reflexivity.
  - apply (bool_decide_unpack _). vm_compute. reflexivity.
  - apply (bool_decide_unpack _). vm_compute. reflexivity.
  - vm_compute. reflexivity.
  - vm_compute. reflexivity.
Defined.

(** ** The arcs a tour is made of *)

Section u_general.
Context {GR : Type} `{Graph GR} (gr : GR).
Hypothesis Hwf : wf gr.

Lemma u_gen_incr_inv et it a rest :
  u_gen_inv gr et it → EulerIt.euler it = a :: rest →
  ∃ it', EulerIt.incr it = Ok (tt, it') ∧ u_gen_inv gr (et ++ [a]) it' ∧
         u_measure it' < u_measure it.
Proof.
  intros [Hg [Hinv|[_ Hnil]]] He; [|congruence]. rewrite He in Hinv.
  assert (a ∈ arcs gr) as Ha.
  { apply (uc_arcs _ _ _ _ Hinv). set_solver. }
  destruct (uc_suffix _ _ _ _ Hinv _ (wf_arc_target gr a Hwf Ha))
    as (u & c & Hc & _).
  destruct (u_incr_walk_uwalked gr (cursor_total (EulerIt.nedge it))
              (EulerIt.nedge it) (EulerIt.visited it) [] rest (target gr a))
    as (nedge' & visited' & W & s' & Hrun & Hw);
    [by eapply ucursors_inv_closed | eauto | done |].
  assert (EulerIt.incr it
          = Ok (tt, EulerIt.Build gr nedge' visited' (W ++ rest))) as Hincr.
  { unfold EulerIt.incr. by rewrite He, Hg, Hrun. }
  eexists. split; [exact Hincr|]. split; [|by apply u_incr_measure].
  split; [done|]. left. simpl.
  apply (ucursors_inv_perm _ _ _ (W ++ et ++ a :: rest)).
  - rewrite <-!app_assoc. simpl.
    rewrite (Permutation_app_comm W (et ++ a :: rest)), <-!app_assoc.
    simpl. apply Permutation_app_head, perm_skip, Permutation_app_comm.
  - by eapply uwalked_inv.
Qed.

Lemma u_gen_ctor_inv start :
  valid_start gr start →
  ∃ it, EulerIt.ctor gr start = Ok it ∧ u_gen_inv gr [] it.
Proof.
  intros Hstart.
  assert (∀ s, s ∈ nodes gr →
            ∃ it, EulerIt.ctor gr (Some s) = Ok it ∧ u_gen_inv gr [] it)
    as Hsome.
  { intros s Hs.
    destruct (u_ctor_walk_uwalked gr (cursor_total (init_nedge gr))
                (init_nedge gr) ∅ [] s)
      as (nedge' & visited' & W & s' & Hrun & Hw).
    { by apply init_nedge_closed, wf_closed. }
    { rewrite init_nedge_lookup, decide_True by done. eauto. }
    { done. }
    { intros a c _. apply not_elem_of_empty. }
    exists (EulerIt.Build gr nedge' visited' W). split.
    { unfold EulerIt.ctor. by rewrite Hrun. }
    split; [done|]. left. simpl. rewrite <-(app_nil_r W).
    eapply uwalked_inv; [done|]. apply init_nedge_uinv. }
  destruct start as [s|]; [by apply Hsome|].
  rewrite u_ctor_default.
  destruct (first_with_out_arc gr (nodes gr)) as [s|] eqn:Hfirst.
  - apply first_with_out_arc_Some in Hfirst as [Hs _]. by apply Hsome.
  - eexists. split; [done|]. split; [done|]. by right.
Qed.

Lemma u_gen_tour_inv start :
  valid_start gr start →
  ∃ et it, EulerIt.tour gr start = Ok et ∧ u_gen_inv gr et it ∧
           EulerIt.euler it = [].
Proof.
  intros Hstart. destruct (u_gen_ctor_inv start Hstart) as (it & Hctor & Hinv).
  unfold EulerIt.tour. rewrite Hctor. simpl.
  apply (u_collect_inv (u_gen_inv gr)); [|done|done].
  intros et it' a rest. by apply u_gen_incr_inv.
Qed.

End u_general.

Lemma opposite_pairs_length `{Graph GR} (gr : GR) (X : list nat) :
  uwf gr → (∀ a, a ∈ X → a ∈ arcs gr) → NoDup (edge gr <$> X) →
  2 * length X ≤ length (arcs gr).
Proof.
  intros Huwf HX Hnd.
  assert (length (X ++ (oppositeArc gr <$> X)) ≤ length (arcs gr)) as Hle.
  { apply submseteq_length, NoDup_submseteq.
    - apply NoDup_app. split_and!.
      + by eapply NoDup_fmap_1.
      + intros x Hx (y & Hxy & Hy)%list_elem_of_fmap.
        destruct (oppositeArc_spec gr y Huwf (HX y Hy)) as (_ & Hne & He & _).
        apply Hne. rewrite <-Hxy.
        apply (NoDup_fmap_eq (edge gr) X); [done..|]. by rewrite Hxy.
      + apply NoDup_fmap_2_strong; [|by eapply NoDup_fmap_1].
        intros x y Hx Hy Hxy.
        rewrite <-(oppositeArc_involutive gr x Huwf (HX x Hx)).
        rewrite <-(oppositeArc_involutive gr y Huwf (HX y Hy)).
        by rewrite Hxy.
    - intros x [Hx|Hx]%elem_of_app; [auto|].
      apply list_elem_of_fmap in Hx as (y & -> & Hy).
      by apply oppositeArc_spec, HX. }
  rewrite length_app, length_fmap in Hle. lia.
Qed.

(** X7.  Whatever the graph, Eulerian or not, a tour is made of arcs of the
    graph, and it is never longer than the graph allows: the directed tour
    has at most as many arcs as the digraph, the undirected tour at most as
    many arcs as the graph has edges (half its arcs). *)
Theorem tour_within_graph {GR GR' : Type} `{Digraph GR} `{Graph GR'}
    (dg : GR) (dstart : option nat) (ug : GR') (ustart : option nat) :
  wf dg → valid_start dg dstart → uwf ug → valid_start ug ustart →
  (∃ et, DiEulerIt.tour dg dstart = Ok et ∧
         (∀ a, a ∈ et → a ∈ arcs dg) ∧ length et ≤ length (arcs dg)) ∧
  (∃ et, EulerIt.tour ug ustart = Ok et ∧
         (∀ a, a ∈ et → a ∈ arcs ug) ∧ 2 * length et ≤ length (arcs ug)).
Proof.
  intros Hwf Hds Huwf Hus. split.
  - destruct (di_tour_inv dg dstart Hwf Hds)
      as (et & it & Htour & [_ [Hinv|[-> _]]] & Hnil).
    + exists et. rewrite Hnil, app_nil_r in Hinv. split_and!; [done| |].
      * apply (ci_arcs _ _ _ Hinv).
      * apply submseteq_length, NoDup_submseteq;
          [apply (ci_nodup _ _ _ Hinv) | apply (ci_arcs _ _ _ Hinv)].
    + exists []. split_and!; [done| |simpl; lia].
      by intros a ?%not_elem_of_nil.
  - destruct (u_gen_tour_inv ug (uwf_wf ug Huwf) ustart Hus)
      as (et & it & Htour & [_ [Hinv|[-> _]]] & Hnil).
    + exists et. rewrite Hnil, app_nil_r in Hinv. split_and!; [done| |].
      * apply (uc_arcs _ _ _ _ Hinv).
      * apply opposite_pairs_length;
          [done | apply (uc_arcs _ _ _ _ Hinv) | apply (uc_nodup _ _ _ _ Hinv)].
    + exists []. split_and!; [done| |simpl; lia].
      by intros a ?%not_elem_of_nil.
Qed.

Lemma tour_within_graph_witness :
  (∃ et, DiEulerIt.tour sink_first (Some 1) = Ok et ∧
         (∀ a, a ∈ et → a ∈ arcs sink_first) ∧
         length et ≤ length (arcs sink_first)) ∧
  (∃ et, EulerIt.tour path3 (Some 1) = Ok et ∧
         (∀ a, a ∈ et → a ∈ arcs path3) ∧
         2 * length et ≤ length (arcs path3)).
Proof.
  apply (tour_within_graph sink_first (Some 1) path3 (Some 1)).
  - apply (bool_decide_unpack _). vm_compute. reflexivity.
  - apply (bool_decide_unpack _). vm_compute. reflexivity.
  - apply (bool_decide_unpack _). vm_compute. reflexivity.
  - apply (bool_decide_unpack _). vm_compute. reflexivity.
Defined.

(** ** The loops come to an end *)


(** ** Graphs with a node that no arc touches *)

Lemma uwf_symmetric `{Graph GR} (gr : GR) : uwf gr → symmetric gr.
Proof.
  intros Huwf u v Hu (a & Ha & <-).
  assert (a ∈ arcs gr) as Harc by (apply elem_of_arcs; eauto).
  destruct (oppositeArc_spec gr a Huwf Harc) as (_ & _ & _ & _ & Ht & _).
  exists (oppositeArc gr a). split; [by apply oppositeArc_out|].
  rewrite Ht. by apply wf_out_source; [apply uwf_wf|..].
Qed.

Lemma path_connected_no_isolated `{Digraph GR} (gr : GR) n m :
  path_connected gr → n ∈ nodes gr → m ∈ nodes gr → n ≠ m →
  outArcs gr n ≠ [].
Proof.
  intros Hpath Hn Hm Hne Hout.
  destruct (rtc_inv _ _ (Hpath n m Hn Hm)) as [?|(y & (a & Ha & _) & _)];
    [done|].
  rewrite Hout in Ha. by apply not_elem_of_nil in Ha.
Qed.

(** X9.  [eulerian] returns false for every graph with at least two nodes
    one of which no arc touches, whatever the degrees of the nodes are.
    (By X2 and X5 the iterators may all the same produce a closed tour
    through all arcs of such a graph.) *)
Theorem eulerian_false_isolated {GR GR' : Type} `{Graph GR} `{Digraph GR'}
    (ug : GR) (n m : nat) (dg : GR') (n' m' : nat) :
  uwf ug → n ∈ nodes ug → m ∈ nodes ug → n ≠ m → outArcs ug n = [] →
  wf dg → n' ∈ nodes dg → m' ∈ nodes dg → n' ≠ m' →
  outArcs dg n' = [] → inArcs dg n' = [] →
  Undirected.eulerian ug = false ∧ Directed.eulerian dg = false.
Proof.
  intros Huwf Hn Hm Hne Hout Hwf Hn' Hm' Hne' Hout' Hin'. split.
  - destruct (Undirected.eulerian ug) eqn:He; [|done]. exfalso.
    apply undirected_eulerian_iff in He as [_ Hconn].
    apply connected_path_connected in Hconn;
      [|by apply wf_closed, uwf_wf|by apply uwf_symmetric].
    by apply (path_connected_no_isolated ug n m).
  - destruct (Directed.eulerian dg) eqn:He; [|done]. exfalso.
    apply directed_eulerian_iff in He as [_ Hconn].
    apply undirector_connected in Hconn; [|done].
    apply (path_connected_no_isolated (undirector dg) n' m'); [done..|].
    by rewrite undirector_outArcs, Hout', Hin'.
Qed.

Lemma eulerian_false_isolated_witness :
  Undirected.eulerian isolated_first = false ∧
  Directed.eulerian cycle_isolated = false.
Proof.
  apply (eulerian_false_isolated isolated_first 0 1 cycle_isolated 0 1).
  - apply (bool_decide_unpack _). vm_compute. reflexivity.
  - apply (bool_decide_unpack _). vm_compute. reflexivity.
  - apply (bool_decide_unpack _). vm_compute. reflexivity.
  - lia.
  - vm_compute. reflexivity.
  - apply (bool_decide_unpack _). vm_compute. reflexivity.
  - apply (bool_decide_unpack _). vm_compute. reflexivity.
  - apply (bool_decide_unpack _). vm_compute. reflexivity.
  - lia.
  - vm_compute. reflexivity.
  - vm_compute. reflexivity.
Defined.

(** ** A start node that is not a node of the graph *)

(** X10.  The start node must be a node of the graph: the constructors
    read its cursor without any check, and for a node the graph does not
    have no cursor was ever initialised, so that the construction has no
    defined result. *)
Theorem ctor_foreign_start {GR GR' : Type} `{Digraph GR} `{Graph GR'}
    (dg : GR) (s : nat) (ug : GR') (s' : nat) :
  s ∉ nodes dg → s' ∉ nodes ug →
  DiEulerIt.ctor dg (Some s) = Undefined ∧
  DiEulerIt.tour dg (Some s) = Undefined ∧
  EulerIt.ctor ug (Some s') = Undefined ∧
  EulerIt.tour ug (Some s') = Undefined.
Proof.
  intros Hs Hs'.
  assert (DiEulerIt.ctor dg (Some s) = Undefined) as Hd.
  { unfold DiEulerIt.ctor.
    assert (init_nedge dg !! s = None) as Hl
      by by rewrite init_nedge_lookup, decide_False.
    destruct (cursor_total (init_nedge dg)); simpl; by rewrite Hl. }
  assert (EulerIt.ctor ug (Some s') = Undefined) as Hu.
  { unfold EulerIt.ctor.
    assert (init_nedge ug !! s' = None) as Hl
      by by rewrite init_nedge_lookup, decide_False.
    destruct (cursor_total (init_nedge ug)); simpl; by rewrite Hl. }
  unfold DiEulerIt.tour, EulerIt.tour. by rewrite Hd, Hu.
Qed.

Lemma ctor_foreign_start_witness :
  DiEulerIt.ctor fig8 (Some 7) = Undefined ∧
  DiEulerIt.tour fig8 (Some 7) = Undefined ∧
  EulerIt.ctor triangle (Some 7) = Undefined ∧
  EulerIt.tour triangle (Some 7) = Undefined.
Proof.
  apply (ctor_foreign_start fig8 7 triangle 7).
  - apply (bool_decide_unpack _). vm_compute. reflexivity.
  - apply (bool_decide_unpack _). vm_compute. reflexivity.
Defined.

(** ** What an advance does to the trail *)

Lemma uwalked_taken `{Graph GR} (gr : GR) nedge visited s W nedge' visited' s' :
  uwalked gr nedge visited s W nedge' visited' s' →
  taken gr nedge visited s W nedge' visited'.
Proof.
  induction 1 as [|nedge visited s a c W nedge' visited' s' Hs Ha _ IH
                  |nedge visited s a c W nedge' visited' s' Hs Ha _ IH].
  - constructor.
  - eapply taken_skip; [done| |done]. by apply suffix_cons_r.
  - by eapply taken_arc.
Qed.

Lemma NoDup_popped (W et rest : list nat) a :
  NoDup (W ++ et ++ a :: rest) → a ∉ W ++ rest.
Proof.
  rewrite <-!Permutation_middle. intros [Ha _]%NoDup_cons Hin. apply Ha.
  apply elem_of_app in Hin as [?|?]; rewrite !elem_of_app; auto.
Qed.

Lemma di_incr_pops `{Digraph GR} (gr : GR) it a rest :
  wf gr → DiEulerIt.reachable gr it → DiEulerIt.euler it = a :: rest →
  ∃ it' W s',
    DiEulerIt.incr it = Ok (tt, it') ∧
    DiEulerIt.g it' = DiEulerIt.g it ∧
    DiEulerIt.euler it' = W ++ rest ∧
    walked gr (DiEulerIt.nedge it) (target gr a) W (DiEulerIt.nedge it') s' ∧
    a ∉ DiEulerIt.euler it'.
Proof.
  intros Hwf [et [Hg [Hinv|[_ Hnil]]]]%di_reachable_inv He; [|congruence|done].
  rewrite He in Hinv.
  assert (a ∈ arcs gr) as Ha.
  { apply (ci_arcs _ _ _ Hinv). set_solver. }
  destruct (ci_suffix _ _ _ Hinv _ (wf_arc_target gr a Hwf Ha))
    as (u & c & Hc & _).
  destruct (di_incr_walked gr it a rest Hg He) as (nedge' & W & s' & Hincr & Hw);
    [by eapply cursors_inv_closed | eauto |].
  pose proof (walked_inv gr _ _ _ _ _ _ Hwf Hw Hinv) as Hinv'.
  eexists _, W, s'. split; [exact Hincr|]. simpl. split_and!; [done..|].
  eapply NoDup_popped, (ci_nodup _ _ _ Hinv').
Qed.

Lemma u_incr_pops `{Graph GR} (gr : GR) it b rest :
  closed gr → EulerIt.reachable gr it → EulerIt.euler it = b :: rest →
  ∃ it' W s',
    EulerIt.incr it = Ok (tt, it') ∧
    EulerIt.g it' = EulerIt.g it ∧
    EulerIt.euler it' = W ++ rest ∧
    uwalked gr (EulerIt.nedge it) (EulerIt.visited it) (target gr b) W
            (EulerIt.nedge it') (EulerIt.visited it') s' ∧
    b ∉ EulerIt.euler it'.
Proof.
  intros Hcl [et (Hg & Hclo & Htg & Hnd & Hvis)]%u_reachable_inv He; [|done].
  rewrite He in Htg, Hnd, Hvis.
  destruct (u_incr_walk_uwalked gr (cursor_total (EulerIt.nedge it))
              (EulerIt.nedge it) (EulerIt.visited it) [] rest (target gr b))
    as (nedge' & visited' & W & s' & Hrun & Hw);
    [done | apply Htg, list_elem_of_here | done |].
  destruct (taken_edges gr _ _ _ _ _ _ (et ++ b :: rest)
              (uwalked_taken gr _ _ _ _ _ _ _ Hw) Hnd Hvis) as [Hnd' _].
  exists (EulerIt.Build gr nedge' visited' (W ++ rest)), W, s'. split.
  { unfold EulerIt.incr. by rewrite He, Hg, Hrun. }
  simpl. split_and!; [done..|].
  eapply NoDup_popped, NoDup_fmap_1, Hnd'.
Qed.

(** C8.  From a state with a non-empty trail, the advance removes the arc
    at the front of the trail, and the postfix increment returns that arc,
    the one the conversion to [Arc] gave before it, and leaves the iterator
    as the advance does: the new trail is the arcs of the walk from the
    target of the removed arc, followed by the rest of the old trail, and
    the removed arc is not on it. *)
Theorem postIncr_yields_front {GR GR' : Type} `{Digraph GR} `{Graph GR'}
    (dg : GR) (dit : DiEulerIt.t GR) (a : nat) (rest : list nat)
    (ug : GR') (uit : EulerIt.t GR') (b : nat) (rest' : list nat) :
  wf dg → DiEulerIt.reachable dg dit → DiEulerIt.euler dit = a :: rest →
  closed ug → EulerIt.reachable ug uit → EulerIt.euler uit = b :: rest' →
  (∃ dit' W s',
     DiEulerIt.toArc dit = Ok (Some a, dit) ∧
     DiEulerIt.incr dit = Ok (tt, dit') ∧
     DiEulerIt.postIncr dit = Ok (Some a, dit') ∧
     DiEulerIt.g dit' = DiEulerIt.g dit ∧
     DiEulerIt.euler dit' = W ++ rest ∧
     walked dg (DiEulerIt.nedge dit) (target dg a) W
            (DiEulerIt.nedge dit') s' ∧
     a ∉ DiEulerIt.euler dit') ∧
  (∃ uit' W s',
     EulerIt.toArc uit = Ok (Some b, uit) ∧
     EulerIt.incr uit = Ok (tt, uit') ∧
     EulerIt.postIncr uit = Ok (Some b, uit') ∧
     EulerIt.g uit' = EulerIt.g uit ∧
     EulerIt.euler uit' = W ++ rest' ∧
     uwalked ug (EulerIt.nedge uit) (EulerIt.visited uit) (target ug b) W
             (EulerIt.nedge uit') (EulerIt.visited uit') s' ∧
     b ∉ EulerIt.euler uit').
Proof.
  intros Hwf Hdr Hde Hcl Hur Hue. split.
  - destruct (di_incr_pops dg dit a rest Hwf Hdr Hde)
      as (dit' & W & s' & Hincr & Hg & Hshape & Hw & Hnot).
    exists dit', W, s'. split_and!; [|done| |done..].
    + unfold DiEulerIt.toArc. by rewrite Hde.
    + unfold DiEulerIt.postIncr, mbind, M_bind, DiEulerIt.toArc.
      rewrite Hincr, Hde. done.
  - destruct (u_incr_pops ug uit b rest' Hcl Hur Hue)
      as (uit' & W & s' & Hincr & Hg & Hshape & Hw & Hnot).
    exists uit', W, s'. split_and!; [|done| |done..].
    + unfold EulerIt.toArc. by rewrite Hue.
    + unfold EulerIt.postIncr, mbind, M_bind, EulerIt.toArc.
      rewrite Hincr, Hue. done.
Qed.

Lemma postIncr_yields_front_witness :
  (∃ dit' W s',
     DiEulerIt.toArc (di_ctor_it fig8 (Some 1))
     = Ok (Some 1, di_ctor_it fig8 (Some 1)) ∧
     DiEulerIt.incr (di_ctor_it fig8 (Some 1)) = Ok (tt, dit') ∧
     DiEulerIt.postIncr (di_ctor_it fig8 (Some 1)) = Ok (Some 1, dit') ∧
     DiEulerIt.g dit' = DiEulerIt.g (di_ctor_it fig8 (Some 1)) ∧
     DiEulerIt.euler dit' = W ++ [2; 0] ∧
     walked fig8 (DiEulerIt.nedge (di_ctor_it fig8 (Some 1)))
            (target fig8 1) W (DiEulerIt.nedge dit') s' ∧
     1 ∉ DiEulerIt.euler dit') ∧
  (∃ uit' W s',
     EulerIt.toArc (u_ctor_it triangle (Some 1))
     = Ok (Some 0, u_ctor_it triangle (Some 1)) ∧
     EulerIt.incr (u_ctor_it triangle (Some 1)) = Ok (tt, uit') ∧
     EulerIt.postIncr (u_ctor_it triangle (Some 1)) = Ok (Some 0, uit') ∧
     EulerIt.g uit' = EulerIt.g (u_ctor_it triangle (Some 1)) ∧
     EulerIt.euler uit' = W ++ [4; 2] ∧
     uwalked triangle (EulerIt.nedge (u_ctor_it triangle (Some 1)))
             (EulerIt.visited (u_ctor_it triangle (Some 1)))
             (target triangle 0) W
             (EulerIt.nedge uit') (EulerIt.visited uit') s' ∧
     0 ∉ EulerIt.euler uit').
Proof.
  apply (postIncr_yields_front fig8 (di_ctor_it fig8 (Some 1)) 1 [2; 0]
           triangle (u_ctor_it triangle (Some 1)) 0 [4; 2]).
  - apply (bool_decide_unpack _). vm_compute. reflexivity.
  - apply (DiEulerIt.reach_ctor fig8 (Some 1)).
    + apply (bool_decide_unpack _). vm_compute. reflexivity.
    + vm_compute. reflexivity.
  - vm_compute. reflexivity.
  - apply (bool_decide_unpack _). vm_compute. reflexivity.
  - apply (EulerIt.reach_ctor triangle (Some 1)).
    + apply (bool_decide_unpack _). vm_compute. reflexivity.
    + vm_compute. reflexivity.
  - vm_compute. reflexivity.
Defined.
